(** * The ori object store: metadata log, packfiles and the packfile manager

    A shallow embedding of [metadatalog.cc] and [packfile.cc] of the ori
    repository, and the properties of the storage engine proved over it.

    Files are byte sequences ([list byte]); the fixed-width integers of the
    on-disk formats are [Z] values with the wrap-around of their C type
    written out; [std::map]s are [gmap]s, but for the one of [transmit],
    whose order of keys matters and which is a list kept in that order.
    Part I holds the embedding, Part II the lemmas and theorems. *)

From Stdlib Require Import ZArith List Lia Ascii String.
From coqutil Require Import Byte Word.LittleEndianList.
From stdpp Require Import gmap strings list fin_maps sorting pretty.

Local Open Scope Z_scope.

(* ===================================================================== *)
(** * Part I: the embedding *)
(* ===================================================================== *)

(** ** Bytes and fixed-width integers *)

Abbreviation byte := Init.Byte.byte.
Abbreviation bytes := (list Init.Byte.byte).

#[global] Instance byte_eq_dec : EqDecision byte.
Proof.
  intros a b. destruct (decide (Byte.to_N a = Byte.to_N b)) as [e | n].
  - left. by apply byte.to_N_inj.
  - right. intros ->. by apply n.
Defined.

#[global] Instance byte_countable : Countable byte :=
  inj_countable Byte.to_N Byte.of_N Byte.of_to_N.

(** [uint32_t] and [size_t] arithmetic: results are reduced modulo the width
    of the type, [size_t] being 64 bits wide. *)
Definition wrap32 (z : Z) : Z := z mod 2 ^ 32.
Definition wrap64 (z : Z) : Z := z mod 2 ^ 64.

(** Modelled from the spec: [writeInt<uint32_t>] of the stream classes, which
    are not among the sources: four bytes, least significant first ("all
    integers little-endian").  The raw [write] and [read] of a [uint32_t] in
    [metadatalog.cc] have the byte order of the host, taken to be the
    same. *)
Definition writeInt32 (z : Z) : bytes := le_split 4 z.

(** The value of a [uint32_t] whose storage holds the bytes [bs]. *)
Definition readInt32 (bs : bytes) : Z := le_combine (take 4 bs).

(** ** Object hashes

    [ObjectHash] wraps an array of [ObjectHash::SIZE] bytes; the width is
    part of the type.  The class is declared in a header that is not among
    the sources, so its width and its empty value come from the
    specification. *)

(** Modelled from the spec: [ObjectHash::SIZE], the width of a digest
    ("a fixed-width (e.g., 32-byte) content digest"). *)
Definition HASH_SIZE : nat := 32.

Record ObjectHash : Type := mkHash {
  hash_data : bytes;
  hash_width : bool_decide (length hash_data = HASH_SIZE)
}.

Lemma ObjectHash_eq (h1 h2 : ObjectHash) :
  hash_data h1 = hash_data h2 → h1 = h2.
Proof.
  destruct h1 as [d1 p1], h2 as [d2 p2]; simpl; intros ->.
  f_equal. apply proof_irrel.
Qed.

#[global] Instance ObjectHash_eq_dec : EqDecision ObjectHash.
Proof.
  intros h1 h2. destruct (decide (hash_data h1 = hash_data h2)) as [e | n].
  - left. by apply ObjectHash_eq.
  - right. by intros ->.
Defined.

Lemma fill_width (bs : bytes) :
  bool_decide (length (take HASH_SIZE (bs ++ replicate HASH_SIZE Byte.x00)) = HASH_SIZE).
Proof.
  apply bool_decide_pack. rewrite length_take, length_app, length_replicate. lia.
Qed.

(** The hash left in a zero-initialised [ObjectHash] after [read] stored the
    bytes [bs] into it (at most [HASH_SIZE] of them; fewer on a short
    read). *)
Definition hash_of_read (bs : bytes) : ObjectHash :=
  mkHash (take HASH_SIZE (bs ++ replicate HASH_SIZE Byte.x00)) (fill_width bs).

Lemma hash_of_read_data (h : ObjectHash) : hash_of_read (hash_data h) = h.
Proof.
  apply ObjectHash_eq; simpl.
  pose proof (bool_decide_unpack _ (hash_width h)) as Hlen.
  rewrite take_app_le by lia. apply take_ge. lia.
Qed.

#[global] Instance ObjectHash_countable : Countable ObjectHash :=
  inj_countable' hash_data hash_of_read hash_of_read_data.

(** Modelled from the spec: [ObjectHash::isEmpty], the test for the
    "distinguished empty value meaning no object", taken to be the all-zero
    digest a default-constructed hash holds. *)
Definition isEmpty (h : ObjectHash) : bool :=
  bool_decide (hash_data h = replicate HASH_SIZE Byte.x00).

(** ** The metadata log ([metadatalog.cc]) *)

(** [refcount_t] is a [uint32_t]; [RefcountMap] maps hashes to it.  The
    order in which the map is iterated is the order of [map_to_list]; no
    result below depends on it. *)
Abbreviation RefcountMap := (gmap ObjectHash Z).

(** [sizeof(refcount_t)] *)
Definition REFCOUNT_SIZE : nat := 4.

(** [MdTransaction]: the pending deltas.  The back pointer [log] is the log
    the transaction is passed along with. *)
Record MdTransaction : Type := { counts : RefcountMap }.

Module MetadataLog.

(** The object: [fd] holds the contents of the file behind the
    descriptor, which is opened with [O_APPEND], so every [write] lands at
    its end. *)
Record state : Type := { fd : bytes; refcounts : RefcountMap }.

(** The inner [for] loop of [open]: [num] records of a hash and a
    reference count.  [junk] is what an uninitialised [uint32_t] holds
    where a short [read] leaves it untouched. *)
Fixpoint read_records (num : nat) (junk rest : bytes)
    (refcounts : RefcountMap) (readSoFar : Z) : bytes * RefcountMap * Z :=
  match num with
  | O => (rest, refcounts, readSoFar)
  | S num' =>
      let hash := hash_of_read (take HASH_SIZE rest) in
      let rest := drop HASH_SIZE rest in
      let refcount := readInt32 (rest ++ junk) in
      let rest := drop REFCOUNT_SIZE rest in
      read_records num' junk rest (<[hash := refcount]> refcounts)
        (wrap64 (readSoFar + (Z.of_nat HASH_SIZE + Z.of_nat REFCOUNT_SIZE)))
  end.

(** The [while (true)] loop of [open].  [rest] is the unread part of the
    file and [st_size] the size [fstat] reported.  [None] is only returned
    when [fuel] runs out. *)
Fixpoint open_loop (fuel : nat) (junk : bytes) (st_size : Z) (rest : bytes)
    (readSoFar : Z) (refcounts : RefcountMap) : option (bool * RefcountMap) :=
  match fuel with
  | O => None
  | S fuel' =>
      let n := length (take 4 rest) in
      let num := readInt32 (rest ++ junk) in
      let readSoFar := wrap64 (readSoFar + 4) in
      if decide (n = 0%nat) then Some (true, refcounts)
      else if decide (wrap64 (num * (Z.of_nat HASH_SIZE + Z.of_nat REFCOUNT_SIZE) + readSoFar) > st_size)
      then Some (false, refcounts)
      else
        let '(rest', refcounts', readSoFar') :=
          read_records (Z.to_nat num) junk (drop 4 rest) refcounts readSoFar in
        open_loop fuel' junk st_size rest' readSoFar' refcounts'
  end.

(** [MetadataLog::open] on a file whose contents are [file] (empty when
    [O_CREAT] has just made it).  Every pass of the loop that does not
    return consumes the four bytes of a count, so [S (length file)] passes
    are enough. *)
Definition open (junk file : bytes) : option (bool * state) :=
  match open_loop (S (length file)) junk (Z.of_nat (length file)) file 0 ∅ with
  | Some (ok, refcounts) => Some (ok, {| fd := file; refcounts := refcounts |})
  | None => None
  end.

(** [MetadataLog::~MetadataLog] closes the descriptor; what stays is the
    file. *)
Definition close (log : state) : bytes := fd log.

(** [MetadataLog::begin] *)
Definition begin : MdTransaction := {| counts := ∅ |}.

(** The body of the [for] loop of [commit], over the remaining pairs of
    the transaction; [None] when the assertion [!hash.isEmpty()] fails. *)
Fixpoint commit_loop (its : list (ObjectHash * Z)) (ws : bytes)
    (refcounts : RefcountMap) : option (bytes * RefcountMap) :=
  match its with
  | [] => Some (ws, refcounts)
  | (hash, delta) :: its' =>
      if isEmpty hash then None
      else
        let final_count := wrap32 (default 0 (refcounts !! hash) + delta) in
        commit_loop its' (ws ++ hash_data hash ++ writeInt32 final_count)
          (<[hash := final_count]> refcounts)
  end.

(** [MetadataLog::commit].  [None] stands for the process aborting on the
    failed assertion. *)
Definition commit (tr : MdTransaction) (log : state)
    : option (MdTransaction * state) :=
  let num := wrap32 (Z.of_nat (size (counts tr))) in
  if decide (num = 0) then Some (tr, log)
  else
    let fd1 := fd log ++ writeInt32 num in
    match commit_loop (map_to_list (counts tr)) [] (refcounts log) with
    | None => None
    | Some (ws, refcounts') =>
        Some ({| counts := ∅ |}, {| fd := fd1 ++ ws; refcounts := refcounts' |})
    end.

(** [MdTransaction::~MdTransaction]: the scoped release of a transaction
    of this log. *)
Definition destroy (tr : MdTransaction) (log : state) : option state :=
  snd <$> commit tr log.

(** [MetadataLog::rewrite]; [refs = None] is the default argument
    [NULL]. *)
Definition rewrite (refs : option RefcountMap) (log : state) : option state :=
  let refs := default (refcounts log) refs in
  let log := {| fd := []; refcounts := refcounts log |} in
  let tr := begin in
  let tr := {| counts := refs |} in
  let log := {| fd := fd log; refcounts := ∅ |} in
  destroy tr log.

(** [MetadataLog::addRef].  [trs = None] is a call without a transaction:
    the one made inside is owned by the parameter alone and is released
    when the call returns.  A transaction passed in stays alive, the
    caller holding it too. *)
Definition addRef (hash : ObjectHash) (trs : option MdTransaction)
    (log : state) : option (option MdTransaction * state) :=
  let bump (tr : MdTransaction) :=
    {| counts := <[hash := wrap32 (default 0 (counts tr !! hash) + 1)]> (counts tr) |} in
  match trs with
  | Some tr => Some (Some (bump tr), log)
  | None => (λ log', (None, log')) <$> destroy (bump begin) log
  end.

(** [MetadataLog::getRefCount] *)
Definition getRefCount (hash : ObjectHash) (log : state) : Z :=
  match refcounts log !! hash with
  | None => 0
  | Some c => c
  end.

End MetadataLog.

(** ** The format of the metadata log, as the specification gives it

    These definitions follow the specification, not the code: an entry is a
    [u32] count followed by that many (hash, refcount) records, and a log
    file is a concatenation of entries. *)

Abbreviation log_entry := (list (ObjectHash * Z)).

Definition record_bytes (r : ObjectHash * Z) : bytes :=
  hash_data r.1 ++ writeInt32 r.2.

Definition records_bytes (e : log_entry) : bytes :=
  concat (map record_bytes e).

Definition entry_bytes (e : log_entry) : bytes :=
  writeInt32 (Z.of_nat (length e)) ++ records_bytes e.

Definition log_bytes (es : list log_entry) : bytes :=
  concat (map entry_bytes es).

(** An entry whose count and reference counts are [uint32_t] values. *)
Definition entry_ok (e : log_entry) : Prop :=
  Z.of_nat (length e) < 2 ^ 32 ∧ Forall (λ r, 0 ≤ r.2 < 2 ^ 32) e.

(** The refcount an entry gives [h]: that of its last record for [h]. *)
Fixpoint last_record (h : ObjectHash) (e : log_entry) : option Z :=
  match e with
  | [] => None
  | (h', c) :: e' =>
      match last_record h e' with
      | Some c' => Some c'
      | None => if decide (h' = h) then Some c else None
      end
  end.

(** The refcount written in the last entry that contains [h]. *)
Fixpoint last_written (h : ObjectHash) (es : list log_entry) : option Z :=
  match es with
  | [] => None
  | e :: es' =>
      match last_written h es' with
      | Some c => Some c
      | None => last_record h e
      end
  end.

(** Loading an entry, then a log, into a map: each record overwrites. *)
Definition replay_entry (m : RefcountMap) (e : log_entry) : RefcountMap :=
  foldl (λ m r, <[r.1 := r.2]> m) m e.

Definition replay (es : list log_entry) (m : RefcountMap) : RefcountMap :=
  foldl replay_entry m es.

(** A file holds exactly one entry whose pairs are those of [m]. *)
Definition holds_one_entry (file : bytes) (m : RefcountMap) : Prop :=
  ∃ e : log_entry, file = entry_bytes e ∧ NoDup e.*1 ∧ list_to_map e = m.

(** Committing the transactions [trs] one after the other, each by its
    scoped release. *)
Fixpoint commit_all (trs : list MdTransaction) (log : MetadataLog.state)
    : option MetadataLog.state :=
  match trs with
  | [] => Some log
  | tr :: trs' =>
      match MetadataLog.destroy tr log with
      | Some log' => commit_all trs' log'
      | None => None
      end
  end.

(** ** Objects and the index

    [ObjectInfo], [IndexEntry] and [Index] are declared in headers that are
    not among the sources; their shape comes from the specification and
    from the way [packfile.cc] uses them. *)

Inductive ObjectType : Type := Null | Commit | Tree | Blob | LargeBlob | Purged.

#[global] Instance ObjectType_eq_dec : EqDecision ObjectType.
Proof. solve_decision. Defined.

Record ObjectInfo : Type := {
  type : ObjectType;
  flags : Z;          (* uint32_t *)
  payload_size : Z;
  hash : ObjectHash
}.

(** Modelled from the spec: the bit of [flags] that marks a compressed
    payload ("[flags] includes a compressed bit"). *)
Definition ORI_FLAG_COMPRESSED : Z := 1.

Definition getCompressed (info : ObjectInfo) : bool :=
  bool_decide (Z.land (flags info) ORI_FLAG_COMPRESSED ≠ 0).

(** Modelled from the spec: [ObjectInfo::SIZE], the width of a serialized
    info ([INFO_SIZE], 48 in the specification's scenarios). *)
Definition INFO_SIZE : nat := 48.

Definition type_code (t : ObjectType) : Z :=
  match t with
  | Null => 0 | Commit => 1 | Tree => 2 | Blob => 3 | LargeBlob => 4 | Purged => 5
  end.

Definition type_of_code (z : Z) : ObjectType :=
  match z with
  | 1 => Commit | 2 => Tree | 3 => Blob | 4 => LargeBlob | 5 => Purged | _ => Null
  end.

(** Modelled from the spec: [ObjectInfo::toString] and [fromString], the
    "fixed-width serialized record (hash, kind, flags, payload_size)".  The
    hash takes [HASH_SIZE] bytes; the split of the other sixteen bytes
    (four for the kind, four for the flags, eight for the size) is a choice
    of this model, and nothing below depends on it beyond the total width. *)
Definition ObjectInfo_toString (info : ObjectInfo) : bytes :=
  hash_data (hash info) ++ writeInt32 (type_code (type info))
  ++ writeInt32 (flags info) ++ le_split 8 (payload_size info).

Definition ObjectInfo_fromString (s : bytes) : ObjectInfo :=
  {| hash := hash_of_read (take HASH_SIZE s);
     type := type_of_code (readInt32 (drop HASH_SIZE s));
     flags := readInt32 (drop (HASH_SIZE + 4) s);
     payload_size := le_combine (take 8 (drop (HASH_SIZE + 8) s)) |}.

Record IndexEntry : Type := {
  info : ObjectInfo;
  offset : Z;         (* offset_t, a uint32_t *)
  packed_size : Z;    (* uint32_t *)
  packfile : Z        (* packid_t, a uint32_t *)
}.

(** Modelled from the spec: the index, a map from hashes to entries with
    [updateEntry] ("idempotent upsert") and [lookup]. *)
Abbreviation Index := (gmap ObjectHash IndexEntry).

(** ** Tunables and the compression streams

    [tuneables.h] and the [zipstream] class are not among the sources.  The
    constants the code reads are the fields of [Tuneables]; [Zip] stands
    for the codec. *)
Record Tuneables : Type := {
  ENABLE_COMPRESSION : bool;
  ZIP_MINIMUM_SIZE : Z;
  PACKFILE_MAXOBJS : Z;
  PACKFILE_MAXSIZE : Z
}.

Record Zip : Type := {
  (** all the bytes a [COMPRESS] stream over the input yields *)
  zip_compress : bytes → bytes;
  (** all the bytes a [DECOMPRESS] stream over the input yields, given the
      declared size of the result *)
  zip_decompress : bytes → Z → bytes;
  (** the admission test of [addPayload]: whether the first
      [COMPCHECK_BYTES] compressed bytes, divided by the input consumed for
      them, are at most [COMPCHECK_RATIO].  The division is a [float] one
      and is not modelled; every result below holds for either answer. *)
  zip_compcheck : bytes → bool
}.

(** ** Pack transactions ([PfTransaction]) *)

Module PfTransaction.

(** The staged batch.  The pointers [pf] and [idx] are the pack and the
    index the transaction is passed along with. *)
Record state : Type := {
  infos : list ObjectInfo;
  payloads : list bytes;
  hashToIx : gmap ObjectHash Z;
  totalSize : Z;
  committed : bool
}.

(** [PfTransaction::PfTransaction] *)
Definition new : state :=
  {| infos := []; payloads := []; hashToIx := ∅; totalSize := 0; committed := false |}.

(** [PfTransaction::full] *)
Definition full (tn : Tuneables) (t : state) : bool :=
  bool_decide (Z.of_nat (length (infos t)) >= PACKFILE_MAXOBJS tn)
  || bool_decide (totalSize t >= PACKFILE_MAXSIZE tn).

(** Whether [addPayload] stores the compressed bytes: compression is
    compiled in, the payload is longer than [ZIP_MINIMUM_SIZE] and the
    admission test passes. *)
Definition compresses (tn : Tuneables) (zip : Zip) (payload : bytes) : bool :=
  ENABLE_COMPRESSION tn
  && bool_decide (Z.of_nat (length payload) > ZIP_MINIMUM_SIZE tn)
  && zip_compcheck zip payload.

(** [info.flags |= ORI_FLAG_COMPRESSED] *)
Definition mark_compressed (info : ObjectInfo) : ObjectInfo :=
  {| type := type info;
     flags := Z.lor (flags info) ORI_FLAG_COMPRESSED;
     payload_size := payload_size info;
     hash := hash info |}.

(** [PfTransaction::addPayload] (the [DEBUG] block only prints). *)
Definition addPayload (tn : Tuneables) (zip : Zip) (info : ObjectInfo)
    (payload : bytes) (t : state) : state :=
  let '(info, stored) :=
    if compresses tn zip payload
    then (mark_compressed info, zip_compress zip payload)
    else (info, payload) in
  let infos' := infos t ++ [info] in
  {| infos := infos';
     payloads := payloads t ++ [stored];
     hashToIx := <[hash info := Z.of_nat (length infos') - 1]> (hashToIx t);
     totalSize := totalSize t + Z.of_nat (length stored);
     committed := committed t |}.

(** [PfTransaction::has] *)
Definition has (h : ObjectHash) (t : state) : bool :=
  bool_decide (is_Some (hashToIx t !! h)).

End PfTransaction.

(** ** Packfiles ([Packfile]) *)

(** [ENTRYSIZE]: an info, the stored length and the offset. *)
Definition ENTRYSIZE : Z := Z.of_nat INFO_SIZE + 4 + 4.

(** [sizeof(numobjs_t)] *)
Definition NUMOBJS_SIZE : Z := 4.

(** The result of a call: it returns, an exception leaves it, or a failed
    assertion stops the process. *)
Inductive outcome (A : Type) : Type :=
  | Returned (a : A)
  | Thrown
  | Aborted.
Arguments Returned {A} a.
Arguments Thrown {A}.
Arguments Aborted {A}.

(** Modelled from the spec: [bytestream::readExact] and [readInt<uint32_t>]
    of the stream classes, which are not among the sources.  They consume
    the bytes asked for and fail, by an exception, when the stream ends
    first ("short reads ... terminate the outer loop"). *)
Definition readExact (n : nat) (bs : bytes) : option (bytes * bytes) :=
  if decide (n ≤ length bs)%nat then Some (take n bs, drop n bs) else None.

Definition stream_readInt (bs : bytes) : option (Z * bytes) :=
  match readExact 4 bs with
  | Some (b, rest) => Some (readInt32 b, rest)
  | None => None
  end.

Module Packfile.

(** The object.  [fd] holds the contents of the file behind the
    descriptor; [numObjects] and [fileSize] are [size_t] counters, which
    never come near their limit and are left unbounded. *)
Record state : Type := {
  fd : bytes;
  filename : string;
  packid : Z;
  numObjects : Z;
  fileSize : Z
}.

(** The effects of a pack operation on the file and on the index, oldest
    first. *)
Inductive Event : Type :=
  | EvWrite (data : bytes)                            (* [write(fd, ...)] *)
  | EvUpdateEntry (h : ObjectHash) (ie : IndexEntry). (* [idx->updateEntry] *)

(** What a pack operation acts on: the pack, the index it is given, and
    the effects so far. *)
Record World : Type := {
  pf : state;
  idx : Index;
  trace : list Event
}.

(** [Packfile::Packfile] on a file whose contents are [file] (empty when
    [O_CREAT] has just made it). *)
Definition new (file : bytes) (name : string) (id : Z) : state :=
  {| fd := file; filename := name; packid := id;
     numObjects := 0; fileSize := Z.of_nat (length file) |}.

(** [Packfile::full] *)
Definition full (tn : Tuneables) (p : state) : bool :=
  bool_decide (numObjects p >= PACKFILE_MAXOBJS tn)
  || bool_decide (fileSize p >= PACKFILE_MAXSIZE tn).

(** [Packfile::begin] *)
Definition begin : PfTransaction.state := PfTransaction.new.

(** [write] at the file position, which [lseek] has put at the end of the
    file. *)
Definition sys_write (data : bytes) (w : World) : World :=
  {| pf := {| fd := fd (pf w) ++ data; filename := filename (pf w);
              packid := packid (pf w); numObjects := numObjects (pf w);
              fileSize := fileSize (pf w) |};
     idx := idx w;
     trace := trace w ++ [EvWrite data] |}.

(** [idx->updateEntry(h, ie)] *)
Definition updateEntry (h : ObjectHash) (ie : IndexEntry) (w : World) : World :=
  {| pf := pf w; idx := <[h := ie]> (idx w);
     trace := trace w ++ [EvUpdateEntry h ie] |}.

(** [fileSize += n] *)
Definition add_fileSize (n : Z) (w : World) : World :=
  {| pf := {| fd := fd (pf w); filename := filename (pf w);
              packid := packid (pf w); numObjects := numObjects (pf w);
              fileSize := fileSize (pf w) + n |};
     idx := idx w; trace := trace w |}.

(** [numObjects++] *)
Definition incr_numObjects (w : World) : World :=
  {| pf := {| fd := fd (pf w); filename := filename (pf w);
              packid := packid (pf w); numObjects := numObjects (pf w) + 1;
              fileSize := fileSize (pf w) |};
     idx := idx w; trace := trace w |}.

(** The first loop of [commit]: the header of each object and its offset,
    [off] being the offset of the next payload. *)
Fixpoint commit_headers (infos : list ObjectInfo) (payloads : list bytes)
    (off : Z) : bytes * list Z :=
  match infos, payloads with
  | i :: infos', p :: payloads' =>
      let '(ss, offsets) :=
        commit_headers infos' payloads' (wrap32 (off + Z.of_nat (length p))) in
      (ObjectInfo_toString i ++ writeInt32 (Z.of_nat (length p)) ++ writeInt32 off ++ ss,
       off :: offsets)
  | _, _ => ([], [])
  end.

(** The second loop of [commit]: each payload is written, then the index
    is told about it. *)
Fixpoint commit_payloads (infos : list ObjectInfo) (payloads : list bytes)
    (offsets : list Z) (w : World) : World :=
  match infos, payloads, offsets with
  | i :: infos', p :: payloads', o :: offsets' =>
      let w := sys_write p w in
      let w := add_fileSize (Z.of_nat (length p)) w in
      let w := incr_numObjects w in
      let ie := {| info := i; offset := o;
                   packed_size := wrap32 (Z.of_nat (length p));
                   packfile := packid (pf w) |} in
      let w := updateEntry (hash i) ie w in
      commit_payloads infos' payloads' offsets' w
  | _, _, _ => w
  end.

(** [Packfile::commit]; [None] when the [ASSERT] on the two sizes
    fails. *)
Definition commit (t : PfTransaction.state) (w : World)
    : option (PfTransaction.state * World) :=
  if decide (length (PfTransaction.infos t) = length (PfTransaction.payloads t)) then
    let headers_size := wrap64 (Z.of_nat (length (PfTransaction.infos t)) * ENTRYSIZE) in
    let off := wrap32 (fileSize (pf w) + NUMOBJS_SIZE + headers_size) in
    let '(ss, offsets) :=
      commit_headers (PfTransaction.infos t) (PfTransaction.payloads t) off in
    let headers_ss := writeInt32 (Z.of_nat (length (PfTransaction.infos t))) ++ ss in
    let w := sys_write headers_ss w in
    let w := add_fileSize (Z.of_nat (length headers_ss)) w in
    let w := commit_payloads (PfTransaction.infos t) (PfTransaction.payloads t) offsets w in
    Some ({| PfTransaction.infos := PfTransaction.infos t;
             PfTransaction.payloads := PfTransaction.payloads t;
             PfTransaction.hashToIx := PfTransaction.hashToIx t;
             PfTransaction.totalSize := PfTransaction.totalSize t;
             PfTransaction.committed := true |}, w)
  else None.

(** [PfTransaction::~PfTransaction]: the scoped release of a transaction
    of this pack. *)
Definition destroy (t : PfTransaction.state) (w : World) : option World :=
  if PfTransaction.committed t then Some w else snd <$> commit t w.

(** The bytes an [fdstream] over [length] bytes at [offset] yields. *)
Definition fdstream (file : bytes) (offset length : Z) : bytes :=
  take (Z.to_nat length) (drop (Z.to_nat offset) file).

(** [Packfile::getPayload]: the bytes the returned stream yields, read
    now; [None] when an assertion fails. *)
Definition getPayload (tn : Tuneables) (zip : Zip) (entry : IndexEntry)
    (p : state) : option bytes :=
  if decide (packfile entry = packid p) then
    let stored := fdstream (fd p) (offset entry) (packed_size entry) in
    if ENABLE_COMPRESSION tn then
      if getCompressed (info entry)
      then Some (zip_decompress zip stored (payload_size (info entry)))
      else Some stored
    else
      if getCompressed (info entry) then None else Some stored
  else None.

(** [_offsetCmp] *)
Definition _offsetCmp (ie1 ie2 : IndexEntry) : bool :=
  bool_decide (offset ie1 < offset ie2).

(** The order [std::sort] with [_offsetCmp] puts the entries in: no entry
    comes after one it is less than.  Where the standard leaves the order
    of entries with equal offsets open, the model has that of
    [merge_sort]. *)
Definition offset_order (ie1 ie2 : IndexEntry) : Prop := ¬ _offsetCmp ie2 ie1.

#[global] Instance offset_order_dec : RelDecision offset_order.
Proof. intros ie1 ie2. unfold offset_order. apply _. Defined.

(** [std::map<offset_t, offset_t>]: the pairs in the order of their keys,
    no key twice. *)
Abbreviation Blocks := (list (Z * Z)).

(** [blocks[k] = v] *)
Fixpoint blocks_set (k v : Z) (blocks : Blocks) : Blocks :=
  match blocks with
  | [] => [(k, v)]
  | (k', v') :: blocks' =>
      if decide (k < k') then (k, v) :: blocks
      else if decide (k = k') then (k, v) :: blocks'
      else (k', v') :: blocks_set k v blocks'
  end.

(** [blocks.find(k)]: the value, if the key is there. *)
Fixpoint blocks_find (k : Z) (blocks : Blocks) : option Z :=
  match blocks with
  | [] => None
  | (k', v') :: blocks' => if decide (k = k') then Some v' else blocks_find k blocks'
  end.

(** [blocks.erase(k)] *)
Fixpoint blocks_erase (k : Z) (blocks : Blocks) : Blocks :=
  match blocks with
  | [] => []
  | (k', v') :: blocks' =>
      if decide (k = k') then blocks' else (k', v') :: blocks_erase k blocks'
  end.

(** [blocks.upper_bound(k)]: the position of the first pair whose key is
    greater than [k]; the number of pairs when there is none. *)
Fixpoint upper_bound (k : Z) (blocks : Blocks) : nat :=
  match blocks with
  | [] => 0
  | (k', _) :: blocks' => if decide (k < k') then 0 else S (upper_bound k blocks')
  end.

(** The [while] loop of [transmit] that joins the block at [offset] with
    the blocks that start where it ends.  Every pass takes one block away,
    but for a block that has come to end where it starts, on which the
    loop does not end: [None] stands for that, and is what is returned
    when [fuel] runs out. *)
Fixpoint join_blocks (fuel : nat) (offset off_end : Z) (blocks : Blocks)
    : option Blocks :=
  match fuel with
  | O => None
  | S fuel' =>
      match blocks_find off_end blocks with
      | None => Some blocks
      | Some off_end' =>
          let blocks := blocks_erase off_end blocks in
          let blocks := blocks_set offset off_end' blocks in
          join_blocks fuel' offset off_end' blocks
      end
  end.

(** One pass of the first loop of [transmit]: the object [e] is added to
    the blocks. *)
Definition add_block (e : IndexEntry) (blocks : Blocks) : option Blocks :=
  let off_end := wrap32 (offset e + packed_size e) in
  if decide (packed_size e = 0) then Some blocks
  else if decide (length blocks = 0%nat) then Some (blocks_set (offset e) off_end blocks)
  else
    let offset' :=
      match upper_bound (offset e) blocks with
      | O => offset e
      | S it =>
          match blocks !! it with
          | Some (first, second) => if decide (second = offset e) then first else offset e
          | None => offset e
          end
      end in
    let blocks := blocks_set offset' off_end blocks in
    join_blocks (S (length blocks)) offset' off_end blocks.

(** The first loop of [transmit]. *)
Fixpoint find_blocks (objects : list IndexEntry) (blocks : Blocks) : option Blocks :=
  match objects with
  | [] => Some blocks
  | e :: objects' =>
      match add_block e blocks with
      | Some blocks => find_blocks objects' blocks
      | None => None
      end
  end.

(** The second loop of [transmit]: an info and a stored size for each
    object. *)
Fixpoint transmit_infos (objects : list IndexEntry) : bytes :=
  match objects with
  | [] => []
  | e :: objects' =>
      ObjectInfo_toString (info e) ++ writeInt32 (packed_size e) ++ transmit_infos objects'
  end.

(** The third loop of [transmit]: the bytes of each block are read from
    the file and written to the stream; an [ASSERT] fails when a block ends
    before it starts or the file ends before the block does. *)
Fixpoint transmit_blocks (file : bytes) (blocks : Blocks) : outcome bytes :=
  match blocks with
  | [] => Returned []
  | (first, second) :: blocks' =>
      if decide (second >= first) then
        let len := second - first in
        let buf := take (Z.to_nat len) (drop (Z.to_nat first) file) in
        if decide (Z.of_nat (length buf) = len) then
          match transmit_blocks file blocks' with
          | Returned out => Returned (buf ++ out)
          | Thrown => Thrown
          | Aborted => Aborted
          end
        else Aborted
      else Aborted
  end.

(** [Packfile::transmit]: the bytes written to the stream [bs], which is
    taken not to fail.  [None] when the loop over the blocks does not
    end. *)
Definition transmit (objects : list IndexEntry) (p : state) : option (outcome bytes) :=
  let objects := merge_sort offset_order objects in
  match find_blocks objects [] with
  | None => None
  | Some blocks =>
      Some match transmit_blocks (fd p) blocks with
           | Returned out =>
               Returned (writeInt32 (Z.of_nat (length objects))
                         ++ transmit_infos objects ++ out)
           | Thrown => Thrown
           | Aborted => Aborted
           end
  end.

(** The first loop of [receive]: the infos and sizes are read from the
    stream [bs], and the index is updated with each entry.  The second
    component is [None] when the stream ends early. *)
Fixpoint receive_headers (num : nat) (bs : bytes) (off : Z) (obj_sizes : list Z)
    (headers_ss : bytes) (w : World) : World * option (bytes * list Z * bytes) :=
  match num with
  | O => (w, Some (bs, obj_sizes, headers_ss))
  | S num' =>
      match readExact INFO_SIZE bs with
      | None => (w, None)
      | Some (info_str, bs) =>
          let info := ObjectInfo_fromString info_str in
          match stream_readInt bs with
          | None => (w, None)
          | Some (obj_size, bs) =>
              let obj_sizes := obj_sizes ++ [obj_size] in
              let headers_ss :=
                headers_ss ++ info_str ++ writeInt32 obj_size ++ writeInt32 off in
              let ie := {| info := info; offset := off; packed_size := obj_size;
                           packfile := packid (pf w) |} in
              let w := updateEntry (hash info) ie w in
              receive_headers num' bs (wrap32 (off + obj_size)) obj_sizes headers_ss w
          end
      end
  end.

(** The second loop of [receive]: the payloads are copied from the stream
    to the file. *)
Fixpoint receive_payloads (obj_sizes : list Z) (bs : bytes) (w : World)
    : World * option bytes :=
  match obj_sizes with
  | [] => (w, Some bs)
  | obj_size :: obj_sizes' =>
      match readExact (Z.to_nat obj_size) bs with
      | None => (w, None)
      | Some (data, bs) =>
          let w := sys_write data w in
          let w := add_fileSize obj_size w in
          let w := incr_numObjects w in
          receive_payloads obj_sizes' bs w
      end
  end.

(** [Packfile::receive] from a stream holding [bs]. *)
Definition receive (bs : bytes) (w : World) : World * outcome bool :=
  match stream_readInt bs with
  | None => (w, Thrown)
  | Some (num, bs) =>
      if decide (num = 0) then (w, Returned false)
      else
        let headers_size := wrap64 (num * ENTRYSIZE) in
        let off := wrap32 (fileSize (pf w) + NUMOBJS_SIZE + headers_size) in
        match receive_headers (Z.to_nat num) bs off [] (writeInt32 num) w with
        | (w, None) => (w, Thrown)
        | (w, Some (bs, obj_sizes, headers_ss)) =>
            let w := sys_write headers_ss w in
            let w := add_fileSize (Z.of_nat (length headers_ss)) w in
            match receive_payloads obj_sizes bs w with
            | (w, None) => (w, Thrown)
            | (w, Some _) => (w, Returned true)
            end
        end
  end.

(** [tr->infos.push_back] and [tr->payloads.push_back], as [purge] does
    them. *)
Definition push_info (i : ObjectInfo) (t : PfTransaction.state) : PfTransaction.state :=
  {| PfTransaction.infos := PfTransaction.infos t ++ [i];
     PfTransaction.payloads := PfTransaction.payloads t;
     PfTransaction.hashToIx := PfTransaction.hashToIx t;
     PfTransaction.totalSize := PfTransaction.totalSize t;
     PfTransaction.committed := PfTransaction.committed t |}.

Definition push_payload (p : bytes) (t : PfTransaction.state) : PfTransaction.state :=
  {| PfTransaction.infos := PfTransaction.infos t;
     PfTransaction.payloads := PfTransaction.payloads t ++ [p];
     PfTransaction.hashToIx := PfTransaction.hashToIx t;
     PfTransaction.totalSize := PfTransaction.totalSize t;
     PfTransaction.committed := PfTransaction.committed t |}.

(** The header loop of [purge], from index [i] on, over the unread part
    [fs] of the file; [None] when a read throws. *)
Fixpoint purge_headers (num i : nat) (hset : gset ObjectHash) (fs : bytes)
    (storedSizes : list Z) (skip : gset nat) (tr : PfTransaction.state)
    : option (bytes * list Z * gset nat * PfTransaction.state) :=
  match num with
  | O => Some (fs, storedSizes, skip, tr)
  | S num' =>
      match readExact INFO_SIZE fs with
      | None => None
      | Some (info_str, fs) =>
          let info := ObjectInfo_fromString info_str in
          match stream_readInt fs with
          | None => None
          | Some (ssize, fs) =>
              match stream_readInt fs with
              | None => None
              | Some (off, fs) =>
                  let storedSizes := <[i := ssize]> storedSizes in
                  if decide (hash info ∈ hset)
                  then purge_headers num' (S i) hset fs storedSizes ({[i]} ∪ skip) tr
                  else purge_headers num' (S i) hset fs storedSizes skip (push_info info tr)
              end
          end
      end
  end.

(** The payload loop of [purge].  [payload] is the buffer, which keeps
    what it held where [resize] does not cut it and a short [read] does
    not overwrite it. *)
Fixpoint purge_payloads (num i : nat) (fs : bytes) (storedSizes : list Z)
    (skip : gset nat) (payload : bytes) (tr : PfTransaction.state)
    : bytes * PfTransaction.state :=
  match num with
  | O => (fs, tr)
  | S num' =>
      let n := Z.to_nat (default 0 (storedSizes !! i)) in
      let payload := resize n Byte.x00 payload in
      let got := take n fs in
      let payload := got ++ drop (length got) payload in
      let fs := drop n fs in
      if decide (i ∈ skip)
      then purge_payloads num' (S i) fs storedSizes skip payload tr
      else purge_payloads num' (S i) fs storedSizes skip payload (push_payload payload tr)
  end.

(** The [while (!fs.ended())] loop of [purge]: it ends when no whole count
    is left to read, the exception of [readInt] being caught.  The outer
    [None] is only returned when [fuel] runs out; [Some None] is an
    exception leaving the header loop. *)
Fixpoint purge_scan (fuel : nat) (hset : gset ObjectHash) (fs : bytes)
    (storedSizes : list Z) (tr : PfTransaction.state)
    : option (option PfTransaction.state) :=
  match fuel with
  | O => None
  | S fuel' =>
      match stream_readInt fs with
      | None => Some (Some tr)
      | Some (num, fs) =>
          let storedSizes := resize (Z.to_nat num) 0 storedSizes in
          match purge_headers (Z.to_nat num) 0 hset fs storedSizes ∅ tr with
          | None => Some None
          | Some (fs, storedSizes, skip, tr) =>
              let '(fs, tr) :=
                purge_payloads (Z.to_nat num) 0 fs storedSizes skip [] tr in
              purge_scan fuel' hset fs storedSizes tr
          end
      end
  end.

(** [Packfile::purge].  [tmp] is what the file [filename + ".tmp"] holds
    when it is opened (nothing unless it was left behind); the descriptor
    is then that of this file, renamed over the pack.  Every pass of the
    scan consumes the four bytes of a count, so [S (length file)] passes
    are enough.  What the unwinding does when the scan throws is not
    modelled. *)
Definition purge (hset : gset ObjectHash) (tmp : bytes) (w : World)
    : option (World * outcome bool) :=
  let tr := begin in
  match purge_scan (S (length (fd (pf w)))) hset (fd (pf w)) [] tr with
  | None => None
  | Some None => Some (w, Thrown)
  | Some (Some tr) =>
      let w := {| pf := {| fd := tmp; filename := filename (pf w);
                           packid := packid (pf w); numObjects := numObjects (pf w);
                           fileSize := fileSize (pf w) |};
                  idx := idx w; trace := trace w |} in
      let empty := bool_decide (length (PfTransaction.payloads tr) = 0%nat) in
      match destroy tr w with
      | Some w => Some (w, Returned empty)
      | None => Some (w, Aborted)
      end
  end.

End Packfile.

(** ** The packfile manager ([PackfileManager]) *)

(** Modelled from the spec: the name of the free-list file under the root
    ("[<root>/<FREELIST>]"), the constant [PFMGR_FREELIST]. *)
Definition PFMGR_FREELIST : string := "freelist".

(** Modelled from the spec: [StrUtil_Basename], what follows the last
    slash of a path. *)
Fixpoint after_last_slash (s : string) : option string :=
  match s with
  | EmptyString => None
  | String c s' =>
      match after_last_slash s' with
      | Some b => Some b
      | None => if decide (c = "/"%char) then Some s' else None
      end
  end.

Definition StrUtil_Basename (s : string) : string :=
  match after_last_slash s with
  | Some b => b
  | None => s
  end.

(** [sscanf(path, "pack%u.pak", &id)]: the literal [pack], then the
    conversion [%u], which skips white space, takes an optional sign and
    reads decimal digits.  The call returns 1 as soon as the conversion has
    succeeded, whatever follows the digits.  A value that does not fit is
    clamped to [ULONG_MAX] as [strtoul] does, and stored in the 32 bits of
    [id]. *)
Fixpoint strip_prefix (p s : string) : option string :=
  match p, s with
  | EmptyString, _ => Some s
  | String a p', String b s' => if decide (a = b) then strip_prefix p' s' else None
  | String _ _, EmptyString => None
  end.

Definition is_space (c : Ascii.ascii) : bool :=
  bool_decide (c ∈ [" "%char; "009"%char; "010"%char; "011"%char; "012"%char; "013"%char]).

Fixpoint skip_spaces (s : string) : string :=
  match s with
  | String c s' => if is_space c then skip_spaces s' else s
  | EmptyString => s
  end.

Definition digit_value (c : Ascii.ascii) : option Z :=
  let n := Z.of_nat (Ascii.nat_of_ascii c) in
  if decide (48 ≤ n ≤ 57) then Some (n - 48) else None.

Fixpoint scan_digits (s : string) (acc : option Z) : option Z :=
  match s with
  | String c s' =>
      match digit_value c with
      | Some d => scan_digits s' (Some (10 * default 0 acc + d))
      | None => acc
      end
  | EmptyString => acc
  end.

Definition scan_unsigned (s : string) : option Z :=
  let s := skip_spaces s in
  let '(negative, s) :=
    match s with
    | String "-"%char s' => (true, s')
    | String "+"%char s' => (false, s')
    | _ => (false, s)
    end in
  match scan_digits s None with
  | Some v =>
      let v := Z.min v (2 ^ 64 - 1) in
      Some (wrap32 (if negative then - v else v))
  | None => None
  end.

Definition sscanf_pack (path : string) : option Z :=
  match strip_prefix "pack" path with
  | Some s => scan_unsigned s
  | None => None
  end.

Module PackfileManager.

(** The files under the root: their paths and contents. *)
Abbreviation FS := (gmap string bytes).

(** The object; the cache of open packs plays no part below and is left
    out. *)
Record state : Type := { rootPath : string; freeList : list Z }.

(** [_freeListCB] *)
Definition _freeListCB (existing : list Z) (cpath : string) : list Z :=
  match sscanf_pack (StrUtil_Basename cpath) with
  | Some id => existing ++ [id]
  | None => existing
  end.

(** Modelled from the spec: [Scan_Traverse], which calls back on every
    file under the root ("scan the root for files"), in an order that is
    not specified; here, the order of [map_to_list]. *)
Definition Scan_Traverse {A : Type} (root : string) (fs : FS) (ctx : A)
    (cb : A → string → A) : A :=
  foldl cb ctx (filter (λ path, is_Some (strip_prefix root path)) (map_to_list fs).*1).

(** The inner and the outer [while] loop of [_recomputeFreeList].
    [None] is only returned when [fuel] runs out; reading [existing] past
    its end gives 0. *)
Fixpoint recompute_inner (fuel : nat) (curr bound : Z) (freeList : list Z)
    : option (Z * list Z) :=
  match fuel with
  | O => None
  | S fuel' =>
      if decide (curr < bound)
      then recompute_inner fuel' (wrap32 (curr + 1)) bound (freeList ++ [curr])
      else Some (curr, freeList)
  end.

Fixpoint recompute_outer (fuel : nat) (existing : list Z) (curr : Z) (ix : nat)
    (freeList : list Z) : option (list Z) :=
  match fuel with
  | O => None
  | S fuel' =>
      if decide (curr < default 0 (last existing)) then
        match recompute_inner fuel curr (default 0 (existing !! ix)) freeList with
        | Some (curr, freeList) =>
            recompute_outer fuel' existing (wrap32 (curr + 1)) (S ix) freeList
        | None => None
        end
      else Some freeList
  end.

(** [_recomputeFreeList].  [curr] grows in every pass of either loop and
    stays below [existing.back()], which bounds the passes. *)
Definition _recomputeFreeList (root : string) (fs : FS) : option (list Z) :=
  let existing := Scan_Traverse root fs [] _freeListCB in
  let existing := merge_sort Z.le existing in
  match last existing with
  | Some back =>
      match recompute_outer (S (Z.to_nat back)) existing 0 0 [] with
      | Some freeList => Some (freeList ++ [wrap32 (back + 1)])
      | None => None
      end
  | None => Some [0]
  end.

(** The [for] loop of [_loadFreeList]; [None] on a read error. *)
Fixpoint load_entries (numEntries : nat) (fs : bytes) (freeList : list Z)
    : option (list Z) :=
  match numEntries with
  | O => Some freeList
  | S n =>
      match stream_readInt fs with
      | Some (id, fs) => load_entries n fs (freeList ++ [id])
      | None => None
      end
  end.

(** [_loadFreeList]; [None] when it returns [false]. *)
Definition _loadFreeList (root : string) (fs : FS) : option (list Z) :=
  match fs !! (root +:+ PFMGR_FREELIST) with
  | None => None
  | Some file =>
      match stream_readInt file with
      | Some (numEntries, file) => load_entries (Z.to_nat numEntries) file []
      | None => None
      end
  end.

(** [_writeFreeList] *)
Definition _writeFreeList (m : state) (fs : FS) : FS :=
  let ss := writeInt32 (Z.of_nat (length (freeList m)))
            ++ concat (map writeInt32 (freeList m)) in
  <[rootPath m +:+ PFMGR_FREELIST := ss]> fs.

(** [PackfileManager::PackfileManager]; [None] only when the fuel of
    [_recomputeFreeList] runs out. *)
Definition new (root : string) (fs : FS) : option (state * FS) :=
  match _loadFreeList root fs with
  | Some freeList => Some ({| rootPath := root; freeList := freeList |}, fs)
  | None =>
      match _recomputeFreeList root fs with
      | Some freeList =>
          let m := {| rootPath := root; freeList := freeList |} in
          Some (m, _writeFreeList m fs)
      | None => None
      end
  end.

(** [_getPackfileName] *)
Definition _getPackfileName (m : state) (id : Z) : string :=
  rootPath m +:+ "pack" +:+ pretty id +:+ ".pak".

(** [newPackfile]: the pack, the manager and the files afterwards;
    [None] when the [ASSERT] fails. *)
Definition newPackfile (m : state) (fs : FS) : option (Packfile.state * state * FS) :=
  match freeList m with
  | [] => None
  | id :: rest =>
      let name := _getPackfileName m id in
      let file := default [] (fs !! name) in
      let pf := Packfile.new file name id in
      let fs := <[name := file]> fs in
      let freeList' :=
        match rest with
        | [] => [wrap32 (id + 1)]
        | _ :: _ => rest
        end in
      Some (pf, {| rootPath := rootPath m; freeList := freeList' |}, fs)
  end.

End PackfileManager.

(** The ids of the packs that [n] successive calls of [newPackfile] return,
    with the manager and the files after them. *)
Fixpoint newPackfiles (n : nat) (m : PackfileManager.state) (fs : PackfileManager.FS)
    : option (list Z * PackfileManager.state * PackfileManager.FS) :=
  match n with
  | O => Some ([], m, fs)
  | S n' =>
      match PackfileManager.newPackfile m fs with
      | Some (pf, m, fs) =>
          match newPackfiles n' m fs with
          | Some (ids, m, fs) => Some (Packfile.packid pf :: ids, m, fs)
          | None => None
          end
      | None => None
      end
  end.

(** ** Notions used to state the properties *)

(** *** The metadata log *)

(** The width of a record of the log: a hash and a reference count. *)
Definition RECORD_SIZE : Z := Z.of_nat HASH_SIZE + Z.of_nat REFCOUNT_SIZE.

(** What is left of a file where the scan stops on a torn entry: a count
    field, whole or cut short, announcing more records than follow. *)
Definition torn (junk tail : bytes) : Prop :=
  tail ≠ [] ∧ readInt32 (tail ++ junk) * RECORD_SIZE + 4 > Z.of_nat (length tail).

(** The records [commit] writes for the pairs [its] of a transaction,
    starting from the map [m]. *)
Fixpoint commit_records (its : list (ObjectHash * Z)) (m : RefcountMap) : log_entry :=
  match its with
  | [] => []
  | (h, delta) :: its' =>
      let final_count := wrap32 (default 0 (m !! h) + delta) in
      (h, final_count) :: commit_records its' (<[h := final_count]> m)
  end.

(** A transaction [commit] accepts: its size fits the [uint32_t] count and
    it names no empty hash. *)
Definition tr_ok (tr : MdTransaction) : Prop :=
  Z.of_nat (size (counts tr)) < 2 ^ 32
  ∧ ∀ h, h ∈ dom (counts tr) → isEmpty h = false.

(** The entry a transaction appends, nothing when it is empty. *)
Definition commit_entry (tr : MdTransaction) (m : RefcountMap) : list log_entry :=
  if decide (size (counts tr) = 0%nat) then []
  else [commit_records (map_to_list (counts tr)) m].

(** The state of a log whose file is a run of complete entries and whose
    map is what loading them gives. *)
Definition log_inv (log : MetadataLog.state) : Prop :=
  ∃ es : list log_entry,
    Forall entry_ok es ∧ MetadataLog.fd log = log_bytes es
    ∧ MetadataLog.refcounts log = replay es ∅.

(** *** Packfiles *)

(** The number of bytes of a sequence of payloads. *)
Definition total_length (ps : list bytes) : Z := Z.of_nat (length (concat ps)).

(** The index entries of a group whose first payload lies at [off]. *)
Fixpoint group_entries (id off : Z) (infos : list ObjectInfo) (payloads : list bytes)
    : list IndexEntry :=
  match infos, payloads with
  | i :: infos', p :: payloads' =>
      {| info := i; offset := off; packed_size := wrap32 (Z.of_nat (length p));
         packfile := id |}
      :: group_entries id (wrap32 (off + Z.of_nat (length p))) infos' payloads'
  | _, _ => []
  end.

(** The effects of the second loop of [commit]: for each object, the write
    of its payload, then the update of the index. *)
Fixpoint group_events (payloads : list bytes) (entries : list IndexEntry)
    : list Packfile.Event :=
  match payloads, entries with
  | p :: payloads', e :: entries' =>
      Packfile.EvWrite p :: Packfile.EvUpdateEntry (hash (info e)) e
      :: group_events payloads' entries'
  | _, _ => []
  end.

(** The index after [updateEntry] on each of the entries [es], in order. *)
Definition index_all (m : Index) (es : list IndexEntry) : Index :=
  foldl (λ m e, <[hash (info e) := e]> m) m es.

(** The header block [commit] writes. *)
Definition header_block (t : PfTransaction.state) (w : Packfile.World) : bytes :=
  writeInt32 (Z.of_nat (length (PfTransaction.infos t)))
  ++ (Packfile.commit_headers (PfTransaction.infos t) (PfTransaction.payloads t)
        (wrap32 (Packfile.fileSize (Packfile.pf w) + NUMOBJS_SIZE
                 + wrap64 (Z.of_nat (length (PfTransaction.infos t)) * ENTRYSIZE)))).1.

(** The entries [commit] gives to the index. *)
Definition commit_entries (t : PfTransaction.state) (w : Packfile.World) : list IndexEntry :=
  group_entries (Packfile.packid (Packfile.pf w))
    (wrap32 (Packfile.fileSize (Packfile.pf w) + NUMOBJS_SIZE
             + wrap64 (Z.of_nat (length (PfTransaction.infos t)) * ENTRYSIZE)))
    (PfTransaction.infos t) (PfTransaction.payloads t).

(** [t->committed = true] *)
Definition mark_committed (t : PfTransaction.state) : PfTransaction.state :=
  {| PfTransaction.infos := PfTransaction.infos t;
     PfTransaction.payloads := PfTransaction.payloads t;
     PfTransaction.hashToIx := PfTransaction.hashToIx t;
     PfTransaction.totalSize := PfTransaction.totalSize t;
     PfTransaction.committed := true |}.

(** Staging the objects [objs], in order, by [addPayload]. *)
Definition stage (tn : Tuneables) (zip : Zip) (objs : list (ObjectInfo * bytes))
    (t : PfTransaction.state) : PfTransaction.state :=
  foldl (λ t o, PfTransaction.addPayload tn zip o.1 o.2 t) t objs.

(** The info and the bytes [addPayload] stores for an object. *)
Definition stored_info (tn : Tuneables) (zip : Zip) (o : ObjectInfo * bytes) : ObjectInfo :=
  if PfTransaction.compresses tn zip o.2 then PfTransaction.mark_compressed o.1 else o.1.

Definition stored_payload (tn : Tuneables) (zip : Zip) (o : ObjectInfo * bytes) : bytes :=
  if PfTransaction.compresses tn zip o.2 then zip_compress zip o.2 else o.2.

(** C3 as the specification words it: every index update comes after every
    write of the operation. *)
Definition updates_after_all_writes (ev : list Packfile.Event) : Prop :=
  ∀ (j j' : nat) (h : ObjectHash) (e : IndexEntry) (data : bytes),
    ev !! j = Some (Packfile.EvUpdateEntry h e) →
    ev !! j' = Some (Packfile.EvWrite data) → (j' < j)%nat.

(** The two kinds of effects. *)
Definition is_update (ev : Packfile.Event) : Prop :=
  match ev with Packfile.EvUpdateEntry _ _ => True | Packfile.EvWrite _ => False end.

Definition is_write (ev : Packfile.Event) : Prop :=
  match ev with Packfile.EvWrite _ => True | Packfile.EvUpdateEntry _ _ => False end.

(** An object is reachable via the index when [lookup] finds an entry for
    its hash and [getPayload] gives a stream for that entry. *)
Definition reachable (tn : Tuneables) (zip : Zip) (w : Packfile.World) (h : ObjectHash)
    : Prop :=
  ∃ e : IndexEntry,
    Packfile.idx w !! h = Some e
    ∧ is_Some (Packfile.getPayload tn zip e (Packfile.pf w)).

(** A transaction that holds no object of [hset]. *)
Definition keeps_none_of (hset : gset ObjectHash) (t : PfTransaction.state) : Prop :=
  Forall (λ i, hash i ∉ hset) (PfTransaction.infos t).

(** *** The packfile manager *)

(** The ids C8 expects of [n] successive calls: 1, then 3, 4, 5, ... *)
Definition expected_ids (n : nat) : list Z :=
  match n with
  | O => []
  | S k => 1 :: seqZ 3 (Z.of_nat k)
  end.

(** ** Sample values *)

(** The hash whose bytes all are [b]. *)
Definition sample_hash (b : byte) : ObjectHash := mkHash (replicate HASH_SIZE b) I.

(** A log holding one reference to one object. *)
Definition one_ref_log : MetadataLog.state :=
  {| MetadataLog.fd := entry_bytes [(sample_hash Byte.x01, 1)];
     MetadataLog.refcounts := {[ sample_hash Byte.x01 := 1 ]} |}.

(** The info of a blob of [size] bytes whose hash is [sample_hash b]. *)
Definition sample_info (b : byte) (size : Z) : ObjectInfo :=
  {| type := Blob; flags := 0; payload_size := size; hash := sample_hash b |}.

(** The five bytes of "hello". *)
Definition hello : bytes := [Byte.x68; Byte.x65; Byte.x6c; Byte.x6c; Byte.x6f].

(** A codec that marks what it compresses with one leading byte; it gives
    back every input from its compressed bytes, and always passes the
    admission test. *)
Definition tag_zip : Zip :=
  {| zip_compress := λ b, Byte.x01 :: b;
     zip_decompress := λ b _, drop 1 b;
     zip_compcheck := λ _, true |}.

(** Tunables with the typical limits of the specification. *)
Definition tuneables (enable : bool) (minimum : Z) : Tuneables :=
  {| ENABLE_COMPRESSION := enable; ZIP_MINIMUM_SIZE := minimum;
     PACKFILE_MAXOBJS := 4096; PACKFILE_MAXSIZE := 268435456 |}.

(** A pack just made, with an index that knows nothing. *)
Definition fresh_world (name : string) (id : Z) : Packfile.World :=
  {| Packfile.pf := Packfile.new [] name id; Packfile.idx := ∅; Packfile.trace := [] |}.

(** Two objects staged in one transaction. *)
Definition two_objects : PfTransaction.state :=
  stage (tuneables false 512) tag_zip
    [(sample_info Byte.x01 1, [Byte.x61]); (sample_info Byte.x02 2, [Byte.x62; Byte.x62])]
    Packfile.begin.

(** The stream [transmit] sends for one object, "hello". *)
Definition one_object_stream : bytes :=
  writeInt32 1 ++ ObjectInfo_toString (sample_info Byte.x01 5) ++ writeInt32 5 ++ hello.

(** A pack holding two objects in one group, the payload of the second one
    ending with the bytes of the first. *)
Definition two_object_pack : Packfile.World :=
  match Packfile.commit
          (stage (tuneables false 512) tag_zip
             [(sample_info Byte.x01 5, hello);
              (sample_info Byte.x02 61, replicate 56 Byte.x00 ++ hello)]
             Packfile.begin)
          (fresh_world "pack0.pak" 0) with
  | Some (_, w) => w
  | None => fresh_world "pack0.pak" 0
  end.

(** The pack [purge] makes of [two_object_pack] when told to drop the first
    object. *)
Definition purged_pack : Packfile.World :=
  match Packfile.purge {[ sample_hash Byte.x01 ]} [] two_object_pack with
  | Some (w, _) => w
  | None => two_object_pack
  end.

(** A pack directory holding [pack0.pak] and [pack2.pak], and no free-list
    file. *)
Definition two_pack_dir (c0 c2 : bytes) : PackfileManager.FS :=
  {[ "/repo/pack0.pak"%string := c0; "/repo/pack2.pak"%string := c2 ]}.

(** *** Notions for the further properties *)

(** [addRef(h, tr)] for each hash of [hs] in turn, on the transaction
    [tr]. *)
Fixpoint addRefs (hs : list ObjectHash) (tr : MdTransaction) (log : MetadataLog.state)
    : option (MdTransaction * MetadataLog.state) :=
  match hs with
  | [] => Some (tr, log)
  | h :: hs' =>
      match MetadataLog.addRef h (Some tr) log with
      | Some (Some tr', log') => addRefs hs' tr' log'
      | _ => None
      end
  end.

(** The number of times [h] occurs in [hs]. *)
Definition occurrences (h : ObjectHash) (hs : list ObjectHash) : Z :=
  Z.of_nat (length (filter (λ h', h' = h) hs)).

(** What [hashToIx] says of the staged infos: a hash it does not know is
    the hash of none of them, and the index it gives for a hash is that of
    the last info with this hash. *)
Definition ix_inv (t : PfTransaction.state) : Prop :=
  ∀ h : ObjectHash,
    match PfTransaction.hashToIx t !! h with
    | None => Forall (λ i, hash i ≠ h) (PfTransaction.infos t)
    | Some k =>
        0 ≤ k
        ∧ (∃ i, PfTransaction.infos t !! Z.to_nat k = Some i ∧ hash i = h)
        ∧ Forall (λ i, hash i ≠ h) (drop (S (Z.to_nat k)) (PfTransaction.infos t))
    end.

(** An info whose fields fit the widths of its serialized form. *)
Definition info_ok (i : ObjectInfo) : Prop :=
  0 ≤ flags i < 2 ^ 32 ∧ 0 ≤ payload_size i < 2 ^ 64.

(** The stream that carries a batch of objects from one pack to another:
    the count, an info and a stored size for each object, then the stored
    bytes of each (what [transmit] writes and [receive] reads). *)
Fixpoint wire_headers (infos : list ObjectInfo) (payloads : list bytes) : bytes :=
  match infos, payloads with
  | i :: infos', p :: payloads' =>
      ObjectInfo_toString i ++ writeInt32 (Z.of_nat (length p))
      ++ wire_headers infos' payloads'
  | _, _ => []
  end.

Definition wire_stream (infos : list ObjectInfo) (payloads : list bytes) : bytes :=
  writeInt32 (Z.of_nat (length infos)) ++ wire_headers infos payloads ++ concat payloads.

(** A transaction holding the given infos and stored bytes. *)
Definition batch (infos : list ObjectInfo) (payloads : list bytes) : PfTransaction.state :=
  {| PfTransaction.infos := infos; PfTransaction.payloads := payloads;
     PfTransaction.hashToIx := ∅; PfTransaction.totalSize := total_length payloads;
     PfTransaction.committed := false |}.

(** The bytes of a group of objects as [commit] writes it, [g.2] being the
    offset of its first payload: the count, a header for each object, the
    stored bytes. *)
Definition group_bytes (g : list (ObjectInfo * bytes) * Z) : bytes :=
  writeInt32 (Z.of_nat (length g.1))
  ++ (Packfile.commit_headers g.1.*1 g.1.*2 g.2).1 ++ concat g.1.*2.

(** A pack file: a run of groups. *)
Definition pack_bytes (gs : list (list (ObjectInfo * bytes) * Z)) : bytes :=
  concat (map group_bytes gs).

(** Objects that fit a group: their number, their infos and their stored
    sizes fit the fields of the file. *)
Definition group_ok (objs : list (ObjectInfo * bytes)) : Prop :=
  Z.of_nat (length objs) < 2 ^ 32
  ∧ Forall (λ o, info_ok o.1 ∧ Z.of_nat (length o.2) < 2 ^ 32) objs.

(** The objects [purge] keeps: those whose hash is not in [hset]. *)
Definition kept (hset : gset ObjectHash) (objs : list (ObjectInfo * bytes))
    : list (ObjectInfo * bytes) :=
  filter (λ o, hash o.1 ∉ hset) objs.

(** Entries that lie in a file of [size] bytes one after another, from
    [lo] on, none reaching into the next. *)
Fixpoint in_order (lo size : Z) (objs : list IndexEntry) : Prop :=
  match objs with
  | [] => lo ≤ size
  | e :: objs' =>
      lo ≤ offset e ∧ 0 ≤ packed_size e
      ∧ in_order (offset e + packed_size e) size objs'
  end.

(** The stored bytes of an entry in [file]. *)
Definition stored (file : bytes) (e : IndexEntry) : bytes :=
  Packfile.fdstream file (offset e) (packed_size e).

(** The bytes of the blocks of [file], in order. *)
Definition block_bytes (file : bytes) (blocks : Packfile.Blocks) : bytes :=
  concat (map (λ kv, Packfile.fdstream file kv.1 (kv.2 - kv.1)) blocks).

(** Blocks that lie below [hi] one after another, none empty, none
    reaching into the next. *)
Definition blocks_inv (hi : Z) (blocks : Packfile.Blocks) : Prop :=
  StronglySorted (λ x y, x.2 ≤ y.1) blocks
  ∧ Forall (λ kv, 0 ≤ kv.1 ∧ kv.1 < kv.2 ∧ kv.2 ≤ hi) blocks.

(** A commit for each batch of objects, one after the other; [None] when
    an assertion fails. *)
Fixpoint commit_batches (bs : list (list (ObjectInfo * bytes))) (w : Packfile.World)
    : option Packfile.World :=
  match bs with
  | [] => Some w
  | b :: bs' =>
      match Packfile.commit (batch b.*1 b.*2) w with
      | Some (_, w') => commit_batches bs' w'
      | None => None
      end
  end.

(** A pack whose [fileSize] is the size of its file and whose entries in
    the index lie within the file. *)
Definition index_sound (w : Packfile.World) : Prop :=
  Packfile.fileSize (Packfile.pf w) = Z.of_nat (length (Packfile.fd (Packfile.pf w)))
  ∧ ∀ (h : ObjectHash) (e : IndexEntry),
      Packfile.idx w !! h = Some e →
      packfile e = Packfile.packid (Packfile.pf w) →
      0 ≤ offset e ∧ 0 ≤ packed_size e
      ∧ offset e + packed_size e ≤ Packfile.fileSize (Packfile.pf w).

(* ===================================================================== *)
(** * Part II: properties *)
(* ===================================================================== *)

(** The widths of the two formats, made plain for [lia]. *)
Ltac log_widths := unfold RECORD_SIZE, HASH_SIZE, REFCOUNT_SIZE in *.
Ltac pack_widths := unfold NUMOBJS_SIZE, ENTRYSIZE, INFO_SIZE in *.

(** ** Fixed-width integers *)

Lemma writeInt32_length (z : Z) : length (writeInt32 z) = 4%nat.
Proof. apply length_le_split. Qed.

Lemma readInt32_writeInt32 (z : Z) (rest : bytes) :
  readInt32 (writeInt32 z ++ rest) = wrap32 z.
Proof.
  unfold readInt32. rewrite take_app_length' by (by rewrite writeInt32_length).
  unfold writeInt32. rewrite le_combine_split. reflexivity.
Qed.

Lemma readInt32_range (bs : bytes) : 0 ≤ readInt32 bs < 2 ^ 32.
Proof.
  unfold readInt32. pose proof (le_combine_bound (take 4 bs)) as Hb.
  assert (Hl : (length (take 4 bs) ≤ 4)%nat) by (rewrite length_take; lia).
  assert (2 ^ (8 * Z.of_nat (length (take 4 bs))) ≤ 2 ^ 32).
  { apply Z.pow_le_mono_r; lia. }
  lia.
Qed.

Lemma writeInt32_readInt32 (bs : bytes) :
  length bs = 4%nat → writeInt32 (readInt32 bs) = bs.
Proof.
  intros Hl. unfold readInt32, writeInt32. rewrite take_ge by lia.
  rewrite <- Hl at 1. apply split_le_combine.
Qed.

Lemma wrap32_small (z : Z) : 0 ≤ z < 2 ^ 32 → wrap32 z = z.
Proof. intros. unfold wrap32. apply Z.mod_small. lia. Qed.

Lemma wrap64_small (z : Z) : 0 ≤ z < 2 ^ 64 → wrap64 z = z.
Proof. intros. unfold wrap64. apply Z.mod_small. lia. Qed.

Lemma hash_data_length (h : ObjectHash) : length (hash_data h) = HASH_SIZE.
Proof. exact (bool_decide_unpack _ (hash_width h)). Qed.

Lemma hash_of_read_app (h : ObjectHash) (rest : bytes) :
  hash_of_read (take HASH_SIZE (hash_data h ++ rest)) = h.
Proof.
  rewrite take_app_length' by (by rewrite hash_data_length). apply hash_of_read_data.
Qed.

(** ** The metadata log: reading back what was written *)

Lemma record_bytes_length (r : ObjectHash * Z) :
  Z.of_nat (length (record_bytes r)) = RECORD_SIZE.
Proof.
  unfold record_bytes, RECORD_SIZE. rewrite length_app, hash_data_length, writeInt32_length.
  reflexivity.
Qed.

Lemma records_bytes_cons (r : ObjectHash * Z) (e : log_entry) :
  records_bytes (r :: e) = hash_data r.1 ++ writeInt32 r.2 ++ records_bytes e.
Proof. unfold records_bytes, record_bytes. simpl. by rewrite <- app_assoc. Qed.

Lemma records_bytes_length (e : log_entry) :
  Z.of_nat (length (records_bytes e)) = RECORD_SIZE * Z.of_nat (length e).
Proof.
  induction e as [| r e IH]; [reflexivity |].
  rewrite records_bytes_cons, !length_app, hash_data_length, writeInt32_length.
  cbn [length]. log_widths. lia.
Qed.

Lemma entry_bytes_length (e : log_entry) :
  Z.of_nat (length (entry_bytes e)) = 4 + RECORD_SIZE * Z.of_nat (length e).
Proof.
  unfold entry_bytes. rewrite length_app, writeInt32_length, Nat2Z.inj_add, records_bytes_length.
  lia.
Qed.

Lemma log_bytes_cons (e : log_entry) (es : list log_entry) :
  log_bytes (e :: es) = entry_bytes e ++ log_bytes es.
Proof. reflexivity. Qed.

Lemma log_bytes_app (es1 es2 : list log_entry) :
  log_bytes (es1 ++ es2) = log_bytes es1 ++ log_bytes es2.
Proof. unfold log_bytes. by rewrite map_app, concat_app. Qed.

Section Open.

(** What the uninitialised variables of [open] hold. *)
Variable junk : bytes.

Lemma read_records_bytes (e : log_entry) :
  ∀ (rest : bytes) (m : RefcountMap) (readSoFar : Z),
    Forall (λ r, 0 ≤ r.2 < 2 ^ 32) e →
    0 ≤ readSoFar →
    readSoFar + RECORD_SIZE * Z.of_nat (length e) < 2 ^ 64 →
    MetadataLog.read_records (length e) junk (records_bytes e ++ rest) m readSoFar
    = (rest, replay_entry m e, readSoFar + RECORD_SIZE * Z.of_nat (length e)).
Proof.
  induction e as [| [h c] e IH]; intros rest m readSoFar Hok Hpos Hlt.
  - simpl. f_equal. lia.
  - apply Forall_cons in Hok as [Hc Hok]. simpl in Hc.
    rewrite records_bytes_cons. cbn [length MetadataLog.read_records fst snd].
    rewrite <- !app_assoc.
    rewrite take_app_length' by (by rewrite hash_data_length).
    rewrite drop_app_length' by (by rewrite hash_data_length).
    rewrite hash_of_read_data.
    rewrite <- app_assoc, readInt32_writeInt32, (wrap32_small c) by lia.
    rewrite drop_app_length' by (by rewrite writeInt32_length).
    cbn [length] in Hlt. log_widths.
    rewrite wrap64_small by lia.
    rewrite IH; [| done | lia | lia].
    cbn [replay_entry foldl fst snd length]. f_equal. lia.
Qed.

Lemma entry_ok_count (e : log_entry) :
  entry_ok e → wrap32 (Z.of_nat (length e)) = Z.of_nat (length e).
Proof. intros [Hn _]. apply wrap32_small. lia. Qed.

(** A pass of the loop of [open] over a complete entry. *)
Lemma open_loop_entry (st_size : Z) (e : log_entry) (fuel : nat)
    (rest : bytes) (readSoFar : Z) (m : RefcountMap) :
  entry_ok e →
  0 ≤ readSoFar →
  readSoFar + Z.of_nat (length (entry_bytes e)) ≤ st_size →
  st_size < 2 ^ 64 →
  MetadataLog.open_loop (S fuel) junk st_size (entry_bytes e ++ rest) readSoFar m
  = MetadataLog.open_loop fuel junk st_size rest
      (readSoFar + Z.of_nat (length (entry_bytes e))) (replay_entry m e).
Proof.
  intros Hok Hpos Hfit Hsz.
  pose proof (entry_ok_count e Hok) as Hcnt. destruct Hok as [Hn Hrs].
  rewrite entry_bytes_length in *.
  cbn [MetadataLog.open_loop].
  assert (Hl4 : length (take 4 (entry_bytes e ++ rest)) = 4%nat).
  { rewrite length_take, length_app. unfold entry_bytes.
    rewrite length_app, writeInt32_length. lia. }
  rewrite Hl4. destruct (decide (4%nat = 0%nat)) as [? | _]; [lia |].
  assert (Heq : entry_bytes e ++ rest
                = writeInt32 (Z.of_nat (length e)) ++ records_bytes e ++ rest).
  { unfold entry_bytes. by rewrite <- app_assoc. }
  rewrite Heq, <- (app_assoc (writeInt32 _)), readInt32_writeInt32, Hcnt.
  rewrite drop_app_length' by (by rewrite writeInt32_length).
  log_widths.
  rewrite (wrap64_small (readSoFar + 4)) by lia.
  rewrite wrap64_small by lia.
  destruct (decide _) as [Hgt | _]; [lia |].
  rewrite Nat2Z.id.
  rewrite read_records_bytes; log_widths; [| done | lia | lia].
  f_equal. lia.
Qed.

(** The loop of [open] over a run of complete entries. *)
Lemma open_loop_log (st_size : Z) (es : list log_entry) :
  ∀ (fuel : nat) (tail : bytes) (readSoFar : Z) (m : RefcountMap),
    Forall entry_ok es →
    0 ≤ readSoFar →
    readSoFar + Z.of_nat (length (log_bytes es)) ≤ st_size →
    st_size < 2 ^ 64 →
    MetadataLog.open_loop (length es + fuel) junk st_size (log_bytes es ++ tail) readSoFar m
    = MetadataLog.open_loop fuel junk st_size tail
        (readSoFar + Z.of_nat (length (log_bytes es))) (replay es m).
Proof.
  induction es as [| e es IH]; intros fuel tail readSoFar m Hok Hpos Hfit Hsz.
  - simpl. f_equal. lia.
  - apply Forall_cons in Hok as [He Hes].
    rewrite log_bytes_cons, length_app, Nat2Z.inj_add in Hfit.
    rewrite log_bytes_cons, <- app_assoc. cbn [length Nat.add].
    rewrite open_loop_entry by (done || lia).
    rewrite IH by (done || lia).
    cbn [replay foldl]. f_equal. rewrite length_app. lia.
Qed.

Lemma open_loop_eof (st_size : Z) (fuel : nat) (readSoFar : Z)
    (m : RefcountMap) :
  MetadataLog.open_loop (S fuel) junk st_size [] readSoFar m = Some (true, m).
Proof. reflexivity. Qed.

Lemma open_loop_torn (st_size : Z) (fuel : nat) (tail : bytes)
    (readSoFar : Z) (m : RefcountMap) :
  tail ≠ [] →
  0 ≤ readSoFar →
  readInt32 (tail ++ junk) * RECORD_SIZE + (readSoFar + 4) > st_size →
  st_size < 2 ^ 63 →
  readSoFar ≤ st_size →
  MetadataLog.open_loop (S fuel) junk st_size tail readSoFar m = Some (false, m).
Proof.
  intros Hne Hpos Hgt Hsz Hle. cbn [MetadataLog.open_loop].
  destruct (decide _) as [Hz | _].
  { destruct tail; [done | simpl in Hz; lia]. }
  pose proof (readInt32_range (tail ++ junk)) as Hr.
  log_widths.
  rewrite (wrap64_small (readSoFar + 4)) by lia.
  rewrite wrap64_small by lia.
  destruct (decide _) as [_ | Hn]; [done | lia].
Qed.

Lemma bytes_as_records (n : nat) :
  ∀ bs : bytes, Z.of_nat (length bs) = RECORD_SIZE * Z.of_nat n →
    ∃ e : log_entry, length e = n ∧ records_bytes e = bs
                     ∧ Forall (λ r, 0 ≤ r.2 < 2 ^ 32) e.
Proof.
  log_widths.
  induction n as [| n IH]; intros bs Hl.
  - exists []. destruct bs; [done | simpl in Hl; lia].
  - destruct (IH (drop 36 bs)) as (e & Hle & Hbs & Hok).
    { rewrite length_drop. lia. }
    exists ((hash_of_read (take 32 bs), readInt32 (take 4 (drop 32 bs))) :: e).
    split; [simpl; lia |]. split.
    + rewrite records_bytes_cons, Hbs. cbn [fst snd hash_of_read hash_data].
      rewrite take_app_le by (rewrite length_take; unfold HASH_SIZE; lia).
      rewrite (take_ge (take 32 bs)) by (rewrite length_take; unfold HASH_SIZE; lia).
      rewrite writeInt32_readInt32 by (rewrite length_take, length_drop; lia).
      rewrite <- (take_drop 32 bs) at 4. f_equal.
      rewrite <- (take_drop 4 (drop 32 bs)) at 2. f_equal.
      by rewrite drop_drop.
    + constructor; [apply readInt32_range | done].
Qed.

(** Every file is a run of complete entries followed by nothing or by a
    torn one. *)
Lemma log_decompose (n : nat) :
  ∀ rest : bytes, (length rest ≤ n)%nat →
    ∃ (es : list log_entry) (tail : bytes),
      rest = log_bytes es ++ tail ∧ Forall entry_ok es ∧ (tail = [] ∨ torn junk tail).
Proof.
  induction n as [| n IH]; intros rest Hn.
  - exists [], []. destruct rest; [| simpl in Hn; lia]. by intuition.
  - destruct (decide (rest = [])) as [-> | Hne].
    { exists [], []. by intuition. }
    destruct (decide (readInt32 (rest ++ junk) * RECORD_SIZE + 4 > Z.of_nat (length rest)))
      as [Hgt | Hfit].
    { exists [], rest. split; [done |]. split; [constructor |]. right. by split. }
    pose proof (readInt32_range (rest ++ junk)) as Hr.
    set (num := readInt32 (rest ++ junk)) in *.
    assert (H4 : (4 ≤ length rest)%nat).
    { log_widths. lia. }
    assert (Hnum : num = readInt32 (take 4 rest)).
    { unfold num, readInt32. by rewrite take_app_le, take_take by lia. }
    clearbody num.
    destruct (bytes_as_records (Z.to_nat num) (take (Z.to_nat (RECORD_SIZE * num)) (drop 4 rest)))
      as (e & Hle & Hbs & Hok).
    { rewrite length_take, length_drop.
      log_widths. lia. }
    destruct (IH (drop (Z.to_nat (RECORD_SIZE * num)) (drop 4 rest))) as (es & tail & Hrest & Hes & Htail).
    { rewrite !length_drop. lia. }
    exists (e :: es), tail. split; [| split; [| done]].
    + rewrite log_bytes_cons, <- app_assoc, <- Hrest. unfold entry_bytes.
      rewrite Hle, Z2Nat.id, Hbs by lia. rewrite Hnum at 1.
      rewrite writeInt32_readInt32 by (rewrite length_take; lia).
      by rewrite <- app_assoc, !take_drop.
    + constructor; [| done]. split; [lia | done].
Qed.

Lemma log_bytes_entries (es : list log_entry) :
  (length es ≤ length (log_bytes es))%nat.
Proof.
  induction es as [| e es IH]; [simpl; lia |].
  rewrite log_bytes_cons, length_app. unfold entry_bytes.
  rewrite length_app, writeInt32_length. simpl. lia.
Qed.

(** [open] on a run of complete entries followed by [tail]. *)
Lemma open_log_tail (es : list log_entry) (tail : bytes) :
  Forall entry_ok es →
  Z.of_nat (length (log_bytes es ++ tail)) < 2 ^ 63 →
  MetadataLog.open junk (log_bytes es ++ tail)
  = match MetadataLog.open_loop (S (length tail + (length (log_bytes es) - length es)))
            junk (Z.of_nat (length (log_bytes es ++ tail))) tail
            (Z.of_nat (length (log_bytes es))) (replay es ∅) with
    | Some (ok, m) => Some (ok, {| MetadataLog.fd := log_bytes es ++ tail;
                                   MetadataLog.refcounts := m |})
    | None => None
    end.
Proof.
  intros Hok Hsz. unfold MetadataLog.open.
  pose proof (log_bytes_entries es) as Hle.
  replace (S (length (log_bytes es ++ tail)))
    with (length es + S (length tail + (length (log_bytes es) - length es)))%nat
    by (rewrite length_app; lia).
  rewrite open_loop_log; [done | done | lia | | lia].
  rewrite length_app. lia.
Qed.

Lemma open_clean (es : list log_entry) :
  Forall entry_ok es →
  Z.of_nat (length (log_bytes es)) < 2 ^ 63 →
  MetadataLog.open junk (log_bytes es)
  = Some (true, {| MetadataLog.fd := log_bytes es; MetadataLog.refcounts := replay es ∅ |}).
Proof.
  intros Hok Hsz. rewrite <- (app_nil_r (log_bytes es)) at 1.
  rewrite open_log_tail by (by rewrite ?app_nil_r).
  by rewrite open_loop_eof, app_nil_r.
Qed.

Lemma open_torn (es : list log_entry) (tail : bytes) :
  Forall entry_ok es →
  Z.of_nat (length (log_bytes es ++ tail)) < 2 ^ 63 →
  torn junk tail →
  MetadataLog.open junk (log_bytes es ++ tail)
  = Some (false, {| MetadataLog.fd := log_bytes es ++ tail;
                    MetadataLog.refcounts := replay es ∅ |}).
Proof.
  intros Hok Hsz [Hne Hgt]. rewrite open_log_tail by done.
  rewrite open_loop_torn; [done | done | lia | | done |]; rewrite length_app; lia.
Qed.

Lemma torn_not_clean (es es' : list log_entry) (tail : bytes) :
  Forall entry_ok es → Forall entry_ok es' →
  Z.of_nat (length (log_bytes es ++ tail)) < 2 ^ 63 →
  torn junk tail → log_bytes es ++ tail ≠ log_bytes es'.
Proof.
  intros Hes Hes' Hsz Ht Heq.
  pose proof (open_torn es tail Hes Hsz Ht) as H1.
  rewrite Heq in H1, Hsz. rewrite open_clean in H1 by done. done.
Qed.

(** A file [open] accepts is a run of complete entries, and the map is
    what loading them gives. *)
Lemma open_true_clean (file : bytes) (log : MetadataLog.state) :
  Z.of_nat (length file) < 2 ^ 63 →
  MetadataLog.open junk file = Some (true, log) →
  ∃ es : list log_entry,
    Forall entry_ok es ∧ file = log_bytes es ∧ MetadataLog.refcounts log = replay es ∅.
Proof.
  intros Hsz Hopen.
  destruct (log_decompose (length file) file (le_n _))
    as (es & tail & Hfile & Hes & [-> | Ht]).
  - rewrite app_nil_r in Hfile. subst file. rewrite open_clean in Hopen by done.
    injection Hopen as <-. by exists es.
  - subst file. by rewrite open_torn in Hopen.
Qed.

End Open.

(** C7. [MetadataLog::open] returns, and it reports corruption (returns
    [false]) exactly when the scan, after some run of complete entries,
    meets an entry whose declared count [num] satisfies
    [num * (HASH_SIZE + 4) + readSoFar > file_size], [readSoFar] counting
    the bytes of the entries before it and the four bytes of its own count
    field; otherwise it reads the entries up to the end of the file, loads
    them into the map and returns [true]. *)
Theorem open_reports_corruption (junk file : bytes) :
  Z.of_nat (length file) < 2 ^ 63 →
  ∃ (ok : bool) (log : MetadataLog.state),
    MetadataLog.open junk file = Some (ok, log)
    ∧ (ok = false ↔
         ∃ (es : list log_entry) (tail : bytes) (num readSoFar : Z),
           Forall entry_ok es ∧ file = log_bytes es ++ tail ∧ tail ≠ []
           ∧ num = readInt32 (tail ++ junk)
           ∧ readSoFar = Z.of_nat (length (log_bytes es)) + 4
           ∧ num * (Z.of_nat HASH_SIZE + 4) + readSoFar > Z.of_nat (length file))
    ∧ (ok = true ↔
         ∃ es : list log_entry,
           Forall entry_ok es ∧ file = log_bytes es
           ∧ MetadataLog.refcounts log = replay es ∅).
Proof.
  intros Hsz.
  assert (Htorn : ∀ es tail, file = log_bytes es ++ tail →
            (torn junk tail ↔ tail ≠ [] ∧
               readInt32 (tail ++ junk) * (Z.of_nat HASH_SIZE + 4)
               + (Z.of_nat (length (log_bytes es)) + 4) > Z.of_nat (length file))).
  { intros es tail ->. unfold torn, RECORD_SIZE, REFCOUNT_SIZE. rewrite length_app.
    split; intros [? ?]; (split; [done | lia]). }
  destruct (log_decompose junk (length file) file (le_n _))
    as (es & tail & Hfile & Hes & [-> | Ht]).
  - rewrite app_nil_r in Hfile.
    eexists true, _. split; [rewrite Hfile; apply open_clean; by rewrite <- ?Hfile |].
    split.
    + split; [done |]. intros (es' & tail & num & rsf & Hes' & Heq & Hne & -> & -> & Hgt).
      exfalso. apply (torn_not_clean junk es' es tail); try done; try congruence.
      apply (Htorn es' tail); [done |]. by split.
    + split; [| done]. intros _. by exists es.
  - eexists false, _. split; [rewrite Hfile; apply open_torn; by rewrite <- ?Hfile |].
    split.
    + split; [| done]. intros _.
      exists es, tail, (readInt32 (tail ++ junk)), (Z.of_nat (length (log_bytes es)) + 4).
      apply (Htorn es tail) in Ht as [? ?]; [| done]. by repeat split.
    + split; [done |]. intros (es' & Hes' & Heq & _).
      exfalso. apply (torn_not_clean junk es es' tail); try done; congruence.
Qed.

(** Witness of C7: a file holding one entry of no records. *)
Lemma open_reports_corruption_witness :
  ∃ (ok : bool) (log : MetadataLog.state),
    MetadataLog.open [] (writeInt32 0) = Some (ok, log)
    ∧ (ok = false ↔
         ∃ (es : list log_entry) (tail : bytes) (num readSoFar : Z),
           Forall entry_ok es ∧ writeInt32 0 = log_bytes es ++ tail ∧ tail ≠ []
           ∧ num = readInt32 (tail ++ [])
           ∧ readSoFar = Z.of_nat (length (log_bytes es)) + 4
           ∧ num * (Z.of_nat HASH_SIZE + 4) + readSoFar
             > Z.of_nat (length (writeInt32 0)))
    ∧ (ok = true ↔
         ∃ es : list log_entry,
           Forall entry_ok es ∧ writeInt32 0 = log_bytes es
           ∧ MetadataLog.refcounts log = replay es ∅).
Proof. apply (open_reports_corruption [] (writeInt32 0)). simpl. lia. Defined.

(** ** The metadata log: commit *)

Lemma commit_records_length (its : list (ObjectHash * Z)) :
  ∀ m, length (commit_records its m) = length its.
Proof. induction its as [| [h d] its IH]; intros m; simpl; [done | by rewrite IH]. Qed.

Lemma commit_records_range (its : list (ObjectHash * Z)) :
  ∀ m, Forall (λ r, 0 ≤ r.2 < 2 ^ 32) (commit_records its m).
Proof.
  induction its as [| [h d] its IH]; intros m; simpl; constructor; [| done].
  simpl. unfold wrap32. apply Z.mod_pos_bound. lia.
Qed.

Lemma commit_loop_records (its : list (ObjectHash * Z)) :
  ∀ (ws : bytes) (m : RefcountMap),
    Forall (λ it, isEmpty it.1 = false) its →
    MetadataLog.commit_loop its ws m
    = Some (ws ++ records_bytes (commit_records its m),
            replay_entry m (commit_records its m)).
Proof.
  induction its as [| [h d] its IH]; intros ws m Hne.
  - simpl. by rewrite app_nil_r.
  - apply Forall_cons in Hne as [Hh Hne]. simpl in Hh.
    cbn [MetadataLog.commit_loop commit_records]. rewrite Hh, IH by done.
    rewrite records_bytes_cons. cbn [fst snd replay_entry foldl].
    by rewrite <- !app_assoc.
Qed.

Lemma commit_loop_empty_hash (its : list (ObjectHash * Z)) :
  ∀ (ws : bytes) (m : RefcountMap),
    Exists (λ it, isEmpty it.1 = true) its →
    MetadataLog.commit_loop its ws m = None.
Proof.
  induction its as [| [h d] its IH]; intros ws m Hex; [by apply Exists_nil in Hex |].
  cbn [MetadataLog.commit_loop]. destruct (isEmpty h) eqn:Hh; [done |].
  apply IH. apply Exists_cons in Hex as [Hhd | Htl]; [| done].
  simpl in Hhd. congruence.
Qed.

Lemma tr_ok_pairs (tr : MdTransaction) :
  tr_ok tr → Forall (λ it, isEmpty it.1 = false) (map_to_list (counts tr)).
Proof.
  intros [_ Hne]. apply Forall_forall. intros [h d] Hin. simpl.
  apply Hne, elem_of_dom. exists d. by apply elem_of_map_to_list.
Qed.

Lemma commit_appends (tr : MdTransaction) (log : MetadataLog.state) :
  tr_ok tr →
  ∃ tr', MetadataLog.commit tr log
  = Some (tr', {| MetadataLog.fd :=
                    MetadataLog.fd log ++ log_bytes (commit_entry tr (MetadataLog.refcounts log));
                  MetadataLog.refcounts :=
                    replay (commit_entry tr (MetadataLog.refcounts log))
                      (MetadataLog.refcounts log) |}).
Proof.
  intros Hok. pose proof (tr_ok_pairs tr Hok) as Hpairs. destruct Hok as [Hsz _].
  unfold MetadataLog.commit, commit_entry.
  rewrite wrap32_small by lia.
  destruct (decide (size (counts tr) = 0%nat)) as [Hz | Hnz].
  - rewrite Hz. simpl. rewrite app_nil_r. exists tr. by destruct log.
  - destruct (decide (Z.of_nat (size (counts tr)) = 0)) as [? | _]; [lia |].
    rewrite commit_loop_records by done. eexists. f_equal. f_equal. f_equal.
    unfold log_bytes, entry_bytes. simpl.
    rewrite commit_records_length, length_map_to_list, app_nil_r.
    by rewrite <- app_assoc.
Qed.

Lemma commit_entry_ok (tr : MdTransaction) (m : RefcountMap) :
  tr_ok tr → Forall entry_ok (commit_entry tr m).
Proof.
  intros [Hsz _]. unfold commit_entry. destruct (decide _); constructor; [| done].
  split; [| apply commit_records_range].
  by rewrite commit_records_length, length_map_to_list.
Qed.

Lemma replay_app (es1 es2 : list log_entry) (m : RefcountMap) :
  replay (es1 ++ es2) m = replay es2 (replay es1 m).
Proof. unfold replay. apply foldl_app. Qed.

Lemma commit_all_inv (trs : list MdTransaction) :
  ∀ log : MetadataLog.state,
    Forall tr_ok trs → log_inv log →
    ∃ log', commit_all trs log = Some log' ∧ log_inv log'.
Proof.
  induction trs as [| tr trs IH]; intros log Hok Hinv.
  - exists log. by split.
  - apply Forall_cons in Hok as [Htr Hok].
    destruct (commit_appends tr log Htr) as [tr' Hc].
    cbn [commit_all]. unfold MetadataLog.destroy. rewrite Hc. simpl.
    apply IH; [done |]. destruct Hinv as (es & Hes & Hfd & Hm).
    exists (es ++ commit_entry tr (MetadataLog.refcounts log)). simpl.
    split; [| split].
    + apply Forall_app. split; [done | by apply commit_entry_ok].
    + by rewrite log_bytes_app, Hfd.
    + by rewrite replay_app, Hm.
Qed.

Lemma replay_entry_lookup (h : ObjectHash) (e : log_entry) :
  ∀ m : RefcountMap,
    replay_entry m e !! h
    = match last_record h e with Some c => Some c | None => m !! h end.
Proof.
  induction e as [| [h' c] e IH]; intros m; [done |].
  cbn [replay_entry foldl last_record fst snd]. fold (replay_entry (<[h':=c]> m) e).
  rewrite IH. destruct (last_record h e); [done |].
  destruct (decide (h' = h)) as [-> | Hne].
  - by rewrite lookup_insert_eq.
  - by rewrite lookup_insert_ne.
Qed.

Lemma replay_lookup (h : ObjectHash) (es : list log_entry) :
  ∀ m : RefcountMap,
    replay es m !! h
    = match last_written h es with Some c => Some c | None => m !! h end.
Proof.
  induction es as [| e es IH]; intros m; [done |].
  cbn [replay foldl last_written]. fold (replay es (replay_entry m e)).
  rewrite IH. destruct (last_written h es); [done |].
  apply replay_entry_lookup.
Qed.

Lemma open_fd (junk file : bytes) (ok : bool) (log : MetadataLog.state) :
  MetadataLog.open junk file = Some (ok, log) → MetadataLog.fd log = file.
Proof.
  unfold MetadataLog.open. destruct (MetadataLog.open_loop _ _ _ _ _ _) as [[ok' m] |]; [| done].
  by intros [= _ <-].
Qed.

Lemma open_inv (junk file : bytes) (log : MetadataLog.state) :
  Z.of_nat (length file) < 2 ^ 63 →
  MetadataLog.open junk file = Some (true, log) → log_inv log.
Proof.
  intros Hsz Hopen.
  destruct (open_true_clean junk file log Hsz Hopen) as (es & Hes & Hfile & Hm).
  exists es. split; [done |]. split; [| done].
  by rewrite (open_fd _ _ _ _ Hopen).
Qed.

Lemma inv_reopen (junk : bytes) (log : MetadataLog.state) :
  log_inv log →
  Z.of_nat (length (MetadataLog.close log)) < 2 ^ 63 →
  MetadataLog.open junk (MetadataLog.close log) = Some (true, log).
Proof.
  intros (es & Hes & Hfd & Hm) Hsz. unfold MetadataLog.close in *.
  destruct log as [fd m]; simpl in *. subst fd m. by apply open_clean.
Qed.

(** C2. Log recovery: after any sequence of transactions committed to a
    log that was opened on a sound file, closing the log and opening the
    same file again gives back the state the log had at close, the refcount
    map included; and for every hash [h] the map then holds the refcount
    written in the last entry of the file that contains [h]. *)
Theorem log_recovery (junk junk' file0 : bytes) (log0 : MetadataLog.state)
    (trs : list MdTransaction) :
  Z.of_nat (length file0) < 2 ^ 63 →
  MetadataLog.open junk file0 = Some (true, log0) →
  Forall tr_ok trs →
  ∃ log : MetadataLog.state,
    commit_all trs log0 = Some log
    ∧ (Z.of_nat (length (MetadataLog.close log)) < 2 ^ 63 →
       MetadataLog.open junk' (MetadataLog.close log) = Some (true, log)
       ∧ ∀ es : list log_entry,
           Forall entry_ok es → MetadataLog.close log = log_bytes es →
           ∀ h, MetadataLog.refcounts log !! h = last_written h es).
Proof.
  intros Hsz0 Hopen Hok.
  destruct (commit_all_inv trs log0 Hok (open_inv _ _ _ Hsz0 Hopen)) as (log & Hc & Hinv).
  exists log. split; [done |]. intros Hsz.
  pose proof (inv_reopen junk' log Hinv Hsz) as Hre. split; [done |].
  intros es Hes Hfd h. rewrite Hfd in Hre, Hsz.
  rewrite open_clean in Hre by done. injection Hre as <-. simpl.
  rewrite replay_lookup. by destruct (last_written h es).
Qed.

(** Witness of C2: a fresh log and one transaction adding a reference. *)
Lemma log_recovery_witness :
  ∃ log : MetadataLog.state,
    commit_all [ {| counts := {[ sample_hash Byte.x01 := 1 ]} |} ]
      {| MetadataLog.fd := []; MetadataLog.refcounts := ∅ |} = Some log
    ∧ (Z.of_nat (length (MetadataLog.close log)) < 2 ^ 63 →
       MetadataLog.open [] (MetadataLog.close log) = Some (true, log)
       ∧ ∀ es : list log_entry,
           Forall entry_ok es → MetadataLog.close log = log_bytes es →
           ∀ h, MetadataLog.refcounts log !! h = last_written h es).
Proof.
  apply (log_recovery [] [] []).
  - simpl. lia.
  - reflexivity.
  - constructor; [| constructor]. split.
    + simpl. rewrite map_size_singleton. lia.
    + simpl. intros h Hh. apply elem_of_dom in Hh as [c Hc].
      apply lookup_singleton_Some in Hc as [<- _]. reflexivity.
Defined.

(** The replay scenario of the specification: the transactions [{h1: +1}],
    [{h1: +2, h2: +1}] and [{h1: -2}] (the last delta in [uint32_t]
    arithmetic) leave [{h1: 1, h2: 1}], and so does opening the file
    again. *)
Example refcount_replay :
  let h1 := sample_hash Byte.x01 in
  let h2 := sample_hash Byte.x02 in
  ∃ log : MetadataLog.state,
    commit_all [ {| counts := {[ h1 := 1 ]} |};
                 {| counts := {[ h1 := 2; h2 := 1 ]} |};
                 {| counts := {[ h1 := wrap32 (-2) ]} |} ]
      {| MetadataLog.fd := []; MetadataLog.refcounts := ∅ |} = Some log
    ∧ MetadataLog.refcounts log = {[ h1 := 1; h2 := 1 ]}
    ∧ length (MetadataLog.fd log) = 156%nat
    ∧ (MetadataLog.refcounts ∘ snd) <$> MetadataLog.open [] (MetadataLog.close log)
      = Some {[ h1 := 1; h2 := 1 ]}.
Proof.
  eexists. split; [vm_compute; reflexivity |]. split; [| split].
  - apply (bool_decide_unpack _). vm_compute. exact I.
  - vm_compute. reflexivity.
  - apply (bool_decide_unpack _). vm_compute. exact I.
Qed.

(** ** The metadata log: rewrite and addRef *)

Lemma commit_records_fresh (its : list (ObjectHash * Z)) :
  ∀ m : RefcountMap,
    NoDup its.*1 → (∀ h, h ∈ its.*1 → m !! h = None) →
    Forall (λ r, 0 ≤ r.2 < 2 ^ 32) its →
    commit_records its m = its.
Proof.
  induction its as [| [h d] its IH]; intros m Hnd Hfresh Hr; [done |].
  apply NoDup_cons in Hnd as [Hnotin Hnd]. apply Forall_cons in Hr as [Hd Hr].
  simpl in *. rewrite (Hfresh h) by (left). simpl.
  rewrite Z.add_0_l, wrap32_small by done. f_equal.
  apply IH; [done | | done]. intros h' Hin.
  rewrite lookup_insert_ne by (intros ->; done). apply Hfresh. by right.
Qed.

Lemma last_record_NoDup (h : ObjectHash) (e : log_entry) :
  NoDup e.*1 → last_record h e = (list_to_map e : RefcountMap) !! h.
Proof.
  induction e as [| [h' c] e IH]; intros Hnd; [done |].
  apply NoDup_cons in Hnd as [Hnotin Hnd]. cbn [last_record list_to_map foldr].
  fold (list_to_map e : RefcountMap). rewrite IH by done.
  destruct (decide (h' = h)) as [-> | Hne].
  - rewrite lookup_insert_eq.
    by rewrite (not_elem_of_list_to_map_1 (M := gmap ObjectHash) e h Hnotin).
  - rewrite lookup_insert_ne by done. simpl.
    by destruct (_ !! h).
Qed.

Lemma replay_entry_NoDup (e : log_entry) :
  NoDup e.*1 → replay_entry ∅ e = list_to_map e.
Proof.
  intros Hnd. apply map_eq. intros h.
  rewrite replay_entry_lookup, last_record_NoDup, lookup_empty by done.
  by destruct (_ !! h).
Qed.

(** C6, amended. [rewrite()] with the default argument, on a log whose map
    [M] has fewer than [2^32] keys, none of them the empty hash, and
    [uint32_t] counts: the file is truncated and, at the scoped release of
    the rewrite transaction, holds exactly one entry whose pairs are those
    of [M] when [M] is not empty, and nothing at all when [M] is empty; the
    in-memory map is again [M]. *)
Theorem rewrite_compacts (log : MetadataLog.state) :
  Z.of_nat (size (MetadataLog.refcounts log)) < 2 ^ 32 →
  (∀ h, h ∈ dom (MetadataLog.refcounts log) → isEmpty h = false) →
  map_Forall (λ _ c, 0 ≤ c < 2 ^ 32) (MetadataLog.refcounts log) →
  ∃ log' : MetadataLog.state,
    MetadataLog.rewrite None log = Some log'
    ∧ MetadataLog.refcounts log' = MetadataLog.refcounts log
    ∧ (MetadataLog.refcounts log ≠ ∅ →
       holds_one_entry (MetadataLog.fd log') (MetadataLog.refcounts log))
    ∧ (MetadataLog.refcounts log = ∅ → MetadataLog.fd log' = []).
Proof.
  intros Hsz Hne Hrange. set (M := MetadataLog.refcounts log) in *.
  unfold MetadataLog.rewrite, MetadataLog.destroy. cbn [default].
  destruct (commit_appends {| counts := M |}
              {| MetadataLog.fd := []; MetadataLog.refcounts := ∅ |}) as [tr' Hc].
  { by split. }
  fold M. cbn [MetadataLog.fd] in *. rewrite Hc. cbn [fmap option_fmap option_map snd].
  eexists. split; [done |]. cbn [MetadataLog.fd MetadataLog.refcounts].
  unfold commit_entry. cbn [counts].
  destruct (decide (size M = 0%nat)) as [Hz | Hnz].
  - apply map_size_empty_iff in Hz. rewrite Hz. by repeat split.
  - assert (Hrec : commit_records (map_to_list M) ∅ = map_to_list M).
    { apply commit_records_fresh.
      - apply NoDup_fst_map_to_list.
      - intros h _. apply lookup_empty.
      - apply Forall_forall. intros [h c] Hin. apply elem_of_map_to_list in Hin.
        by apply (Hrange h c). }
    rewrite Hrec. cbn [replay foldl log_bytes map concat].
    rewrite app_nil_r, replay_entry_NoDup by apply NoDup_fst_map_to_list.
    split; [apply list_to_map_to_list |]. split.
    + intros _. exists (map_to_list M).
      split; [done |]. split; [apply NoDup_fst_map_to_list | apply list_to_map_to_list].
    + intros HM. by apply map_size_non_empty_iff in Hnz.
Qed.

(** Witness of C6: [rewrite()] on [one_ref_log]. *)
Lemma rewrite_compacts_witness :
  ∃ log' : MetadataLog.state,
    MetadataLog.rewrite None one_ref_log = Some log'
    ∧ MetadataLog.refcounts log' = MetadataLog.refcounts one_ref_log
    ∧ (MetadataLog.refcounts one_ref_log ≠ ∅ →
       holds_one_entry (MetadataLog.fd log') (MetadataLog.refcounts one_ref_log))
    ∧ (MetadataLog.refcounts one_ref_log = ∅ → MetadataLog.fd log' = []).
Proof.
  apply (rewrite_compacts one_ref_log).
  - simpl. rewrite map_size_singleton. lia.
  - simpl. intros h Hh. apply elem_of_dom in Hh as [c Hc].
    apply lookup_singleton_Some in Hc as [<- _]. reflexivity.
  - simpl. apply map_Forall_singleton. lia.
Defined.

(** C6 as stated fails on a log whose map is empty: [rewrite()] leaves an
    empty file, which holds no entry. *)
Lemma rewrite_empty_map_counterexample :
  ¬ ∃ log' : MetadataLog.state,
      MetadataLog.rewrite None {| MetadataLog.fd := []; MetadataLog.refcounts := ∅ |}
      = Some log'
      ∧ holds_one_entry (MetadataLog.fd log') ∅.
Proof.
  intros (log' & Hrw & e & Hfd & _).
  vm_compute in Hrw. injection Hrw as <-. simpl in Hfd.
  apply (f_equal length) in Hfd. unfold entry_bytes in Hfd.
  rewrite length_app, writeInt32_length in Hfd. simpl in Hfd. lia.
Qed.

(** C9. [addRef(hash)] without a transaction makes one inside the call,
    whose scoped release commits before the call returns: the call appends
    one entry holding the single pair [(hash, refcounts[hash] + 1)] (in
    [uint32_t] arithmetic) and sets the in-memory count to it.  With a
    transaction passed in, the log is left as it was. *)
Theorem addRef_commits_at_once (hash : ObjectHash) (log : MetadataLog.state) :
  isEmpty hash = false →
  MetadataLog.addRef hash None log
  = Some (None,
          {| MetadataLog.fd :=
               MetadataLog.fd log
               ++ entry_bytes [(hash, wrap32 (MetadataLog.getRefCount hash log + 1))];
             MetadataLog.refcounts :=
               <[hash := wrap32 (MetadataLog.getRefCount hash log + 1)]>
                 (MetadataLog.refcounts log) |})
  ∧ ∀ tr : MdTransaction,
      ∃ tr', MetadataLog.addRef hash (Some tr) log = Some (Some tr', log).
Proof.
  intros Hne. split; [| intros tr; by eexists].
  unfold MetadataLog.addRef, MetadataLog.destroy, MetadataLog.commit, MetadataLog.begin.
  cbn [counts]. rewrite lookup_empty. cbn [default].
  rewrite insert_empty, map_size_singleton, map_to_list_singleton.
  change (wrap32 (0 + 1)) with 1. change (wrap32 (Z.of_nat 1)) with 1.
  destruct (decide (1 = 0)) as [? | _]; [lia |].
  cbn [MetadataLog.commit_loop]. rewrite Hne.
  cbn [fmap option_fmap option_map snd].
  assert (Hc : default 0 (MetadataLog.refcounts log !! hash)
               = MetadataLog.getRefCount hash log).
  { unfold MetadataLog.getRefCount. by destruct (_ !! _). }
  rewrite Hc. do 3 f_equal.
  unfold entry_bytes, records_bytes, record_bytes.
  cbn [length map concat fst snd app Z.of_nat Pos.of_succ_nat].
  by rewrite <- app_assoc, app_nil_r.
Qed.

(** Witness of C9: the first reference to an object in a fresh log. *)
Lemma addRef_commits_at_once_witness :
  MetadataLog.addRef (sample_hash Byte.x01) None
    {| MetadataLog.fd := []; MetadataLog.refcounts := ∅ |}
  = Some (None,
          {| MetadataLog.fd := [] ++ entry_bytes [(sample_hash Byte.x01, 1)];
             MetadataLog.refcounts := <[sample_hash Byte.x01 := 1]> ∅ |}).
Proof.
  exact (proj1 (addRef_commits_at_once (sample_hash Byte.x01)
                  {| MetadataLog.fd := []; MetadataLog.refcounts := ∅ |} eq_refl)).
Defined.

(** ** Packfiles: what a commit writes *)

Lemma ObjectInfo_toString_length (i : ObjectInfo) :
  length (ObjectInfo_toString i) = INFO_SIZE.
Proof.
  unfold ObjectInfo_toString.
  rewrite !length_app, hash_data_length, !writeInt32_length, length_le_split.
  reflexivity.
Qed.

Lemma commit_headers_length (infos : list ObjectInfo) :
  ∀ (payloads : list bytes) (off : Z),
    length infos = length payloads →
    Z.of_nat (length (Packfile.commit_headers infos payloads off).1)
    = ENTRYSIZE * Z.of_nat (length infos).
Proof.
  induction infos as [| i infos IH]; intros [| p payloads] off Hl; try done.
  cbn [Packfile.commit_headers]. specialize (IH payloads (wrap32 (off + Z.of_nat (length p)))).
  destruct (Packfile.commit_headers infos payloads _) as [ss offsets]. cbn [fst] in *.
  rewrite !length_app, ObjectInfo_toString_length, !writeInt32_length.
  cbn [length] in *. rewrite !Nat2Z.inj_add, IH by lia.
  pack_widths. lia.
Qed.

Lemma commit_payloads_effect (infos : list ObjectInfo) :
  ∀ (payloads : list bytes) (off : Z) (w : Packfile.World),
    length infos = length payloads →
    Packfile.commit_payloads infos payloads
      (Packfile.commit_headers infos payloads off).2 w
    = let es := group_entries (Packfile.packid (Packfile.pf w)) off infos payloads in
      {| Packfile.pf :=
           {| Packfile.fd := Packfile.fd (Packfile.pf w) ++ concat payloads;
              Packfile.filename := Packfile.filename (Packfile.pf w);
              Packfile.packid := Packfile.packid (Packfile.pf w);
              Packfile.numObjects :=
                Packfile.numObjects (Packfile.pf w) + Z.of_nat (length infos);
              Packfile.fileSize :=
                Packfile.fileSize (Packfile.pf w) + total_length payloads |};
         Packfile.idx := index_all (Packfile.idx w) es;
         Packfile.trace := Packfile.trace w ++ group_events payloads es |}.
Proof.
  induction infos as [| i infos IH]; intros [| p payloads] off w Hl; try done.
  - destruct w as [[] ? ?]. cbn. unfold total_length. cbn.
    by rewrite !app_nil_r, !Z.add_0_r.
  - cbn [Packfile.commit_headers].
    specialize (IH payloads (wrap32 (off + Z.of_nat (length p)))).
    destruct (Packfile.commit_headers infos payloads _) as [ss offsets]. cbn [snd] in *.
    cbn [Packfile.commit_payloads]. rewrite IH by (cbn [length] in Hl; lia).
    destruct w as [[fd name id nobj fsz] ix tr].
    cbn [Packfile.sys_write Packfile.add_fileSize Packfile.incr_numObjects
         Packfile.updateEntry Packfile.pf Packfile.idx Packfile.trace Packfile.fd
         Packfile.filename Packfile.packid Packfile.numObjects Packfile.fileSize
         group_entries group_events index_all foldl info hash concat length].
    unfold total_length. cbn [concat].
    rewrite length_app, <- !app_assoc. f_equal. f_equal; lia.
Qed.

Lemma commit_effect (t : PfTransaction.state) (w : Packfile.World) :
  length (PfTransaction.infos t) = length (PfTransaction.payloads t) →
  Packfile.commit t w
  = Some (mark_committed t,
          {| Packfile.pf :=
               {| Packfile.fd :=
                    Packfile.fd (Packfile.pf w) ++ header_block t w
                    ++ concat (PfTransaction.payloads t);
                  Packfile.filename := Packfile.filename (Packfile.pf w);
                  Packfile.packid := Packfile.packid (Packfile.pf w);
                  Packfile.numObjects :=
                    Packfile.numObjects (Packfile.pf w)
                    + Z.of_nat (length (PfTransaction.infos t));
                  Packfile.fileSize :=
                    Packfile.fileSize (Packfile.pf w)
                    + Z.of_nat (length (header_block t w))
                    + total_length (PfTransaction.payloads t) |};
             Packfile.idx := index_all (Packfile.idx w) (commit_entries t w);
             Packfile.trace :=
               Packfile.trace w
               ++ Packfile.EvWrite (header_block t w)
                  :: group_events (PfTransaction.payloads t) (commit_entries t w) |}).
Proof.
  intros Hl. unfold Packfile.commit, header_block, commit_entries.
  destruct (decide _) as [_ | ?]; [| done].
  pose proof (commit_payloads_effect (PfTransaction.infos t) (PfTransaction.payloads t)
                (wrap32 (Packfile.fileSize (Packfile.pf w) + NUMOBJS_SIZE
                         + wrap64 (Z.of_nat (length (PfTransaction.infos t)) * ENTRYSIZE)))) as He.
  destruct (Packfile.commit_headers _ _ _) as [ss offsets]. cbn [fst snd] in *.
  rewrite He by done. destruct w as [[fd name id nobj fsz] ix tr].
  cbn [Packfile.sys_write Packfile.add_fileSize Packfile.pf Packfile.idx Packfile.trace
       Packfile.fd Packfile.filename Packfile.packid Packfile.numObjects Packfile.fileSize].
  unfold mark_committed. by rewrite <- !app_assoc.
Qed.

Lemma header_block_length (t : PfTransaction.state) (w : Packfile.World) :
  length (PfTransaction.infos t) = length (PfTransaction.payloads t) →
  Z.of_nat (length (header_block t w))
  = NUMOBJS_SIZE + ENTRYSIZE * Z.of_nat (length (PfTransaction.infos t)).
Proof.
  intros Hl. unfold header_block.
  rewrite length_app, writeInt32_length, Nat2Z.inj_add, commit_headers_length by done.
  reflexivity.
Qed.

(** [fileSize] is the size of the file when the pack is made, and [commit]
    keeps it so. *)
Lemma new_fileSize (file : bytes) (name : string) (id : Z) :
  Packfile.fileSize (Packfile.new file name id)
  = Z.of_nat (length (Packfile.fd (Packfile.new file name id))).
Proof. reflexivity. Qed.

Lemma commit_keeps_fileSize (t t' : PfTransaction.state) (w w' : Packfile.World) :
  Packfile.fileSize (Packfile.pf w) = Z.of_nat (length (Packfile.fd (Packfile.pf w))) →
  Packfile.commit t w = Some (t', w') →
  Packfile.fileSize (Packfile.pf w') = Z.of_nat (length (Packfile.fd (Packfile.pf w'))).
Proof.
  intros Hwf Hc.
  destruct (decide (length (PfTransaction.infos t) = length (PfTransaction.payloads t)))
    as [Hl | Hl].
  - rewrite (commit_effect t w Hl) in Hc.
    remember (header_block t w) as hb eqn:Hhb. clear Hhb.
    injection Hc as _ <-. cbn [Packfile.pf Packfile.fileSize Packfile.fd].
    rewrite !length_app, !Nat2Z.inj_add, Hwf. unfold total_length. lia.
  - unfold Packfile.commit in Hc. by destruct (decide _) in Hc.
Qed.

(** ** Packfiles: looking up what a commit indexed *)

Lemma index_all_app (m : Index) (es1 es2 : list IndexEntry) :
  index_all m (es1 ++ es2) = index_all (index_all m es1) es2.
Proof. apply foldl_app. Qed.

Lemma index_all_other (h : ObjectHash) (es : list IndexEntry) :
  ∀ m : Index, Forall (λ e, hash (info e) ≠ h) es → index_all m es !! h = m !! h.
Proof.
  induction es as [| e es IH]; intros m Hne; [done |].
  apply Forall_cons in Hne as [He Hes]. cbn [index_all foldl].
  fold (index_all (<[hash (info e):=e]> m) es). rewrite IH by done.
  by rewrite lookup_insert_ne.
Qed.

Lemma index_all_last (m : Index) (es1 es2 : list IndexEntry) (e : IndexEntry) :
  Forall (λ e', hash (info e') ≠ hash (info e)) es2 →
  index_all m (es1 ++ e :: es2) !! hash (info e) = Some e.
Proof.
  intros Hne. rewrite index_all_app. cbn [index_all foldl].
  fold (index_all (<[hash (info e):=e]> (index_all m es1)) es2).
  rewrite index_all_other by done. apply lookup_insert_eq.
Qed.

Lemma group_entries_hashes (id : Z) (infos : list ObjectInfo) :
  ∀ (payloads : list bytes) (off : Z) (h : ObjectHash),
    Forall (λ i, hash i ≠ h) infos →
    Forall (λ e, hash (info e) ≠ h) (group_entries id off infos payloads).
Proof.
  induction infos as [| i infos IH]; intros [| p payloads] off h Hne; try constructor.
  - by apply Forall_cons in Hne as [? _].
  - apply Forall_cons in Hne as [_ ?]. by apply IH.
Qed.

Lemma total_length_app (ps qs : list bytes) :
  total_length (ps ++ qs) = total_length ps + total_length qs.
Proof. unfold total_length. rewrite concat_app, length_app. lia. Qed.

Lemma total_length_cons (p : bytes) (ps : list bytes) :
  total_length (p :: ps) = Z.of_nat (length p) + total_length ps.
Proof. unfold total_length. cbn [concat]. rewrite length_app. lia. Qed.

Lemma total_length_nonneg (ps : list bytes) : 0 ≤ total_length ps.
Proof. unfold total_length. lia. Qed.

(** The entries of a group, split at one object, when no offset wraps. *)
Lemma group_entries_split (id : Z) (infos1 : list ObjectInfo) :
  ∀ (payloads1 : list bytes) (off : Z) (i : ObjectInfo) (p : bytes)
    (infos2 : list ObjectInfo) (payloads2 : list bytes),
    length infos1 = length payloads1 →
    0 ≤ off → off + total_length (payloads1 ++ [p]) < 2 ^ 32 →
    group_entries id off (infos1 ++ i :: infos2) (payloads1 ++ p :: payloads2)
    = group_entries id off infos1 payloads1
      ++ {| info := i; offset := off + total_length payloads1;
            packed_size := Z.of_nat (length p); packfile := id |}
      :: group_entries id (off + total_length payloads1 + Z.of_nat (length p))
           infos2 payloads2.
Proof.
  induction infos1 as [| i1 infos1 IH]; intros [| p1 payloads1] off i p infos2 payloads2
    Hl Hpos Hlt; try done.
  - cbn [app group_entries]. cbn [app] in Hlt. rewrite total_length_cons in Hlt.
    pose proof (total_length_nonneg []) as H0. change (total_length []) with 0 in *.
    rewrite !wrap32_small by lia. by rewrite Z.add_0_r.
  - cbn [app group_entries]. cbn [app] in Hlt.
    rewrite total_length_cons in Hlt. rewrite total_length_cons.
    pose proof (total_length_nonneg (payloads1 ++ [p])) as H0.
    rewrite (wrap32_small (off + _)) by lia.
    rewrite IH by (cbn [length] in Hl; lia).
    do 3 f_equal; [f_equal; lia | f_equal; lia].
Qed.

(** ** Packfiles: staging *)

Section RoundTrip.

(** The tunables and the codec of the build. *)
Variables (tn : Tuneables) (zip : Zip).

Lemma stored_info_hash (o : ObjectInfo * bytes) :
  hash (stored_info tn zip o) = hash o.1.
Proof. unfold stored_info. by destruct (PfTransaction.compresses _ _ _). Qed.

Lemma addPayload_fields (o : ObjectInfo * bytes) (t : PfTransaction.state) :
  PfTransaction.infos (PfTransaction.addPayload tn zip o.1 o.2 t)
  = PfTransaction.infos t ++ [stored_info tn zip o]
  ∧ PfTransaction.payloads (PfTransaction.addPayload tn zip o.1 o.2 t)
    = PfTransaction.payloads t ++ [stored_payload tn zip o]
  ∧ PfTransaction.totalSize (PfTransaction.addPayload tn zip o.1 o.2 t)
    = PfTransaction.totalSize t + Z.of_nat (length (stored_payload tn zip o)).
Proof.
  unfold PfTransaction.addPayload, stored_info, stored_payload.
  by destruct (PfTransaction.compresses _ _ _).
Qed.

Lemma stage_fields (objs : list (ObjectInfo * bytes)) :
  ∀ t : PfTransaction.state,
    PfTransaction.infos (stage tn zip objs t)
    = PfTransaction.infos t ++ map (stored_info tn zip) objs
    ∧ PfTransaction.payloads (stage tn zip objs t)
      = PfTransaction.payloads t ++ map (stored_payload tn zip) objs
    ∧ PfTransaction.totalSize (stage tn zip objs t)
      = PfTransaction.totalSize t + total_length (map (stored_payload tn zip) objs).
Proof.
  induction objs as [| o objs IH]; intros t.
  - cbn. by rewrite !app_nil_r, Z.add_0_r.
  - cbn [stage foldl map]. fold (stage tn zip objs (PfTransaction.addPayload tn zip o.1 o.2 t)).
    destruct (IH (PfTransaction.addPayload tn zip o.1 o.2 t)) as (-> & -> & ->).
    destruct (addPayload_fields o t) as (-> & -> & ->).
    rewrite total_length_cons, <- !app_assoc. repeat split; try done. lia.
Qed.

Lemma getCompressed_mark (i : ObjectInfo) :
  getCompressed (PfTransaction.mark_compressed i) = true.
Proof.
  unfold getCompressed, PfTransaction.mark_compressed, ORI_FLAG_COMPRESSED. cbn [flags].
  apply bool_decide_eq_true. rewrite Z.land_lor_distr_l. change (Z.land 1 1) with 1.
  intros H0. apply Z.lor_eq_0_iff in H0 as [_ ?]. lia.
Qed.

Lemma fdstream_middle (a b c : bytes) :
  Packfile.fdstream (a ++ b ++ c) (Z.of_nat (length a)) (Z.of_nat (length b)) = b.
Proof.
  unfold Packfile.fdstream. rewrite !Nat2Z.id.
  rewrite drop_app_length. by rewrite take_app_length.
Qed.

(** C1, amended. Pack round trip: stage [addPayload(info, p)] in a pack
    transaction, among any objects staged before and after it, commit it to
    a pack whose [fileSize] is the size of its file, and read back through
    [getPayload] on the index entry of [info.hash]: the bytes are those of
    [p], both when the payload was stored raw and when the compressed flag
    was set and the compressed bytes were stored.  This holds when [info]
    does not already carry the compressed flag where [p] is stored raw, no
    object staged later has the same hash, the offsets of the group fit
    their 32 bits, and the codec gives [p] back from its compressed bytes. *)
Theorem pack_round_trip (earlier later : list (ObjectInfo * bytes)) (i : ObjectInfo) (p : bytes)
    (w : Packfile.World) :
  let t := stage tn zip (earlier ++ (i, p) :: later) Packfile.begin in
  Packfile.fileSize (Packfile.pf w) = Z.of_nat (length (Packfile.fd (Packfile.pf w))) →
  Packfile.fileSize (Packfile.pf w) + NUMOBJS_SIZE
    + ENTRYSIZE * Z.of_nat (length (PfTransaction.infos t))
    + PfTransaction.totalSize t < 2 ^ 32 →
  Forall (λ o, hash o.1 ≠ hash i) later →
  (PfTransaction.compresses tn zip p = false → getCompressed i = false) →
  (PfTransaction.compresses tn zip p = true →
   zip_decompress zip (zip_compress zip p) (payload_size i) = p) →
  ∃ (t' : PfTransaction.state) (w' : Packfile.World) (e : IndexEntry),
    Packfile.commit t w = Some (t', w')
    ∧ Packfile.idx w' !! hash i = Some e
    ∧ getCompressed (info e) = PfTransaction.compresses tn zip p
    ∧ Packfile.getPayload tn zip e (Packfile.pf w') = Some p.
Proof.
  intros t Hwf Hbound Hlater Hraw Hzip.
  destruct (stage_fields (earlier ++ (i, p) :: later) Packfile.begin)
    as (Hinfos & Hpayloads & Htotal).
  fold t in Hinfos, Hpayloads, Htotal. cbn [Packfile.begin PfTransaction.new
    PfTransaction.infos PfTransaction.payloads PfTransaction.totalSize app] in *.
  rewrite Z.add_0_l in Htotal. rewrite Htotal, <- Hpayloads in Hbound.
  rewrite map_app in Hinfos, Hpayloads. cbn [map] in Hinfos, Hpayloads.
  assert (Hlen : length (PfTransaction.infos t) = length (PfTransaction.payloads t)).
  { rewrite Hinfos, Hpayloads, !length_app. cbn [length]. by rewrite !length_map. }
  set (n := Z.of_nat (length (PfTransaction.infos t))) in *.
  assert (Hn : 0 ≤ n) by (unfold n; lia).
  pose proof (total_length_nonneg (PfTransaction.payloads t)) as Htl.
  assert (Hoff : wrap32 (Packfile.fileSize (Packfile.pf w) + NUMOBJS_SIZE + wrap64 (n * ENTRYSIZE))
                 = Packfile.fileSize (Packfile.pf w) + NUMOBJS_SIZE + ENTRYSIZE * n).
  { pack_widths.
    rewrite wrap64_small, wrap32_small by lia. lia. }
  set (sp := stored_payload tn zip (i, p)) in *.
  set (si := stored_info tn zip (i, p)) in *.
  set (pre := map (stored_payload tn zip) earlier) in *.
  set (post := map (stored_payload tn zip) later) in *.
  set (off := Packfile.fileSize (Packfile.pf w) + NUMOBJS_SIZE + ENTRYSIZE * n) in *.
  set (e := {| info := si; offset := off + total_length pre;
               packed_size := Z.of_nat (length sp);
               packfile := Packfile.packid (Packfile.pf w) |}).
  assert (Hentries : ∃ es1 es2, commit_entries t w = es1 ++ e :: es2
                                ∧ Forall (λ e', hash (info e') ≠ hash (info e)) es2).
  { unfold commit_entries. fold n. rewrite Hoff. fold off. rewrite Hinfos, Hpayloads.
    rewrite group_entries_split.
    - eexists _, _. split; [reflexivity |]. apply group_entries_hashes.
      apply Forall_map. eapply Forall_impl; [exact Hlater |].
      intros o Ho. cbn [e info]. unfold si. by rewrite !stored_info_hash.
    - unfold pre. by rewrite !length_map.
    - unfold off. pack_widths. lia.
    - rewrite Hpayloads in Hbound. fold pre post sp in Hbound.
      rewrite total_length_app, total_length_cons in Hbound.
      rewrite total_length_app, total_length_cons.
      pose proof (total_length_nonneg post). change (total_length []) with 0.
      unfold off in *. pack_widths. lia. }
  destruct Hentries as (es1 & es2 & Hes & Hne).
  eexists _, _, e. split; [by apply commit_effect |].
  cbn [Packfile.idx Packfile.pf]. rewrite Hes. split.
  { replace (hash i) with (hash (info e)) by apply stored_info_hash.
    by apply index_all_last. }
  assert (Hread : Packfile.fdstream
            (Packfile.fd (Packfile.pf w) ++ header_block t w
             ++ concat (PfTransaction.payloads t)) (offset e) (packed_size e) = sp).
  { rewrite Hpayloads. fold pre post sp. rewrite concat_app. cbn [concat].
    replace (Packfile.fd (Packfile.pf w) ++ header_block t w ++ concat pre ++ sp ++ concat post)
      with ((Packfile.fd (Packfile.pf w) ++ header_block t w ++ concat pre)
            ++ sp ++ concat post) by (by rewrite <- !app_assoc).
    replace (offset e)
      with (Z.of_nat (length (Packfile.fd (Packfile.pf w) ++ header_block t w ++ concat pre))).
    - apply fdstream_middle.
    - cbn [e offset]. rewrite !length_app, !Nat2Z.inj_add, header_block_length by done.
      fold n. unfold off, total_length. rewrite Hwf. lia. }
  unfold Packfile.getPayload. cbn [Packfile.packid Packfile.fd Packfile.pf].
  destruct (decide _) as [_ | Hid]; [| done]. rewrite Hread.
  cbn [e info packfile]. unfold si, sp, stored_info, stored_payload. cbn [fst snd].
  destruct (PfTransaction.compresses tn zip p) eqn:Hc.
  - rewrite getCompressed_mark. split; [done |].
    assert (He : ENABLE_COMPRESSION tn = true).
    { unfold PfTransaction.compresses in Hc. by destruct (ENABLE_COMPRESSION tn). }
    rewrite He. cbn [PfTransaction.mark_compressed payload_size]. by rewrite Hzip.
  - rewrite Hraw by done. split; [done |]. by destruct (ENABLE_COMPRESSION tn).
Qed.

End RoundTrip.

(** Witness of C1: "hello", stored compressed, in a fresh pack. *)
Lemma pack_round_trip_witness :
  ∃ (t' : PfTransaction.state) (w' : Packfile.World) (e : IndexEntry),
    Packfile.commit
      (stage (tuneables true 2) tag_zip ([] ++ (sample_info Byte.x01 5, hello) :: [])
         Packfile.begin)
      (fresh_world "pack0.pak" 0) = Some (t', w')
    ∧ Packfile.idx w' !! hash (sample_info Byte.x01 5) = Some e
    ∧ getCompressed (info e) = PfTransaction.compresses (tuneables true 2) tag_zip hello
    ∧ Packfile.getPayload (tuneables true 2) tag_zip e (Packfile.pf w') = Some hello.
Proof.
  apply (pack_round_trip (tuneables true 2) tag_zip [] [] (sample_info Byte.x01 5) hello
           (fresh_world "pack0.pak" 0)).
  - reflexivity.
  - vm_compute. reflexivity.
  - constructor.
  - vm_compute. discriminate.
  - reflexivity.
Defined.

(** C1 as stated fails for an info that comes with the compressed flag set
    while the payload is stored raw.  Without compression compiled in,
    [getPayload] stops on its assertion; with it, the stream decompresses
    bytes that were never compressed (here, with [tag_zip], it yields
    "ello"). *)
Lemma pack_round_trip_counterexample :
  let i := {| type := Blob; flags := ORI_FLAG_COMPRESSED; payload_size := 5;
              hash := sample_hash Byte.x01 |} in
  (∃ (t' : PfTransaction.state) (w' : Packfile.World) (e : IndexEntry),
     Packfile.commit
       (PfTransaction.addPayload (tuneables false 512) tag_zip i hello Packfile.begin)
       (fresh_world "pack0.pak" 0) = Some (t', w')
     ∧ Packfile.idx w' !! hash i = Some e
     ∧ Packfile.getPayload (tuneables false 512) tag_zip e (Packfile.pf w') = None)
  ∧ (∃ (t' : PfTransaction.state) (w' : Packfile.World) (e : IndexEntry),
       Packfile.commit
         (PfTransaction.addPayload (tuneables true 512) tag_zip i hello Packfile.begin)
         (fresh_world "pack0.pak" 0) = Some (t', w')
       ∧ Packfile.idx w' !! hash i = Some e
       ∧ Packfile.getPayload (tuneables true 512) tag_zip e (Packfile.pf w')
         = Some (drop 1 hello)
       ∧ drop 1 hello ≠ hello).
Proof.
  split.
  - eexists _, _, _. split; [vm_compute; reflexivity |]. split; vm_compute; reflexivity.
  - eexists _, _, _. split; [vm_compute; reflexivity |].
    split; [vm_compute; reflexivity |]. split; [vm_compute; reflexivity | discriminate].
Qed.

(** C5. Single-object commit layout: from an empty pack with packid 0
    ([INFO_SIZE] being 48), committing a transaction that holds the single
    uncompressed 5-byte payload "hello" leaves [fileSize] at 65 = 4 + 56 + 5
    (the size of the file), and the index entry recorded for the hash is
    [{offset = 60, packed_size = 5, packfile = 0}]. *)
Theorem single_object_layout (tn : Tuneables) (zip : Zip) (i : ObjectInfo)
    (name : string) (ix : Index) :
  PfTransaction.compresses tn zip hello = false →
  ∃ (t' : PfTransaction.state) (w' : Packfile.World),
    Packfile.commit (PfTransaction.addPayload tn zip i hello Packfile.begin)
      {| Packfile.pf := Packfile.new [] name 0; Packfile.idx := ix; Packfile.trace := [] |}
    = Some (t', w')
    ∧ Packfile.fileSize (Packfile.pf w') = 65
    ∧ length (Packfile.fd (Packfile.pf w')) = 65%nat
    ∧ Packfile.idx w' !! hash i
      = Some {| info := i; offset := 60; packed_size := 5; packfile := 0 |}.
Proof.
  intros Hraw.
  set (t := PfTransaction.addPayload tn zip i hello Packfile.begin).
  assert (Hi : PfTransaction.infos t = [i]).
  { unfold t, PfTransaction.addPayload. by rewrite Hraw. }
  assert (Hp : PfTransaction.payloads t = [hello]).
  { unfold t, PfTransaction.addPayload. by rewrite Hraw. }
  assert (Hl : length (PfTransaction.infos t) = length (PfTransaction.payloads t)).
  { by rewrite Hi, Hp. }
  eexists _, _. split; [by apply commit_effect |].
  cbn [Packfile.pf Packfile.fileSize Packfile.fd Packfile.idx Packfile.new].
  pose proof (header_block_length t
    {| Packfile.pf := Packfile.new [] name 0; Packfile.idx := ix; Packfile.trace := [] |} Hl)
    as Hh.
  rewrite Hi in Hh. change (NUMOBJS_SIZE + ENTRYSIZE * Z.of_nat (length [i])) with 60 in Hh.
  split; [| split].
  - cbn [Packfile.new Packfile.fileSize Packfile.pf] in *. rewrite Hh, Hp. reflexivity.
  - cbn [app]. rewrite length_app, Hp. cbn in *. lia.
  - unfold commit_entries. rewrite Hi, Hp. cbn. apply lookup_insert_eq.
Qed.

(** Witness of C5: a build without compression. *)
Lemma single_object_layout_witness :
  ∃ (t' : PfTransaction.state) (w' : Packfile.World),
    Packfile.commit
      (PfTransaction.addPayload (tuneables false 512) tag_zip (sample_info Byte.x01 5)
         hello Packfile.begin)
      {| Packfile.pf := Packfile.new [] "pack0.pak" 0; Packfile.idx := ∅;
         Packfile.trace := [] |}
    = Some (t', w')
    ∧ Packfile.fileSize (Packfile.pf w') = 65
    ∧ length (Packfile.fd (Packfile.pf w')) = 65%nat
    ∧ Packfile.idx w' !! hash (sample_info Byte.x01 5)
      = Some {| info := sample_info Byte.x01 5; offset := 60; packed_size := 5;
                packfile := 0 |}.
Proof.
  apply (single_object_layout (tuneables false 512) tag_zip (sample_info Byte.x01 5)
           "pack0.pak" ∅).
  reflexivity.
Defined.

(** C10. The scoped release of an uncommitted pack transaction holding no
    object still runs [Packfile::commit]: a 4-byte group header with
    [num = 0] is appended to the file and [fileSize] grows by 4, while
    [numObjects] and the index stay as they were.  The scoped release of an
    empty metadata transaction, by contrast, changes nothing. *)
Theorem empty_pack_transaction_writes_header (w : Packfile.World)
    (log : MetadataLog.state) :
  (∃ w' : Packfile.World,
     Packfile.destroy Packfile.begin w = Some w'
     ∧ Packfile.fd (Packfile.pf w') = Packfile.fd (Packfile.pf w) ++ writeInt32 0
     ∧ length (writeInt32 0) = 4%nat
     ∧ Packfile.fileSize (Packfile.pf w') = Packfile.fileSize (Packfile.pf w) + 4
     ∧ Packfile.numObjects (Packfile.pf w') = Packfile.numObjects (Packfile.pf w)
     ∧ Packfile.idx w' = Packfile.idx w)
  ∧ MetadataLog.destroy MetadataLog.begin log = Some log.
Proof.
  split; [| reflexivity].
  eexists. split; [reflexivity |]. destruct w as [[fd name id nobj fsz] ix tr]. cbn.
  repeat split; lia.
Qed.

(** ** Packfiles: the order of the effects *)

Lemma group_events_length (payloads : list bytes) :
  ∀ es : list IndexEntry, length payloads = length es →
    length (group_events payloads es) = (2 * length payloads)%nat.
Proof.
  induction payloads as [| p payloads IH]; intros [| e es] Hl; try done.
  cbn [group_events length]. rewrite IH by (cbn [length] in Hl; lia). lia.
Qed.

Lemma group_events_lookup (payloads : list bytes) :
  ∀ (es : list IndexEntry) (k : nat) (p : bytes) (e : IndexEntry),
    payloads !! k = Some p → es !! k = Some e →
    group_events payloads es !! (2 * k)%nat = Some (Packfile.EvWrite p)
    ∧ group_events payloads es !! (2 * k + 1)%nat
      = Some (Packfile.EvUpdateEntry (hash (info e)) e).
Proof.
  induction payloads as [| p0 payloads IH]; intros [| e0 es] k p e Hp He; try done.
  destruct k as [| k].
  - cbn in Hp, He. injection Hp as ->. injection He as ->. by split.
  - cbn in Hp, He. destruct (IH es k p e Hp He) as [H1 H2].
    replace (2 * S k)%nat with (S (S (2 * k))) by lia.
    replace (S (S (2 * k)) + 1)%nat with (S (S (2 * k + 1))) by lia.
    by split.
Qed.

Lemma group_entries_length (id : Z) (infos : list ObjectInfo) :
  ∀ (payloads : list bytes) (off : Z),
    length infos = length payloads →
    length (group_entries id off infos payloads) = length payloads.
Proof.
  induction infos as [| i infos IH]; intros [| p payloads] off Hl; try done.
  cbn [group_entries length]. rewrite IH by (cbn [length] in Hl; lia). done.
Qed.

Lemma group_entries_lookup (id : Z) (infos : list ObjectInfo) :
  ∀ (payloads : list bytes) (off : Z) (k : nat) (i : ObjectInfo) (p : bytes),
    infos !! k = Some i → payloads !! k = Some p →
    ∃ e, group_entries id off infos payloads !! k = Some e ∧ info e = i.
Proof.
  induction infos as [| i0 infos IH]; intros [| p0 payloads] off k i p Hi Hp; try done.
  destruct k as [| k].
  - cbn in Hi. injection Hi as ->. eexists. by split.
  - cbn in Hi, Hp. cbn [group_entries]. by apply (IH payloads _ k i p).
Qed.

(** C3, amended. In every execution of [Packfile::commit] the effects are,
    in this order: the write of the header block, then for each object of
    the group the write of its payload followed at once by the
    [updateEntry] call for it.  So each [updateEntry] call comes strictly
    after the header block and after the payload bytes of its own object
    and of the objects before it have been written. *)
Theorem commit_updates_follow_payloads (t : PfTransaction.state) (w : Packfile.World) :
  length (PfTransaction.infos t) = length (PfTransaction.payloads t) →
  ∃ (t' : PfTransaction.state) (w' : Packfile.World) (ev : list Packfile.Event)
    (hdr : bytes),
    Packfile.commit t w = Some (t', w')
    ∧ Packfile.trace w' = Packfile.trace w ++ ev
    ∧ length ev = (1 + 2 * length (PfTransaction.payloads t))%nat
    ∧ ev !! 0%nat = Some (Packfile.EvWrite hdr)
    ∧ ∀ (k : nat) (i : ObjectInfo) (p : bytes),
        PfTransaction.infos t !! k = Some i →
        PfTransaction.payloads t !! k = Some p →
        ev !! (2 * k + 1)%nat = Some (Packfile.EvWrite p)
        ∧ ∃ e : IndexEntry,
            info e = i
            ∧ ev !! (2 * k + 2)%nat = Some (Packfile.EvUpdateEntry (hash i) e).
Proof.
  intros Hl. eexists _, _, _, _. split; [by apply commit_effect |].
  cbn [Packfile.trace]. split; [reflexivity |].
  assert (Hes : length (PfTransaction.payloads t) = length (commit_entries t w)).
  { unfold commit_entries. by rewrite group_entries_length. }
  split; [| split; [reflexivity |]].
  - cbn [length]. by rewrite group_events_length.
  - intros k i p Hi Hp.
    destruct (group_entries_lookup (Packfile.packid (Packfile.pf w))
                (PfTransaction.infos t) (PfTransaction.payloads t)
                (wrap32 (Packfile.fileSize (Packfile.pf w) + NUMOBJS_SIZE
                         + wrap64 (Z.of_nat (length (PfTransaction.infos t)) * ENTRYSIZE)))
                k i p Hi Hp) as (e & He & Hinfo).
    destruct (group_events_lookup (PfTransaction.payloads t) (commit_entries t w) k p e Hp He)
      as [H1 H2].
    replace (2 * k + 1)%nat with (S (2 * k)) by lia.
    replace (2 * k + 2)%nat with (S (2 * k + 1)) by lia.
    cbn [lookup list_lookup]. split; [exact H1 |].
    exists e. split; [done |]. by rewrite <- Hinfo.
Qed.

(** Witness of C3: the commit of one staged object. *)
Lemma commit_updates_follow_payloads_witness :
  ∃ (t' : PfTransaction.state) (w' : Packfile.World) (ev : list Packfile.Event)
    (hdr : bytes),
    Packfile.commit
      (PfTransaction.addPayload (tuneables false 512) tag_zip (sample_info Byte.x01 5)
         hello Packfile.begin) (fresh_world "pack0.pak" 0) = Some (t', w')
    ∧ Packfile.trace w' = Packfile.trace (fresh_world "pack0.pak" 0) ++ ev
    ∧ length ev
      = (1 + 2 * length (PfTransaction.payloads
                           (PfTransaction.addPayload (tuneables false 512) tag_zip
                              (sample_info Byte.x01 5) hello Packfile.begin)))%nat
    ∧ ev !! 0%nat = Some (Packfile.EvWrite hdr)
    ∧ ∀ (k : nat) (i : ObjectInfo) (p : bytes),
        PfTransaction.infos
          (PfTransaction.addPayload (tuneables false 512) tag_zip
             (sample_info Byte.x01 5) hello Packfile.begin) !! k = Some i →
        PfTransaction.payloads
          (PfTransaction.addPayload (tuneables false 512) tag_zip
             (sample_info Byte.x01 5) hello Packfile.begin) !! k = Some p →
        ev !! (2 * k + 1)%nat = Some (Packfile.EvWrite p)
        ∧ ∃ e : IndexEntry,
            info e = i
            ∧ ev !! (2 * k + 2)%nat = Some (Packfile.EvUpdateEntry (hash i) e).
Proof.
  apply (commit_updates_follow_payloads
           (PfTransaction.addPayload (tuneables false 512) tag_zip
              (sample_info Byte.x01 5) hello Packfile.begin)
           (fresh_world "pack0.pak" 0)).
  reflexivity.
Defined.

(** C3 as stated fails.  In [commit], the index is told about the first
    object of a group before the payload of the second is written; in
    [receive], it is told about every object before anything is written to
    the file. *)
Lemma index_update_order_counterexample :
  (∃ (t' : PfTransaction.state) (w' : Packfile.World),
     Packfile.commit two_objects (fresh_world "pack0.pak" 0) = Some (t', w')
     ∧ ¬ updates_after_all_writes (Packfile.trace w'))
  ∧ (∃ w' : Packfile.World,
       Packfile.receive one_object_stream (fresh_world "pack0.pak" 0)
       = (w', Returned true)
       ∧ ¬ updates_after_all_writes (Packfile.trace w')).
Proof.
  split.
  - eexists _, _. split; [vm_compute; reflexivity |].
    intros H. specialize (H 2%nat 3%nat). cbn in H.
    specialize (H _ _ _ eq_refl eq_refl). lia.
  - eexists. split; [vm_compute; reflexivity |].
    intros H. specialize (H 0%nat 1%nat). cbn in H.
    specialize (H _ _ _ eq_refl eq_refl). lia.
Qed.

Lemma receive_headers_trace (num : nat) :
  ∀ (bs : bytes) (off : Z) (obj_sizes : list Z) (headers_ss : bytes)
    (w w' : Packfile.World) r,
    Packfile.receive_headers num bs off obj_sizes headers_ss w = (w', r) →
    ∃ us, Packfile.trace w' = Packfile.trace w ++ us ∧ Forall is_update us.
Proof.
  induction num as [| num IH]; intros bs off sizes ss w w' r Hrun.
  - cbn in Hrun. injection Hrun as <- _. exists []. by rewrite app_nil_r.
  - cbn [Packfile.receive_headers] in Hrun.
    destruct (readExact INFO_SIZE bs) as [[info_str bs1] |];
      [| injection Hrun as <- _; exists []; by rewrite app_nil_r].
    destruct (stream_readInt bs1) as [[obj_size bs2] |];
      [| injection Hrun as <- _; exists []; by rewrite app_nil_r].
    apply IH in Hrun as (us & Htr & Hus). cbn [Packfile.updateEntry Packfile.trace] in Htr.
    eexists (_ :: us). rewrite Htr, <- app_assoc. split; [done |]. by constructor.
Qed.

Lemma receive_payloads_trace (obj_sizes : list Z) :
  ∀ (bs : bytes) (w w' : Packfile.World) r,
    Packfile.receive_payloads obj_sizes bs w = (w', r) →
    ∃ ws, Packfile.trace w' = Packfile.trace w ++ ws ∧ Forall is_write ws.
Proof.
  induction obj_sizes as [| sz sizes IH]; intros bs w w' r Hrun.
  - cbn in Hrun. injection Hrun as <- _. exists []. by rewrite app_nil_r.
  - cbn [Packfile.receive_payloads] in Hrun.
    destruct (readExact (Z.to_nat sz) bs) as [[data bs1] |];
      [| injection Hrun as <- _; exists []; by rewrite app_nil_r].
    apply IH in Hrun as (ws & Htr & Hws).
    cbn [Packfile.incr_numObjects Packfile.add_fileSize Packfile.sys_write Packfile.trace] in Htr.
    eexists (_ :: ws). rewrite Htr, <- app_assoc. split; [done |]. by constructor.
Qed.

(** [receive], by contrast, tells the index about every object of the group
    in its first loop, and writes the header block and the payloads
    afterwards: whatever the outcome, its effects are a run of
    [updateEntry] calls followed by a run of writes. *)
Lemma receive_updates_before_writes (bs : bytes) (w w' : Packfile.World)
    (r : outcome bool) :
  Packfile.receive bs w = (w', r) →
  ∃ us ws, Packfile.trace w' = Packfile.trace w ++ us ++ ws
           ∧ Forall is_update us ∧ Forall is_write ws.
Proof.
  unfold Packfile.receive. intros Hrun.
  destruct (stream_readInt bs) as [[num bs1] |];
    [| injection Hrun as <- _; exists [], []; by rewrite !app_nil_r].
  destruct (decide (num = 0));
    [injection Hrun as <- _; exists [], []; by rewrite !app_nil_r |].
  destruct (Packfile.receive_headers _ _ _ _ _ _) as [w1 [[[bs2 sizes] ss] |]] eqn:Hh.
  - apply receive_headers_trace in Hh as (us & Htr1 & Hus).
    destruct (Packfile.receive_payloads _ _ _) as [w2 r2] eqn:Hp.
    apply receive_payloads_trace in Hp as (ws & Htr2 & Hws).
    cbn [Packfile.add_fileSize Packfile.sys_write Packfile.trace] in Htr2.
    assert (w' = w2) as -> by (destruct r2; by injection Hrun as <- _).
    exists us, (Packfile.EvWrite ss :: ws). rewrite Htr2, Htr1, <- !app_assoc.
    split; [done |]. split; [done | by constructor].
  - apply receive_headers_trace in Hh as (us & Htr1 & Hus).
    injection Hrun as <- _. exists us, []. by rewrite app_nil_r.
Qed.

(** ** Packfiles: purge *)

Lemma purge_headers_keeps (hset : gset ObjectHash) (num : nat) :
  ∀ (i : nat) (fs : bytes) (storedSizes : list Z) (skip : gset nat)
    (tr : PfTransaction.state) fs' storedSizes' skip' tr',
    Packfile.purge_headers num i hset fs storedSizes skip tr
    = Some (fs', storedSizes', skip', tr') →
    keeps_none_of hset tr →
    keeps_none_of hset tr' ∧ (length fs' ≤ length fs)%nat
    ∧ PfTransaction.committed tr' = PfTransaction.committed tr.
Proof.
  induction num as [| num IH]; intros i fs ss skip tr fs' ss' skip' tr' Hrun Hkeep.
  - cbn in Hrun. injection Hrun as <- <- <- <-. by repeat split.
  - cbn [Packfile.purge_headers] in Hrun. unfold stream_readInt, readExact in Hrun.
    repeat (destruct (decide _) as [? | ?] in Hrun; [| done]).
    rewrite ?length_drop in *.
    match type of Hrun with
    | (if decide ?P then _ else _) = _ => destruct (decide P) as [Hin | Hnotin]
    end.
    + apply IH in Hrun as (? & Hlen & ?); [| done].
      rewrite !length_drop in Hlen. repeat split; [done | lia | done].
    + apply IH in Hrun as (? & Hlen & ?).
      * rewrite !length_drop in Hlen. repeat split; [done | lia | done].
      * unfold keeps_none_of in *. cbn. apply Forall_app. split; [done |].
        by constructor.
Qed.

Lemma purge_payloads_keeps (num : nat) :
  ∀ (i : nat) (fs : bytes) (storedSizes : list Z) (skip : gset nat) (payload : bytes)
    (tr : PfTransaction.state) fs' tr',
    Packfile.purge_payloads num i fs storedSizes skip payload tr = (fs', tr') →
    PfTransaction.infos tr' = PfTransaction.infos tr ∧ (length fs' ≤ length fs)%nat
    ∧ PfTransaction.committed tr' = PfTransaction.committed tr.
Proof.
  induction num as [| num IH]; intros i fs ss skip payload tr fs' tr' Hrun.
  - cbn in Hrun. injection Hrun as <- <-. by repeat split.
  - cbn [Packfile.purge_payloads] in Hrun.
    destruct (decide _) as [? | ?] in Hrun; apply IH in Hrun as (Hi & Hlen & Hc);
      rewrite length_drop in Hlen; (repeat split; [done | lia | done]).
Qed.

Lemma purge_scan_keeps (hset : gset ObjectHash) (fuel : nat) :
  ∀ (fs : bytes) (storedSizes : list Z) (tr tr' : PfTransaction.state),
    Packfile.purge_scan fuel hset fs storedSizes tr = Some (Some tr') →
    keeps_none_of hset tr →
    keeps_none_of hset tr' ∧ PfTransaction.committed tr' = PfTransaction.committed tr.
Proof.
  induction fuel as [| fuel IH]; intros fs ss tr tr' Hrun Hkeep; [done |].
  cbn [Packfile.purge_scan] in Hrun.
  destruct (stream_readInt fs) as [[num fs1] |]; [| by injection Hrun as <-].
  destruct (Packfile.purge_headers _ _ _ _ _ _ _) as [[[[fs2 ss2] skip2] tr2] |] eqn:Hh;
    [| done].
  destruct (Packfile.purge_payloads _ _ _ _ _ _ _) as [fs3 tr3] eqn:Hp.
  apply purge_headers_keeps in Hh as (Hk2 & _ & Hc2); [| done].
  apply purge_payloads_keeps in Hp as (Hi3 & _ & Hc3).
  apply IH in Hrun as [? Hc].
  - split; [done |]. congruence.
  - unfold keeps_none_of in *. by rewrite Hi3.
Qed.

Lemma purge_headers_length (hset : gset ObjectHash) (num : nat) :
  ∀ (i : nat) (fs : bytes) (storedSizes : list Z) (skip : gset nat)
    (tr : PfTransaction.state) fs' storedSizes' skip' tr',
    Packfile.purge_headers num i hset fs storedSizes skip tr
    = Some (fs', storedSizes', skip', tr') →
    (length fs' ≤ length fs)%nat.
Proof.
  induction num as [| num IH]; intros i fs ss skip tr fs' ss' skip' tr' Hrun.
  - cbn in Hrun. by injection Hrun as <- <- <- <-.
  - cbn [Packfile.purge_headers] in Hrun. unfold stream_readInt, readExact in Hrun.
    repeat (destruct (decide _) as [? | ?] in Hrun; [| done]).
    match type of Hrun with
    | (if decide ?P then _ else _) = _ => destruct (decide P) as [Hin | Hnotin]
    end; apply IH in Hrun; rewrite !length_drop in Hrun; lia.
Qed.

(** The scan of [purge] never runs out of the fuel it is given. *)
Lemma purge_scan_fuel (hset : gset ObjectHash) (fuel : nat) :
  ∀ (fs : bytes) (storedSizes : list Z) (tr : PfTransaction.state),
    (length fs < fuel)%nat →
    is_Some (Packfile.purge_scan fuel hset fs storedSizes tr).
Proof.
  induction fuel as [| fuel IH]; intros fs ss tr Hlt; [lia |].
  cbn [Packfile.purge_scan]. unfold stream_readInt, readExact.
  destruct (decide _) as [H4 | ?]; [| done].
  destruct (Packfile.purge_headers _ _ _ _ _ _ _) as [[[[fs2 ss2] skip2] tr2] |] eqn:Hh;
    [| done].
  destruct (Packfile.purge_payloads _ _ _ _ _ _ _) as [fs3 tr3] eqn:Hp.
  apply purge_headers_length in Hh. rewrite length_drop in Hh.
  apply purge_payloads_keeps in Hp as (_ & Hl3 & _).
  apply IH. lia.
Qed.

(** [purge] always has a result. *)
Lemma purge_total (hset : gset ObjectHash) (tmp : bytes) (w : Packfile.World) :
  is_Some (Packfile.purge hset tmp w).
Proof.
  unfold Packfile.purge.
  destruct (purge_scan_fuel hset (S (length (Packfile.fd (Packfile.pf w))))
              (Packfile.fd (Packfile.pf w)) [] Packfile.begin) as [r Hr]; [lia |].
  rewrite Hr. destruct r as [tr |]; [| done]. by destruct (Packfile.destroy _ _).
Qed.

Lemma group_events_updates (payloads : list bytes) :
  ∀ (es : list IndexEntry) (h : ObjectHash) (e : IndexEntry),
    Packfile.EvUpdateEntry h e ∈ group_events payloads es → e ∈ es ∧ h = hash (info e).
Proof.
  induction payloads as [| p payloads IH]; intros [| e0 es] h e Hin;
    try by apply elem_of_nil in Hin.
  cbn [group_events] in Hin.
  apply elem_of_cons in Hin as [? | Hin]; [done |].
  apply elem_of_cons in Hin as [Heq | Hin].
  - injection Heq as -> ->. split; [left | done].
  - apply IH in Hin as [? ?]. split; [by right | done].
Qed.

Lemma group_entries_keep (hset : gset ObjectHash) (id : Z) (infos : list ObjectInfo) :
  ∀ (payloads : list bytes) (off : Z),
    Forall (λ i, hash i ∉ hset) infos →
    Forall (λ e, hash (info e) ∉ hset) (group_entries id off infos payloads).
Proof.
  induction infos as [| i infos IH]; intros [| p payloads] off Hk; try constructor.
  - by apply Forall_cons in Hk as [? _].
  - apply Forall_cons in Hk as [_ ?]. by apply IH.
Qed.

Lemma index_all_outside (hset : gset ObjectHash) (h : ObjectHash) (es : list IndexEntry)
    (m : Index) :
  h ∈ hset → Forall (λ e, hash (info e) ∉ hset) es → index_all m es !! h = m !! h.
Proof.
  intros Hh Hes. apply index_all_other. eapply Forall_impl; [exact Hes |].
  intros e He Heq. cbn beta in *. by subst h.
Qed.

(** C4, amended. Whenever [purge(H, index)] completes, the scoped release
    of the surviving transaction included: the transaction holds no object
    whose hash is in [H], so none is written back and the index is given no
    entry for a hash of [H]; and the index holds for every hash of [H]
    exactly what it held before the call, [purge] removing no entry. *)
Theorem purge_keeps_index_of_purged (hset : gset ObjectHash) (tmp : bytes)
    (w w' : Packfile.World) (empty : bool) :
  Packfile.purge hset tmp w = Some (w', Returned empty) →
  (∀ h, h ∈ hset → Packfile.idx w' !! h = Packfile.idx w !! h)
  ∧ ∃ ev : list Packfile.Event,
      Packfile.trace w' = Packfile.trace w ++ ev
      ∧ ∀ h e, Packfile.EvUpdateEntry h e ∈ ev → h ∉ hset.
Proof.
  unfold Packfile.purge. intros Hrun.
  destruct (Packfile.purge_scan _ _ _ _ _) as [[tr |] |] eqn:Hscan; [| done | done].
  apply purge_scan_keeps in Hscan as [Hkeep Hc]; [| by constructor].
  set (w1 := {| Packfile.pf := _; Packfile.idx := Packfile.idx w;
                Packfile.trace := Packfile.trace w |}) in Hrun.
  destruct (Packfile.destroy tr w1) as [w2 |] eqn:Hd; [| done].
  injection Hrun as <- _. unfold Packfile.destroy in Hd.
  rewrite Hc in Hd. cbn [Packfile.begin PfTransaction.new PfTransaction.committed] in Hd.
  destruct (decide (length (PfTransaction.infos tr) = length (PfTransaction.payloads tr)))
    as [Hl | Hl].
  - rewrite (commit_effect tr w1 Hl) in Hd. cbn in Hd. injection Hd as <-.
    cbn [Packfile.idx Packfile.trace w1].
    assert (Hes : Forall (λ e, hash (info e) ∉ hset) (commit_entries tr w1)).
    { by apply group_entries_keep. }
    split.
    + intros h Hh. by apply (index_all_outside hset).
    + eexists. split; [reflexivity |]. intros h e Hin.
      apply elem_of_cons in Hin as [? | Hin]; [done |].
      apply group_events_updates in Hin as [Hin ->].
      by apply (proj1 (Forall_forall _ _) Hes).
  - unfold Packfile.commit in Hd. by destruct (decide _) in Hd.
Qed.

(** Witness of C4: purging the first object of [two_object_pack]. *)
Lemma purge_keeps_index_of_purged_witness :
  (∀ h, h ∈ ({[ sample_hash Byte.x01 ]} : gset ObjectHash) →
        Packfile.idx purged_pack !! h = Packfile.idx two_object_pack !! h)
  ∧ ∃ ev : list Packfile.Event,
      Packfile.trace purged_pack = Packfile.trace two_object_pack ++ ev
      ∧ ∀ h e, Packfile.EvUpdateEntry h e ∈ ev →
               h ∉ ({[ sample_hash Byte.x01 ]} : gset ObjectHash).
Proof.
  apply (purge_keeps_index_of_purged {[ sample_hash Byte.x01 ]} [] two_object_pack
           purged_pack false).
  vm_compute. reflexivity.
Defined.

(** C4 as stated fails: after [purge] has dropped an object from the pack,
    [lookup] still finds the entry the index held for it, and [getPayload]
    still gives a stream for that entry; on [two_object_pack] the stream
    even yields the bytes of the purged object, which the rewritten file
    holds at the old offset as part of the other payload. *)
Lemma purge_unreachable_counterexample :
  ∃ w' : Packfile.World,
    Packfile.purge {[ sample_hash Byte.x01 ]} [] two_object_pack = Some (w', Returned false)
    ∧ reachable (tuneables false 512) tag_zip w' (sample_hash Byte.x01)
    ∧ ∃ e : IndexEntry,
        Packfile.idx w' !! sample_hash Byte.x01 = Some e
        ∧ Packfile.getPayload (tuneables false 512) tag_zip e (Packfile.pf w') = Some hello.
Proof.
  exists purged_pack. split; [vm_compute; reflexivity |].
  assert (He : ∃ e : IndexEntry,
             Packfile.idx purged_pack !! sample_hash Byte.x01 = Some e
             ∧ Packfile.getPayload (tuneables false 512) tag_zip e (Packfile.pf purged_pack)
               = Some hello).
  { eexists. split; vm_compute; reflexivity. }
  split; [| exact He]. destruct He as (e & Hl & Hg). exists e. split; [done |].
  rewrite Hg. by eexists.
Qed.

(** The purge scenario of the specification: a pack holding [H1], [H2] and
    [H3]; [purge({H2})] returns [false] and leaves a file holding one group
    with [H1] and [H3], in this order.  The payload of [H1] lies at offset
    116 of the new file; the offset written for it, 294, counts from the
    178 bytes of the old one. *)
Example purge_middle_object :
  let objs := [(sample_info Byte.x01 1, [Byte.x61]);
               (sample_info Byte.x02 2, [Byte.x62; Byte.x62]);
               (sample_info Byte.x03 3, [Byte.x63; Byte.x63; Byte.x63])] in
  ∃ (t : PfTransaction.state) (w w' : Packfile.World),
    Packfile.commit (stage (tuneables false 512) tag_zip objs Packfile.begin)
      (fresh_world "pack0.pak" 0) = Some (t, w)
    ∧ Packfile.purge {[ sample_hash Byte.x02 ]} [] w = Some (w', Returned false)
    ∧ drop 4 (take 60 (Packfile.fd (Packfile.pf w')))
      = ObjectInfo_toString (sample_info Byte.x01 1) ++ writeInt32 1 ++ writeInt32 294
    ∧ readInt32 (Packfile.fd (Packfile.pf w')) = 2
    ∧ drop 116 (Packfile.fd (Packfile.pf w'))
      = [Byte.x61; Byte.x63; Byte.x63; Byte.x63].
Proof.
  eexists _, _, _. split; [vm_compute; reflexivity |].
  split; [vm_compute; reflexivity |]. repeat split; vm_compute; reflexivity.
Qed.

(** A remark on [purge]: it swaps the descriptor and commits the kept
    objects without resetting [fileSize], so the offsets it gives the index
    count from the size of the old file.  On [two_object_pack] the rewritten
    file has 121 bytes, [fileSize] says 303, and the entry of the kept
    object points past the end of the file. *)
Remark purge_keeps_old_fileSize :
  Packfile.fileSize (Packfile.pf two_object_pack) = 182
  ∧ length (Packfile.fd (Packfile.pf purged_pack)) = 121%nat
  ∧ Packfile.fileSize (Packfile.pf purged_pack) = 303
  ∧ offset <$> Packfile.idx purged_pack !! sample_hash Byte.x02 = Some 242.
Proof. repeat split; vm_compute; reflexivity. Qed.

(** ** The packfile manager: allocation order *)

(** While one id is left, [newPackfile] hands it out and keeps its
    successor. *)
Lemma newPackfiles_tail (n : nat) :
  ∀ (m : PackfileManager.state) (fs : PackfileManager.FS) (c : Z),
    PackfileManager.freeList m = [c] → 0 ≤ c → c + Z.of_nat n < 2 ^ 32 →
    ∃ (m' : PackfileManager.state) (fs' : PackfileManager.FS),
      newPackfiles n m fs = Some (seqZ c (Z.of_nat n), m', fs')
      ∧ PackfileManager.freeList m' = [c + Z.of_nat n].
Proof.
  induction n as [| n IH]; intros m fs c Hfl Hc Hlt.
  - exists m, fs. split; [done |]. by rewrite Hfl, Z.add_0_r.
  - cbn [newPackfiles]. unfold PackfileManager.newPackfile. rewrite Hfl.
    set (m1 := {| PackfileManager.rootPath := PackfileManager.rootPath m;
                  PackfileManager.freeList := [wrap32 (c + 1)] |}).
    set (fs1 := <[_ := _]> fs).
    destruct (IH m1 fs1 (c + 1)) as (m' & fs' & Hrun & Hfl').
    { cbn. by rewrite wrap32_small by lia. }
    { lia. }
    { lia. }
    exists m', fs'. rewrite Hrun. cbn [Packfile.packid Packfile.new]. split.
    + rewrite (seqZ_cons c) by lia. replace (Z.succ c) with (c + 1) by lia. by replace (Z.pred (Z.of_nat (S n))) with (Z.of_nat n) by lia.
    + rewrite Hfl'. f_equal. lia.
Qed.

(** C8. Free-list recovery and allocation order: with exactly [pack0.pak]
    and [pack2.pak] in the pack directory and no free-list file to read, the
    manager recomputes [freeList = [1; 3]]; successive [newPackfile()] calls
    then return the ids 1, 3, 4, 5, and so on (as long as the ids fit their
    32 bits), the front being popped while more than one id remains and the
    single remaining id being incremented in place, so that the list is
    never empty. *)
Theorem free_list_recovery (c0 c2 : bytes) (n : nat) :
  Z.of_nat n + 2 < 2 ^ 32 →
  ∃ (m : PackfileManager.state) (fs : PackfileManager.FS),
    PackfileManager._loadFreeList "/repo/" (two_pack_dir c0 c2) = None
    ∧ PackfileManager.new "/repo/" (two_pack_dir c0 c2) = Some (m, fs)
    ∧ PackfileManager.freeList m = [1; 3]
    ∧ ∃ (m' : PackfileManager.state) (fs' : PackfileManager.FS),
        newPackfiles n m fs = Some (expected_ids n, m', fs')
        ∧ PackfileManager.freeList m' ≠ [].
Proof.
  intros Hn. eexists _, _. split; [vm_compute; reflexivity |].
  split; [vm_compute; reflexivity |]. split; [reflexivity |].
  destruct n as [| n].
  - eexists _, _. split; [reflexivity | done].
  - cbn [newPackfiles expected_ids]. unfold PackfileManager.newPackfile.
    cbn [PackfileManager.freeList PackfileManager.rootPath].
    set (m1 := {| PackfileManager.rootPath := "/repo/";
                  PackfileManager.freeList := [3] |}).
    set (fs1 := <[_ := _]> _).
    destruct (newPackfiles_tail n m1 fs1 3) as (m' & fs' & Hrun & Hfl); [done | lia | lia |].
    exists m', fs'. rewrite Hrun. cbn [Packfile.packid Packfile.new].
    split; [done |]. by rewrite Hfl.
Qed.

(** Witness of C8: four calls on empty pack files. *)
Lemma free_list_recovery_witness :
  ∃ (m : PackfileManager.state) (fs : PackfileManager.FS),
    PackfileManager._loadFreeList "/repo/" (two_pack_dir [] []) = None
    ∧ PackfileManager.new "/repo/" (two_pack_dir [] []) = Some (m, fs)
    ∧ PackfileManager.freeList m = [1; 3]
    ∧ ∃ (m' : PackfileManager.state) (fs' : PackfileManager.FS),
        newPackfiles 4 m fs = Some (expected_ids 4, m', fs')
        ∧ PackfileManager.freeList m' ≠ [].
Proof. apply (free_list_recovery [] [] 4). simpl. lia. Defined.

Example expected_ids_4 : expected_ids 4 = [1; 3; 4; 5].
Proof. reflexivity. Qed.

(** ** The metadata log: what a commit does to the counts *)

Lemma getRefCount_default (h : ObjectHash) (log : MetadataLog.state) :
  MetadataLog.getRefCount h log = default 0 (MetadataLog.refcounts log !! h).
Proof. unfold MetadataLog.getRefCount. by destruct (_ !! _). Qed.

(** The map after the loop of [commit] over pairs with distinct hashes. *)
Lemma replay_commit_records (h : ObjectHash) (its : list (ObjectHash * Z)) :
  ∀ m : RefcountMap,
    NoDup its.*1 →
    replay_entry m (commit_records its m) !! h
    = match (list_to_map its : RefcountMap) !! h with
      | Some d => Some (wrap32 (default 0 (m !! h) + d))
      | None => m !! h
      end.
Proof.
  induction its as [| [h0 d0] its IH]; intros m Hnd; [done |].
  apply NoDup_cons in Hnd as [Hnotin Hnd].
  cbn [commit_records replay_entry foldl fst snd list_to_map foldr].
  fold (list_to_map its : RefcountMap).
  set (f0 := wrap32 (default 0 (m !! h0) + d0)).
  fold (replay_entry (<[h0:=f0]> m) (commit_records its (<[h0:=f0]> m))).
  rewrite IH by done. destruct (decide (h0 = h)) as [-> | Hne].
  - rewrite lookup_insert_eq.
    rewrite (not_elem_of_list_to_map_1 (M := gmap ObjectHash) its h Hnotin).
    by rewrite lookup_insert_eq.
  - by rewrite !lookup_insert_ne by done.
Qed.

(** What a commit the log accepts does to the count of a hash. *)
Lemma commit_deltas (tr : MdTransaction) (log : MetadataLog.state) :
  tr_ok tr →
  ∀ h, match snd <$> MetadataLog.commit tr log with
       | Some log' =>
           MetadataLog.getRefCount h log'
           = match counts tr !! h with
             | Some delta => wrap32 (MetadataLog.getRefCount h log + delta)
             | None => MetadataLog.getRefCount h log
             end
       | None => False
       end.
Proof.
  intros Hok h. unfold MetadataLog.commit.
  pose proof (tr_ok_pairs tr Hok) as Hpairs. destruct Hok as [Hsz _].
  rewrite wrap32_small by lia.
  destruct (decide (Z.of_nat (size (counts tr)) = 0)) as [Hz | Hnz].
  - assert (Hempty : counts tr = ∅) by (apply map_size_empty_iff; lia).
    cbn. by rewrite Hempty, lookup_empty.
  - rewrite commit_loop_records by done. cbn.
    rewrite !getRefCount_default. cbn [MetadataLog.refcounts].
    rewrite replay_commit_records by apply NoDup_fst_map_to_list.
    rewrite list_to_map_to_list. by destruct (counts tr !! h).
Qed.

(** X1. A commit the log accepts adds each delta of the transaction to the
    count of its hash, in [uint32_t] arithmetic, leaves every other count as
    it was, and empties the transaction. *)
Theorem commit_adds_deltas (tr : MdTransaction) (log : MetadataLog.state) :
  tr_ok tr →
  ∃ (tr' : MdTransaction) (log' : MetadataLog.state),
    MetadataLog.commit tr log = Some (tr', log')
    ∧ counts tr' = ∅
    ∧ ∀ h, MetadataLog.getRefCount h log'
           = match counts tr !! h with
             | Some delta => wrap32 (MetadataLog.getRefCount h log + delta)
             | None => MetadataLog.getRefCount h log
             end.
Proof.
  intros Hok. unfold MetadataLog.commit.
  pose proof (tr_ok_pairs tr Hok) as Hpairs. destruct Hok as [Hsz _].
  rewrite wrap32_small by lia.
  destruct (decide (Z.of_nat (size (counts tr)) = 0)) as [Hz | Hnz].
  - assert (Hempty : counts tr = ∅) by (apply map_size_empty_iff; lia).
    eexists _, _. split; [done |]. split; [done |]. intros h.
    by rewrite Hempty, lookup_empty.
  - rewrite commit_loop_records by done. eexists _, _. split; [done |].
    split; [done |]. intros h. rewrite !getRefCount_default. cbn [MetadataLog.refcounts].
    rewrite replay_commit_records by apply NoDup_fst_map_to_list.
    rewrite list_to_map_to_list. by destruct (counts tr !! h).
Qed.

Lemma commit_adds_deltas_witness :
  ∃ (tr' : MdTransaction) (log' : MetadataLog.state),
    MetadataLog.commit {| counts := {[ sample_hash Byte.x01 := 2 ]} |} one_ref_log
    = Some (tr', log')
    ∧ counts tr' = ∅
    ∧ ∀ h, MetadataLog.getRefCount h log'
           = match counts {| counts := {[ sample_hash Byte.x01 := 2 ]} |} !! h with
             | Some delta => wrap32 (MetadataLog.getRefCount h one_ref_log + delta)
             | None => MetadataLog.getRefCount h one_ref_log
             end.
Proof.
  apply (commit_adds_deltas {| counts := {[ sample_hash Byte.x01 := 2 ]} |} one_ref_log).
  split.
  - simpl. rewrite map_size_singleton. lia.
  - simpl. intros h Hh. apply elem_of_dom in Hh as [c Hc].
    apply lookup_singleton_Some in Hc as [<- _]. reflexivity.
Defined.

(** X2. [commit] stops on its assertion exactly when the transaction names
    the empty hash; a transaction without it is always committed. *)
Theorem commit_aborts_on_empty_hash (tr : MdTransaction) (log : MetadataLog.state) :
  Z.of_nat (size (counts tr)) < 2 ^ 32 →
  MetadataLog.commit tr log = None
  ↔ ∃ h, h ∈ dom (counts tr) ∧ isEmpty h = true.
Proof.
  intros Hsz. unfold MetadataLog.commit. rewrite wrap32_small by lia.
  destruct (decide (Z.of_nat (size (counts tr)) = 0)) as [Hz | Hnz].
  - split; [done |]. intros (h & Hh & _).
    assert (Hempty : counts tr = ∅) by (apply map_size_empty_iff; lia).
    rewrite Hempty, dom_empty_L in Hh. by apply not_elem_of_empty in Hh.
  - destruct (decide (Exists (λ it : ObjectHash * Z, isEmpty it.1 = true)
                        (map_to_list (counts tr)))) as [Hex | Hnex].
    + rewrite commit_loop_empty_hash by done. split; [| done]. intros _.
      apply Exists_exists in Hex as ([h d] & Hin & Hh). exists h. split; [| done].
      apply elem_of_dom. exists d. by apply elem_of_map_to_list.
    + rewrite commit_loop_records.
      * split; [done |]. intros (h & Hh & He). exfalso. apply Hnex.
        apply elem_of_dom in Hh as [d Hd]. apply Exists_exists. exists (h, d).
        split; [by apply elem_of_map_to_list | done].
      * apply Forall_forall. intros it Hin. destruct (isEmpty it.1) eqn:He; [| done].
        exfalso. apply Hnex. apply Exists_exists. by exists it.
Qed.

Lemma commit_aborts_on_empty_hash_witness :
  MetadataLog.commit {| counts := {[ sample_hash Byte.x00 := 1 ]} |} one_ref_log = None
  ↔ ∃ h, h ∈ dom (counts {| counts := {[ sample_hash Byte.x00 := 1 ]} |})
         ∧ isEmpty h = true.
Proof.
  apply (commit_aborts_on_empty_hash {| counts := {[ sample_hash Byte.x00 := 1 ]} |}
           one_ref_log).
  simpl. rewrite map_size_singleton. lia.
Defined.

(** ** The metadata log: references added to one transaction *)

Lemma occurrences_cons (h h0 : ObjectHash) (hs : list ObjectHash) :
  occurrences h (h0 :: hs) = (if decide (h0 = h) then 1 else 0) + occurrences h hs.
Proof.
  unfold occurrences. rewrite filter_cons. destruct (decide (h0 = h)); cbn [length]; lia.
Qed.

Lemma occurrences_pos (h : ObjectHash) (hs : list ObjectHash) :
  0 < occurrences h hs ↔ h ∈ hs.
Proof.
  induction hs as [| h0 hs IH].
  - split; [unfold occurrences; simpl; lia | by intros ?%elem_of_nil].
  - rewrite occurrences_cons, elem_of_cons.
    assert (0 ≤ occurrences h hs) by (unfold occurrences; lia).
    destruct (decide (h0 = h)) as [-> | Hne]; split; intros Hx; auto; try lia.
    + right. apply IH. lia.
    + destruct Hx as [-> | Hin]; [done |]. apply IH in Hin. lia.
Qed.

(** A pass of [addRefs] only touches the transaction. *)
Lemma addRefs_counts (hs : list ObjectHash) :
  ∀ (tr : MdTransaction) (log : MetadataLog.state),
    ∃ tr', addRefs hs tr log = Some (tr', log)
           ∧ (size (counts tr') ≤ size (counts tr) + length hs)%nat
           ∧ ∀ h, counts tr' !! h
                  = if decide (h ∈ hs)
                    then Some (wrap32 (default 0 (counts tr !! h) + occurrences h hs))
                    else counts tr !! h.
Proof.
  induction hs as [| h0 hs IH]; intros tr log.
  - exists tr. split; [done |]. split; [simpl; lia |]. intros h.
    destruct (decide (h ∈ [])) as [Hin | _]; [by apply elem_of_nil in Hin | done].
  - cbn [addRefs MetadataLog.addRef].
    set (tr1 := {| counts := <[h0 := wrap32 (default 0 (counts tr !! h0) + 1)]> (counts tr) |}).
    destruct (IH tr1 log) as (tr' & Hrun & Hsize & Hlook).
    exists tr'. split; [done |]. split.
    { cbn [counts tr1] in Hsize. cbn [length].
      pose proof (map_size_insert h0 (wrap32 (default 0 (counts tr !! h0) + 1)) (counts tr)) as Hs.
      destruct (counts tr !! h0); cbn [id] in Hs; lia. }
    intros h. rewrite Hlook, occurrences_cons. cbn [counts tr1].
    assert (Hocc : 0 ≤ occurrences h hs) by (unfold occurrences; lia).
    destruct (decide (h0 = h)) as [-> | Hne].
    + rewrite lookup_insert_eq. cbn [default from_option id].
      destruct (decide (h ∈ hs)) as [Hin | Hnotin];
        destruct (decide (h ∈ h :: hs)) as [_ | Hn]; try (exfalso; apply Hn; by left).
      * f_equal. unfold wrap32. rewrite Zplus_mod_idemp_l. f_equal. lia.
      * assert (occurrences h hs = 0).
        { destruct (decide (0 < occurrences h hs)) as [Hp | ?]; [| lia].
          by apply occurrences_pos in Hp. }
        f_equal. f_equal. lia.
    + rewrite lookup_insert_ne by done.
      destruct (decide (h ∈ hs)) as [Hin | Hnotin];
        destruct (decide (h ∈ h0 :: hs)) as [Hin' | Hn]; try done.
      * exfalso. apply Hn. by right.
      * apply elem_of_cons in Hin' as [-> | ?]; done.
Qed.

(** X3. References added to one transaction are batched: the calls leave
    the log as it is, and the scoped release of the transaction appends at
    most one entry and adds to the count of each hash the number of times it
    was named (in [uint32_t] arithmetic). *)
Theorem addRef_batches (hs : list ObjectHash) (log : MetadataLog.state) :
  Z.of_nat (length hs) < 2 ^ 32 →
  Forall (λ h, isEmpty h = false) hs →
  ∃ (tr : MdTransaction) (log' : MetadataLog.state) (es : list log_entry),
    addRefs hs MetadataLog.begin log = Some (tr, log)
    ∧ MetadataLog.destroy tr log = Some log'
    ∧ (length es ≤ 1)%nat
    ∧ MetadataLog.fd log' = MetadataLog.fd log ++ log_bytes es
    ∧ ∀ h, MetadataLog.getRefCount h log'
           = if decide (h ∈ hs)
             then wrap32 (MetadataLog.getRefCount h log + occurrences h hs)
             else MetadataLog.getRefCount h log.
Proof.
  intros Hlen Hne.
  destruct (addRefs_counts hs MetadataLog.begin log) as (tr & Hrun & Hsize & Hlook).
  cbn [MetadataLog.begin counts] in Hsize, Hlook. rewrite map_size_empty in Hsize.
  assert (Hok : tr_ok tr).
  { split; [lia |]. intros h Hh. apply elem_of_dom in Hh as [d Hd].
    rewrite Hlook in Hd. destruct (decide (h ∈ hs)) as [Hin | ?]; [| by rewrite lookup_empty in Hd].
    by apply (proj1 (Forall_forall _ _) Hne). }
  destruct (commit_appends tr log Hok) as [tr1 Hc].
  pose proof (commit_deltas tr log Hok) as Hd. rewrite Hc in Hd.
  cbn [fmap option_fmap option_map snd] in Hd.
  eexists tr, _, (commit_entry tr (MetadataLog.refcounts log)).
  split; [done |]. unfold MetadataLog.destroy. rewrite Hc.
  split; [done |]. split; [unfold commit_entry; destruct (decide _); simpl; lia |].
  split; [done |]. intros h. cbn [snd]. rewrite Hd, Hlook.
  destruct (decide (h ∈ hs)) as [Hin | Hnotin]; [| by rewrite lookup_empty].
  rewrite lookup_empty. cbn [default]. unfold wrap32.
  rewrite Z.add_0_l, Zplus_mod_idemp_r. done.
Qed.

Lemma addRef_batches_witness :
  ∃ (tr : MdTransaction) (log' : MetadataLog.state) (es : list log_entry),
    addRefs [sample_hash Byte.x01; sample_hash Byte.x02; sample_hash Byte.x01]
      MetadataLog.begin one_ref_log = Some (tr, one_ref_log)
    ∧ MetadataLog.destroy tr one_ref_log = Some log'
    ∧ (length es ≤ 1)%nat
    ∧ MetadataLog.fd log' = MetadataLog.fd one_ref_log ++ log_bytes es
    ∧ ∀ h, MetadataLog.getRefCount h log'
           = if decide (h ∈ [sample_hash Byte.x01; sample_hash Byte.x02;
                             sample_hash Byte.x01])
             then wrap32 (MetadataLog.getRefCount h one_ref_log
                          + occurrences h [sample_hash Byte.x01; sample_hash Byte.x02;
                                           sample_hash Byte.x01])
             else MetadataLog.getRefCount h one_ref_log.
Proof.
  apply (addRef_batches [sample_hash Byte.x01; sample_hash Byte.x02; sample_hash Byte.x01]
           one_ref_log).
  - simpl. lia.
  - repeat constructor.
Defined.

(** ** The metadata log: a torn file, and compaction *)

(** X4. When [open] meets a torn entry it returns [false], and the object
    keeps the file and the counts that the complete entries before the torn
    one gave: the load is not undone. *)
Theorem open_torn_keeps_prefix (junk : bytes) (es : list log_entry) (tail : bytes) :
  Forall entry_ok es →
  Z.of_nat (length (log_bytes es ++ tail)) < 2 ^ 63 →
  tail ≠ [] →
  readInt32 (tail ++ junk) * (Z.of_nat HASH_SIZE + 4)
    + (Z.of_nat (length (log_bytes es)) + 4) > Z.of_nat (length (log_bytes es ++ tail)) →
  ∃ log : MetadataLog.state,
    MetadataLog.open junk (log_bytes es ++ tail) = Some (false, log)
    ∧ MetadataLog.fd log = log_bytes es ++ tail
    ∧ ∀ h, MetadataLog.getRefCount h log = default 0 (last_written h es).
Proof.
  intros Hes Hsz Hne Hgt.
  exists {| MetadataLog.fd := log_bytes es ++ tail; MetadataLog.refcounts := replay es ∅ |}.
  split; [| split; [reflexivity |]].
  - apply open_torn; [done | done |]. split; [done |].
    rewrite length_app in Hgt. unfold RECORD_SIZE, REFCOUNT_SIZE. lia.
  - intros h. rewrite getRefCount_default. cbn [MetadataLog.refcounts].
    rewrite replay_lookup, lookup_empty. by destruct (last_written h es).
Qed.

Lemma open_torn_keeps_prefix_witness :
  ∃ log : MetadataLog.state,
    MetadataLog.open [] (log_bytes [[(sample_hash Byte.x01, 1)]] ++ writeInt32 1)
    = Some (false, log)
    ∧ MetadataLog.fd log = log_bytes [[(sample_hash Byte.x01, 1)]] ++ writeInt32 1
    ∧ ∀ h, MetadataLog.getRefCount h log
           = default 0 (last_written h [[(sample_hash Byte.x01, 1)]]).
Proof.
  apply (open_torn_keeps_prefix [] [[(sample_hash Byte.x01, 1)]] (writeInt32 1)).
  - repeat constructor; simpl; lia.
  - vm_compute. reflexivity.
  - discriminate.
  - vm_compute. reflexivity.
Defined.

(** The state [rewrite] leaves, for the counts [refs] it is given or takes
    from the log. *)
Lemma rewrite_effect (refs : option RefcountMap) (log : MetadataLog.state) :
  let R := default (MetadataLog.refcounts log) refs in
  tr_ok {| counts := R |} →
  map_Forall (λ _ c, 0 ≤ c < 2 ^ 32) R →
  MetadataLog.rewrite refs log
  = Some {| MetadataLog.fd := log_bytes (commit_entry {| counts := R |} ∅);
            MetadataLog.refcounts := R |}
  ∧ replay (commit_entry {| counts := R |} ∅) ∅ = R.
Proof.
  intros R Hok Hrange.
  assert (Hrep : replay (commit_entry {| counts := R |} ∅) ∅ = R).
  { unfold commit_entry. cbn [counts]. destruct (decide (size R = 0%nat)) as [Hz | Hnz].
    - apply map_size_empty_iff in Hz. by rewrite Hz.
    - cbn [replay foldl]. rewrite commit_records_fresh.
      + rewrite replay_entry_NoDup by apply NoDup_fst_map_to_list.
        apply list_to_map_to_list.
      + apply NoDup_fst_map_to_list.
      + intros h _. apply lookup_empty.
      + apply Forall_forall. intros [h c] Hin. apply elem_of_map_to_list in Hin.
        by apply (Hrange h c). }
  split; [| done].
  unfold MetadataLog.rewrite, MetadataLog.destroy. fold R.
  destruct (commit_appends {| counts := R |}
              {| MetadataLog.fd := []; MetadataLog.refcounts := ∅ |} Hok) as [tr' Hc].
  cbn [MetadataLog.fd MetadataLog.refcounts] in *. rewrite Hc.
  cbn [fmap option_fmap option_map snd app]. by rewrite Hrep.
Qed.

(** X5. Compaction and recovery agree: after [rewrite(refs)], with the
    counts passed in or those of the log by default, the in-memory map is
    [refs], the file has 4 + 36 n bytes for the n hashes of [refs] (none
    when n = 0) whatever it held before, and opening it again gives back
    exactly the state [rewrite] left. *)
Theorem rewrite_then_open (junk : bytes) (refs : option RefcountMap)
    (log : MetadataLog.state) :
  let R := default (MetadataLog.refcounts log) refs in
  Z.of_nat (size R) < 2 ^ 32 →
  (∀ h, h ∈ dom R → isEmpty h = false) →
  map_Forall (λ _ c, 0 ≤ c < 2 ^ 32) R →
  ∃ log' : MetadataLog.state,
    MetadataLog.rewrite refs log = Some log'
    ∧ MetadataLog.refcounts log' = R
    ∧ Z.of_nat (length (MetadataLog.fd log'))
      = (if decide (size R = 0%nat) then 0 else 4 + RECORD_SIZE * Z.of_nat (size R))
    ∧ MetadataLog.open junk (MetadataLog.close log') = Some (true, log').
Proof.
  intros R Hsz Hne Hrange.
  assert (Hok : tr_ok {| counts := R |}) by (by split).
  destruct (rewrite_effect refs log Hok Hrange) as [Hrw Hrep]. fold R in Hrw, Hrep.
  eexists. split; [exact Hrw |]. split; [done |].
  assert (Hlen : Z.of_nat (length (log_bytes (commit_entry {| counts := R |} ∅)))
                 = (if decide (size R = 0%nat) then 0
                    else 4 + RECORD_SIZE * Z.of_nat (size R))).
  { unfold commit_entry. cbn [counts]. destruct (decide (size R = 0%nat)); [done |].
    unfold log_bytes. cbn [map concat]. rewrite app_nil_r, entry_bytes_length.
    by rewrite commit_records_length, length_map_to_list. }
  split; [exact Hlen |]. apply inv_reopen.
  - exists (commit_entry {| counts := R |} ∅). split; [by apply commit_entry_ok |].
    by split.
  - unfold MetadataLog.close. cbn [MetadataLog.fd]. rewrite Hlen.
    destruct (decide _); [lia |]. unfold RECORD_SIZE, HASH_SIZE, REFCOUNT_SIZE. lia.
Qed.

Lemma rewrite_then_open_witness :
  let R := default (MetadataLog.refcounts one_ref_log)
             (Some {[ sample_hash Byte.x02 := 7 ]}) in
  ∃ log' : MetadataLog.state,
    MetadataLog.rewrite (Some {[ sample_hash Byte.x02 := 7 ]}) one_ref_log = Some log'
    ∧ MetadataLog.refcounts log' = R
    ∧ Z.of_nat (length (MetadataLog.fd log'))
      = (if decide (size R = 0%nat) then 0 else 4 + RECORD_SIZE * Z.of_nat (size R))
    ∧ MetadataLog.open [] (MetadataLog.close log') = Some (true, log').
Proof.
  apply (rewrite_then_open [] (Some {[ sample_hash Byte.x02 := 7 ]}) one_ref_log).
  - simpl. rewrite map_size_singleton. lia.
  - simpl. intros h Hh. apply elem_of_dom in Hh as [c Hc].
    apply lookup_singleton_Some in Hc as [<- _]. reflexivity.
  - simpl. apply map_Forall_singleton. lia.
Defined.

(** ** Pack transactions: what [has] and [hashToIx] know *)

Lemma ix_inv_addPayload (tn : Tuneables) (zip : Zip) (o : ObjectInfo * bytes)
    (t : PfTransaction.state) :
  ix_inv t → ix_inv (PfTransaction.addPayload tn zip o.1 o.2 t).
Proof.
  intros Hinv h. specialize (Hinv h).
  assert (Hix : PfTransaction.hashToIx (PfTransaction.addPayload tn zip o.1 o.2 t)
                = <[hash o.1 := Z.of_nat (length (PfTransaction.infos t))]>
                    (PfTransaction.hashToIx t)).
  { unfold PfTransaction.addPayload. destruct (PfTransaction.compresses _ _ _);
      cbn [PfTransaction.hashToIx PfTransaction.mark_compressed hash];
      rewrite length_app; cbn [length]; f_equal; lia. }
  destruct (addPayload_fields tn zip o t) as (Hi & _ & _). rewrite Hix, Hi. clear Hix Hi.
  destruct (decide (hash o.1 = h)) as [<- | Hne].
  - rewrite lookup_insert_eq. split; [lia |]. rewrite Nat2Z.id. split.
    + exists (stored_info tn zip o). split; [| apply stored_info_hash].
      by rewrite lookup_app_r, Nat.sub_diag by lia.
    + rewrite drop_ge; [constructor |]. rewrite length_app. cbn [length]. lia.
  - rewrite lookup_insert_ne by done.
    destruct (PfTransaction.hashToIx t !! h) as [k |].
    + destruct Hinv as (Hk & (i & Hi & Hh) & Hlater).
      pose proof (lookup_lt_Some _ _ _ Hi) as Hlt.
      split; [done |]. split.
      * exists i. split; [| done]. by rewrite lookup_app_l.
      * rewrite drop_app_le by lia. apply Forall_app. split; [done |].
        constructor; [| constructor]. by rewrite stored_info_hash.
    + apply Forall_app. split; [done |]. constructor; [| constructor].
      by rewrite stored_info_hash.
Qed.

Lemma ix_inv_stage (tn : Tuneables) (zip : Zip) (objs : list (ObjectInfo * bytes)) :
  ∀ t : PfTransaction.state, ix_inv t → ix_inv (stage tn zip objs t).
Proof.
  induction objs as [| o objs IH]; intros t Hinv; [done |].
  cbn [stage foldl]. apply IH. by apply ix_inv_addPayload.
Qed.

Lemma ix_inv_begin : ix_inv Packfile.begin.
Proof. intros h. cbn. rewrite lookup_empty. constructor. Qed.

(** X6. A transaction that was filled by [addPayload] alone answers [has]
    with [true] exactly for the hashes of the objects staged, and its
    [hashToIx] gives, for each of them, the position in [infos] of the last
    object staged with this hash. *)
Theorem has_knows_the_staged (tn : Tuneables) (zip : Zip)
    (objs : list (ObjectInfo * bytes)) (h : ObjectHash) :
  let t := stage tn zip objs Packfile.begin in
  (PfTransaction.has h t = true ↔ h ∈ map (λ o, hash o.1) objs)
  ∧ ∀ k : Z,
      PfTransaction.hashToIx t !! h = Some k →
      0 ≤ k
      ∧ (∃ i, PfTransaction.infos t !! Z.to_nat k = Some i ∧ hash i = h)
      ∧ ∀ (k' : nat) (i' : ObjectInfo),
          (Z.to_nat k < k')%nat → PfTransaction.infos t !! k' = Some i' → hash i' ≠ h.
Proof.
  intros t. pose proof (ix_inv_stage tn zip objs _ ix_inv_begin h) as Hinv. fold t in Hinv.
  destruct (stage_fields tn zip objs Packfile.begin) as (Hinfos & _ & _). fold t in Hinfos.
  cbn [Packfile.begin PfTransaction.new PfTransaction.infos app] in Hinfos.
  assert (Hmem : h ∈ map (λ o, hash o.1) objs
                 ↔ ¬ Forall (λ i, hash i ≠ h) (PfTransaction.infos t)).
  { rewrite Hinfos, Forall_map. split.
    - intros Hin Hall. apply list_elem_of_fmap in Hin as (o & -> & Hin).
      rewrite Forall_forall in Hall. apply (Hall o Hin). apply stored_info_hash.
    - intros Hnot. apply not_Forall_Exists in Hnot; [| intros ?; apply _].
      apply Exists_exists in Hnot as (o & Hin & Ho). cbn in Ho.
      apply dec_stable in Ho. rewrite stored_info_hash in Ho. subst h.
      apply list_elem_of_fmap. by exists o. }
  unfold PfTransaction.has. rewrite bool_decide_eq_true.
  destruct (PfTransaction.hashToIx t !! h) as [k |] eqn:Hk.
  - destruct Hinv as (Hpos & (i & Hi & Hh) & Hlater). split.
    + split; [intros _ | by eauto]. apply Hmem. intros Hall.
      rewrite Forall_forall in Hall. apply (Hall i); [| done].
      by apply list_elem_of_lookup_2 in Hi.
    + intros k0 [= <-]. split; [done |]. split; [by exists i |].
      intros k' i' Hlt Hi'. rewrite Forall_forall in Hlater. apply Hlater.
      apply list_elem_of_lookup. exists (k' - S (Z.to_nat k))%nat.
      rewrite lookup_drop. rewrite <- Hi'. f_equal. lia.
  - split; [| done]. split; [by intros [? ?] |]. intros Hin. by apply Hmem in Hin.
Qed.

(** ** Packfiles: the accounting of a commit *)

(** X7. Whatever was staged by [addPayload], [commit] accepts it: the
    block it appends to the file has [4 + ENTRYSIZE * n + totalSize] bytes
    for the [n] objects staged, [fileSize] grows by as much, [numObjects]
    by [n], and the scoped release of the committed transaction then
    leaves the pack and the index alone. *)
Theorem staged_commit_accounting (tn : Tuneables) (zip : Zip)
    (objs : list (ObjectInfo * bytes)) (w : Packfile.World) :
  let t := stage tn zip objs Packfile.begin in
  ∃ (t' : PfTransaction.state) (w' : Packfile.World) (block : bytes),
    Packfile.commit t w = Some (t', w')
    ∧ Packfile.destroy t' w' = Some w'
    ∧ Packfile.fd (Packfile.pf w') = Packfile.fd (Packfile.pf w) ++ block
    ∧ Z.of_nat (length block)
      = NUMOBJS_SIZE + ENTRYSIZE * Z.of_nat (length objs) + PfTransaction.totalSize t
    ∧ Packfile.fileSize (Packfile.pf w')
      = Packfile.fileSize (Packfile.pf w) + Z.of_nat (length block)
    ∧ Packfile.numObjects (Packfile.pf w')
      = Packfile.numObjects (Packfile.pf w) + Z.of_nat (length objs).
Proof.
  intros t.
  destruct (stage_fields tn zip objs Packfile.begin) as (Hinfos & Hpayloads & Htotal).
  fold t in Hinfos, Hpayloads, Htotal.
  cbn [Packfile.begin PfTransaction.new PfTransaction.infos PfTransaction.payloads
       PfTransaction.totalSize app] in *.
  assert (Hlen : length (PfTransaction.infos t) = length (PfTransaction.payloads t)).
  { by rewrite Hinfos, Hpayloads, !length_map. }
  assert (Hn : length (PfTransaction.infos t) = length objs).
  { by rewrite Hinfos, length_map. }
  eexists _, _, (header_block t w ++ concat (PfTransaction.payloads t)).
  split; [by apply commit_effect |].
  cbn [Packfile.pf Packfile.fd Packfile.fileSize Packfile.numObjects].
  repeat split.
  - rewrite length_app, Nat2Z.inj_add, header_block_length, Hn, Htotal, Hpayloads by done.
    unfold total_length. lia.
  - rewrite length_app, Nat2Z.inj_add. unfold total_length. lia.
  - by rewrite Hn.
Qed.

(** ** Packfiles: a commit only appends *)

Lemma fdstream_app (file more : bytes) (off len : Z) :
  0 ≤ off → 0 ≤ len → off + len ≤ Z.of_nat (length file) →
  Packfile.fdstream (file ++ more) off len = Packfile.fdstream file off len.
Proof.
  intros Hoff Hlen Hin. unfold Packfile.fdstream.
  rewrite drop_app_le by lia. rewrite take_app_le; [done |].
  rewrite length_drop. lia.
Qed.

Lemma getPayload_app (tn : Tuneables) (zip : Zip) (e : IndexEntry) (p p' : Packfile.state)
    (more : bytes) :
  Packfile.packid p' = Packfile.packid p →
  Packfile.fd p' = Packfile.fd p ++ more →
  0 ≤ offset e → 0 ≤ packed_size e →
  offset e + packed_size e ≤ Z.of_nat (length (Packfile.fd p)) →
  Packfile.getPayload tn zip e p' = Packfile.getPayload tn zip e p.
Proof.
  intros Hid Hfd Hoff Hlen Hin. unfold Packfile.getPayload.
  by rewrite Hid, Hfd, fdstream_app.
Qed.

(** X8. [commit] only appends: an entry that lies within the file as it
    was is read by [getPayload] after the commit as before, the index keeps
    the entry of every hash the transaction does not name, and the name and
    the id of the pack stay. *)
Theorem commit_keeps_stored_objects (tn : Tuneables) (zip : Zip)
    (t t' : PfTransaction.state) (w w' : Packfile.World) :
  Packfile.commit t w = Some (t', w') →
  (∀ e : IndexEntry,
     0 ≤ offset e → 0 ≤ packed_size e →
     offset e + packed_size e ≤ Z.of_nat (length (Packfile.fd (Packfile.pf w))) →
     Packfile.getPayload tn zip e (Packfile.pf w')
     = Packfile.getPayload tn zip e (Packfile.pf w))
  ∧ (∀ h : ObjectHash,
       Forall (λ i, hash i ≠ h) (PfTransaction.infos t) →
       Packfile.idx w' !! h = Packfile.idx w !! h)
  ∧ Packfile.filename (Packfile.pf w') = Packfile.filename (Packfile.pf w)
  ∧ Packfile.packid (Packfile.pf w') = Packfile.packid (Packfile.pf w).
Proof.
  intros Hc.
  destruct (decide (length (PfTransaction.infos t) = length (PfTransaction.payloads t)))
    as [Hl | Hl].
  2: { unfold Packfile.commit in Hc. by destruct (decide _) in Hc. }
  rewrite (commit_effect t w Hl) in Hc. injection Hc as _ <-.
  cbn [Packfile.pf Packfile.idx Packfile.filename Packfile.packid]. repeat split.
  - intros e Hoff Hlen Hin. by eapply getPayload_app.
  - intros h Hne. apply index_all_other. by apply group_entries_hashes.
Qed.

Lemma commit_keeps_stored_objects_witness :
  let t := stage (tuneables false 512) tag_zip [(sample_info Byte.x03 1, [Byte.x61])]
             Packfile.begin in
  ∃ (t' : PfTransaction.state) (w' : Packfile.World),
    Packfile.commit t two_object_pack = Some (t', w')
    ∧ (∀ e : IndexEntry,
         0 ≤ offset e → 0 ≤ packed_size e →
         offset e + packed_size e
         ≤ Z.of_nat (length (Packfile.fd (Packfile.pf two_object_pack))) →
         Packfile.getPayload (tuneables false 512) tag_zip e (Packfile.pf w')
         = Packfile.getPayload (tuneables false 512) tag_zip e
             (Packfile.pf two_object_pack))
    ∧ (∀ h : ObjectHash,
         Forall (λ i, hash i ≠ h) (PfTransaction.infos t) →
         Packfile.idx w' !! h = Packfile.idx two_object_pack !! h)
    ∧ Packfile.filename (Packfile.pf w') = Packfile.filename (Packfile.pf two_object_pack)
    ∧ Packfile.packid (Packfile.pf w') = Packfile.packid (Packfile.pf two_object_pack).
Proof.
  intros t. eexists _, _. split; [reflexivity |].
  apply (commit_keeps_stored_objects (tuneables false 512) tag_zip t (mark_committed t)
           two_object_pack).
  reflexivity.
Defined.

(** ** The packfile manager: the free list on disk *)

Lemma stream_readInt_writeInt32 (z : Z) (rest : bytes) :
  stream_readInt (writeInt32 z ++ rest) = Some (wrap32 z, rest).
Proof.
  unfold stream_readInt, readExact.
  destruct (decide _) as [_ | Hn].
  - rewrite take_app_length', drop_app_length' by (by rewrite writeInt32_length).
    rewrite <- (app_nil_r (writeInt32 z)) at 1. by rewrite readInt32_writeInt32.
  - rewrite length_app, writeInt32_length in Hn. lia.
Qed.

Lemma load_entries_written (ids : list Z) :
  ∀ (rest : bytes) (acc : list Z),
    PackfileManager.load_entries (length ids) (concat (map writeInt32 ids) ++ rest) acc
    = Some (acc ++ map wrap32 ids).
Proof.
  induction ids as [| id ids IH]; intros rest acc.
  - cbn. by rewrite app_nil_r.
  - cbn [length map concat PackfileManager.load_entries].
    rewrite <- app_assoc, stream_readInt_writeInt32, IH, <- app_assoc. done.
Qed.

Lemma map_wrap32_small (ids : list Z) :
  Forall (λ id, 0 ≤ id < 2 ^ 32) ids → map wrap32 ids = ids.
Proof.
  induction 1 as [| id ids Hid _ IH]; [done |].
  cbn [map]. by rewrite wrap32_small, IH.
Qed.

(** X9. The free list survives on disk: what [_writeFreeList] writes,
    [_loadFreeList] reads back as the same list, so that a manager made on
    the files an earlier one left behind starts with the free list that one
    had, without scanning the directory and without writing anything. *)
Theorem free_list_round_trip (m : PackfileManager.state) (fs : PackfileManager.FS) :
  Z.of_nat (length (PackfileManager.freeList m)) < 2 ^ 32 →
  Forall (λ id, 0 ≤ id < 2 ^ 32) (PackfileManager.freeList m) →
  PackfileManager._loadFreeList (PackfileManager.rootPath m)
    (PackfileManager._writeFreeList m fs) = Some (PackfileManager.freeList m)
  ∧ PackfileManager.new (PackfileManager.rootPath m) (PackfileManager._writeFreeList m fs)
    = Some (m, PackfileManager._writeFreeList m fs).
Proof.
  intros Hlen Hids.
  assert (Hload : PackfileManager._loadFreeList (PackfileManager.rootPath m)
                    (PackfileManager._writeFreeList m fs)
                  = Some (PackfileManager.freeList m)).
  { unfold PackfileManager._loadFreeList, PackfileManager._writeFreeList.
    rewrite lookup_insert_eq, stream_readInt_writeInt32, wrap32_small, Nat2Z.id by lia.
    rewrite <- (app_nil_r (concat _)), load_entries_written. cbn [app].
    by rewrite map_wrap32_small. }
  split; [done |]. unfold PackfileManager.new. rewrite Hload. by destruct m.
Qed.

Lemma free_list_round_trip_witness :
  PackfileManager._loadFreeList "/repo/"
    (PackfileManager._writeFreeList
       {| PackfileManager.rootPath := "/repo/"; PackfileManager.freeList := [1; 3] |}
       (two_pack_dir [] []))
  = Some [1; 3]
  ∧ PackfileManager.new "/repo/"
      (PackfileManager._writeFreeList
         {| PackfileManager.rootPath := "/repo/"; PackfileManager.freeList := [1; 3] |}
         (two_pack_dir [] []))
    = Some ({| PackfileManager.rootPath := "/repo/"; PackfileManager.freeList := [1; 3] |},
            PackfileManager._writeFreeList
              {| PackfileManager.rootPath := "/repo/"; PackfileManager.freeList := [1; 3] |}
              (two_pack_dir [] [])).
Proof.
  apply (free_list_round_trip
           {| PackfileManager.rootPath := "/repo/"; PackfileManager.freeList := [1; 3] |}
           (two_pack_dir [] [])).
  - simpl. lia.
  - repeat constructor; lia.
Defined.

(** ** The packfile manager: the allocation order in general *)

Lemma newPackfile_step (m : PackfileManager.state) (fs : PackfileManager.FS)
    (id : Z) (rest : list Z) :
  PackfileManager.freeList m = id :: rest →
  ∃ (pf : Packfile.state) (m' : PackfileManager.state) (fs' : PackfileManager.FS),
    PackfileManager.newPackfile m fs = Some (pf, m', fs')
    ∧ Packfile.packid pf = id
    ∧ PackfileManager.rootPath m' = PackfileManager.rootPath m
    ∧ PackfileManager.freeList m' = match rest with [] => [wrap32 (id + 1)] | _ => rest end
    ∧ is_Some (fs' !! PackfileManager._getPackfileName m id)
    ∧ ∀ path c, fs !! path = Some c → fs' !! path = Some c.
Proof.
  intros Hfl. unfold PackfileManager.newPackfile. rewrite Hfl.
  eexists _, _, _. split; [reflexivity |]. cbn. repeat split.
  - by rewrite lookup_insert_eq.
  - intros path c Hc. destruct (decide (PackfileManager._getPackfileName m id = path)) as [<- | Hne].
    + by rewrite lookup_insert_eq, Hc.
    + by rewrite lookup_insert_ne.
Qed.

Lemma take_seqZ_more (n : nat) (l : list Z) (a : Z) (k : nat) :
  (n ≤ length l + k)%nat →
  take n (l ++ seqZ a (Z.of_nat (S k))) = take n (l ++ seqZ a (Z.of_nat k)).
Proof.
  intros Hn. replace (Z.of_nat (S k)) with (Z.of_nat k + 1) by lia.
  rewrite seqZ_app by lia. rewrite (app_assoc l).
  rewrite take_app_le; [done |]. rewrite length_app, length_seqZ. lia.
Qed.

Lemma newPackfiles_order (n : nat) :
  ∀ (m : PackfileManager.state) (fs : PackfileManager.FS) (back : Z),
    last (PackfileManager.freeList m) = Some back →
    0 ≤ back → back + Z.of_nat n < 2 ^ 32 →
    ∃ (m' : PackfileManager.state) (fs' : PackfileManager.FS),
      newPackfiles n m fs
      = Some (take n (PackfileManager.freeList m ++ seqZ (back + 1) (Z.of_nat n)), m', fs')
      ∧ PackfileManager.freeList m' ≠ []
      ∧ PackfileManager.rootPath m' = PackfileManager.rootPath m
      ∧ (∀ path c, fs !! path = Some c → fs' !! path = Some c)
      ∧ ∀ id, id ∈ take n (PackfileManager.freeList m ++ seqZ (back + 1) (Z.of_nat n)) →
              is_Some (fs' !! PackfileManager._getPackfileName m id).
Proof.
  induction n as [| n IH]; intros m fs back Hlast Hback Hlt.
  - exists m, fs. cbn [newPackfiles take]. repeat split; try done.
    + intros Hnil. by rewrite Hnil in Hlast.
    + intros id Hin. by apply elem_of_nil in Hin.
  - destruct (PackfileManager.freeList m) as [| id rest] eqn:Hfl; [done |].
    destruct (newPackfile_step m fs id rest Hfl)
      as (pf & m1 & fs1 & Hnew & Hid & Hroot & Hfl1 & Hfile & Hkeep).
    cbn [newPackfiles]. rewrite Hnew, Hid.
    assert (Hnames : ∀ id', PackfileManager._getPackfileName m1 id'
                            = PackfileManager._getPackfileName m id').
    { intros id'. unfold PackfileManager._getPackfileName. by rewrite Hroot. }
    assert (∃ back1 tl, PackfileManager.freeList m1 = tl
              ∧ last tl = Some back1 ∧ 0 ≤ back1 ∧ back1 + Z.of_nat n < 2 ^ 32
              ∧ take n (tl ++ seqZ (back1 + 1) (Z.of_nat n))
                = take n (rest ++ seqZ (back + 1) (Z.of_nat (S n))))
      as (back1 & tl & Htl & Hlast1 & Hback1 & Hlt1 & Htk).
    { destruct rest as [| id2 rest].
      - cbn in Hlast. injection Hlast as ->. exists (back + 1), [back + 1].
        rewrite Hfl1, wrap32_small by lia. repeat split; try done; try lia.
        cbn [app]. rewrite (seqZ_cons (back + 1) (Z.of_nat (S n))) by lia.
        replace (Z.pred (Z.of_nat (S n))) with (Z.of_nat n) by lia.
        replace (Z.succ (back + 1)) with (back + 1 + 1) by lia.
        done.
      - exists back, (id2 :: rest). rewrite Hfl1. repeat split; try done; try lia.
        symmetry. apply take_seqZ_more. cbn [length]. lia. }
    destruct (IH m1 fs1 back1) as (m' & fs' & Hrun & Hne & Hroot' & Hkeep' & Hfiles);
      [by rewrite Htl | done | done |].
    rewrite Htl in Hrun, Hfiles. rewrite Htk in Hrun, Hfiles.
    exists m', fs'. rewrite Hrun. cbn [app take].
    split; [done |]. split; [done |]. split; [congruence |].
    split; [by eauto |]. intros id' Hin.
    apply elem_of_cons in Hin as [-> | Hin].
    + destruct Hfile as [c Hc]. exists c. by apply Hkeep'.
    + rewrite <- Hnames. by apply Hfiles.
Qed.

(** X10. The order in which ids are handed out: [n] calls of
    [newPackfile] return the ids of the free list, front first, and after
    them the successors of its last id, one by one; no assertion fails, the
    free list is never left empty, every pack handed out has its file, and
    no file that was there loses its contents.  When the free list is
    strictly increasing, as [_recomputeFreeList] makes it, no id is handed
    out twice. *)
Theorem newPackfile_allocation_order (n : nat) (m : PackfileManager.state)
    (fs : PackfileManager.FS) (back : Z) :
  last (PackfileManager.freeList m) = Some back →
  0 ≤ back → back + Z.of_nat n < 2 ^ 32 →
  let ids := take n (PackfileManager.freeList m ++ seqZ (back + 1) (Z.of_nat n)) in
  ∃ (m' : PackfileManager.state) (fs' : PackfileManager.FS),
    newPackfiles n m fs = Some (ids, m', fs')
    ∧ PackfileManager.freeList m' ≠ []
    ∧ (∀ path c, fs !! path = Some c → fs' !! path = Some c)
    ∧ (∀ id, id ∈ ids → is_Some (fs' !! PackfileManager._getPackfileName m id))
    ∧ (StronglySorted Z.lt (PackfileManager.freeList m) → NoDup ids).
Proof.
  intros Hlast Hback Hlt ids.
  destruct (newPackfiles_order n m fs back Hlast Hback Hlt)
    as (m' & fs' & Hrun & Hne & _ & Hkeep & Hfiles).
  exists m', fs'. repeat split; try done.
  intros Hsorted. unfold ids. eapply sublist_NoDup; [| apply sublist_take].
  assert (Hall : StronglySorted Z.lt
                   (PackfileManager.freeList m ++ seqZ (back + 1) (Z.of_nat n))).
  { apply StronglySorted_app_2; [| done |].
    - intros x1 x2 Hx1 Hx2. apply elem_of_seqZ in Hx2.
      destruct (PackfileManager.freeList m) as [| a l _] using rev_ind; [done |].
      rewrite last_snoc in Hlast. injection Hlast as ->.
      apply elem_of_app in Hx1 as [Hx1 | Hx1].
      + apply StronglySorted_app in Hsorted as (Hlt' & _ & _).
        specialize (Hlt' x1 back Hx1). ospecialize (Hlt' _); [by left |]. lia.
      + apply list_elem_of_singleton in Hx1. lia.
    - generalize (back + 1). clear. induction n as [| n IH]; intros a; [constructor |].
      rewrite seqZ_cons by lia. constructor.
      + replace (Z.pred (Z.of_nat (S n))) with (Z.of_nat n) by lia. apply IH.
      + apply Forall_forall. intros x Hx. apply elem_of_seqZ in Hx. lia. }
  clear -Hall. induction Hall as [| x l _ IH Hx]; constructor; [| done].
  intros Hin. rewrite Forall_forall in Hx. specialize (Hx x Hin). lia.
Qed.

Lemma newPackfile_allocation_order_witness :
  let m := {| PackfileManager.rootPath := "/repo/"; PackfileManager.freeList := [1; 3] |} in
  let ids := take 4 (PackfileManager.freeList m ++ seqZ (3 + 1) (Z.of_nat 4)) in
  ∃ (m' : PackfileManager.state) (fs' : PackfileManager.FS),
    newPackfiles 4 m (two_pack_dir [] []) = Some (ids, m', fs')
    ∧ PackfileManager.freeList m' ≠ []
    ∧ (∀ path c, two_pack_dir [] [] !! path = Some c → fs' !! path = Some c)
    ∧ (∀ id, id ∈ ids → is_Some (fs' !! PackfileManager._getPackfileName m id))
    ∧ (StronglySorted Z.lt (PackfileManager.freeList m) → NoDup ids).
Proof.
  apply (newPackfile_allocation_order 4
           {| PackfileManager.rootPath := "/repo/"; PackfileManager.freeList := [1; 3] |}
           (two_pack_dir [] []) 3).
  - reflexivity.
  - lia.
  - simpl. lia.
Defined.

(** ** The packfile manager: recomputing the free list *)












(** ** The packfile manager: the names of the packs *)

Lemma digit_value_char (d : N) :
  (d < 10)%N → digit_value (pretty_N_char d) = Some (Z.of_N d).
Proof.
  intros Hd.
  assert (d = 0 ∨ d = 1 ∨ d = 2 ∨ d = 3 ∨ d = 4 ∨ d = 5 ∨ d = 6 ∨ d = 7 ∨ d = 8 ∨ d = 9)%N
    as Hcases by lia.
  repeat (destruct Hcases as [-> | Hcases]); try subst d; reflexivity.
Qed.

Lemma digit_not_slash (c : ascii) : is_Some (digit_value c) → c ≠ "/"%char.
Proof. intros [d Hd] ->. discriminate Hd. Qed.

(** What the digits of [x], written before [s], are to the scan. *)
Lemma scan_digits_pretty (x : N) :
  (0 < x)%N →
  ∃ p : Z, ∀ (s : string) (a : option Z),
    scan_digits (pretty_N_go x s) a = scan_digits s (Some (default 0 a * p + Z.of_N x)).
Proof.
  induction (N.lt_wf_0 x) as [x _ IH]. intros Hx.
  assert (Hd : (x `mod` 10 < 10)%N) by (apply N.mod_lt; lia).
  pose proof (N.div_mod x 10 ltac:(lia)) as Hdm.
  destruct (decide (x `div` 10 = 0)%N) as [Hz | Hnz].
  - exists 10. intros s a. rewrite pretty_N_go_step, Hz, pretty_N_go_0 by done.
    cbn [scan_digits]. rewrite digit_value_char by done. do 2 f_equal. lia.
  - destruct (IH (x `div` 10)%N) as [p Hp].
    { apply N.div_lt; lia. }
    { lia. }
    exists (10 * p). intros s a. rewrite pretty_N_go_step, Hp by done.
    cbn [scan_digits]. rewrite digit_value_char by done.
    cbn [default from_option id]. do 2 f_equal. lia.
Qed.

Lemma pretty_N_go_app (x : N) :
  ∀ s t : string, pretty_N_go x s +:+ t = pretty_N_go x (s +:+ t).
Proof.
  induction (N.lt_wf_0 x) as [x _ IH]. intros s t.
  destruct (decide (x = 0)%N) as [-> | Hnz]; [by rewrite !pretty_N_go_0 |].
  rewrite (pretty_N_go_step x s), (pretty_N_go_step x (s +:+ t)) by lia.
  rewrite IH by (apply N.div_lt; lia). reflexivity.
Qed.

Lemma pretty_N_go_head (x : N) :
  (0 < x)%N →
  ∀ s : string, ∃ (c : ascii) (s' : string),
    pretty_N_go x s = String c s' ∧ is_Some (digit_value c).
Proof.
  induction (N.lt_wf_0 x) as [x _ IH]. intros Hx s.
  assert (Hd : (x `mod` 10 < 10)%N) by (apply N.mod_lt; lia).
  rewrite pretty_N_go_step by done.
  destruct (decide (x `div` 10 = 0)%N) as [Hz | Hnz].
  - rewrite Hz, pretty_N_go_0. eexists _, _. split; [done |].
    rewrite digit_value_char by done. by eexists.
  - apply IH; [apply N.div_lt; lia | by apply N.neq_0_lt_0].
Qed.

Lemma after_last_slash_pretty (x : N) :
  ∀ s : string, after_last_slash (pretty_N_go x s) = after_last_slash s.
Proof.
  induction (N.lt_wf_0 x) as [x _ IH]. intros s.
  destruct (decide (x = 0)%N) as [-> | Hnz]; [by rewrite !pretty_N_go_0 |].
  assert (Hd : (x `mod` 10 < 10)%N) by (apply N.mod_lt; lia).
  rewrite (pretty_N_go_step x s) by lia. rewrite IH by (apply N.div_lt; lia).
  cbn [after_last_slash]. destruct (after_last_slash s); [done |].
  destruct (decide _) as [Hs | _]; [| done].
  exfalso. revert Hs. apply digit_not_slash. rewrite digit_value_char by done. by eexists.
Qed.

(** A string that starts with a digit is scanned from its first
    character: there is no white space to skip and no sign. *)
Lemma scan_unsigned_digit (c : ascii) (s : string) :
  is_Some (digit_value c) →
  scan_unsigned (String c s)
  = match scan_digits (String c s) None with
    | Some v => Some (wrap32 (Z.min v (2 ^ 64 - 1)))
    | None => None
    end.
Proof.
  intros [d Hd].
  destruct c as [[] [] [] [] [] [] [] []]; try (by vm_compute in Hd); reflexivity.
Qed.

Lemma app_String (c : ascii) (s t : string) : String c s +:+ t = String c (s +:+ t).
Proof. reflexivity. Qed.

Lemma app_Empty (t : string) : "" +:+ t = t.
Proof. reflexivity. Qed.

Lemma after_last_slash_root (r t : string) :
  after_last_slash t = None → after_last_slash ((r +:+ "/") +:+ t) = Some t.
Proof.
  intros Ht. induction r as [| c r IH].
  - rewrite app_Empty, app_String, app_Empty. cbn [after_last_slash].
    rewrite Ht. by destruct (decide _).
  - rewrite !app_String. cbn [after_last_slash]. by rewrite IH.
Qed.

Lemma scan_pack_name (id : Z) :
  0 ≤ id < 2 ^ 32 →
  after_last_slash ("pack" +:+ pretty id +:+ ".pak") = None
  ∧ sscanf_pack ("pack" +:+ pretty id +:+ ".pak") = Some id.
Proof.
  intros Hid. unfold sscanf_pack. rewrite !app_String, app_Empty.
  cbn [strip_prefix after_last_slash].
  repeat (destruct (decide _) as [? | ?]; try done).
  destruct id as [| p | p]; [by vm_compute | | lia].
  unfold pretty, pretty_Z, pretty, pretty_positive, pretty, pretty_N.
  destruct (decide _) as [? | _]; [done |].
  rewrite pretty_N_go_app, app_Empty.
  rewrite after_last_slash_pretty. split; [done |].
  destruct (pretty_N_go_head (N.pos p) ltac:(lia) ".pak") as (c & s' & Hs & Hc).
  destruct (scan_digits_pretty (N.pos p) ltac:(lia)) as [q Hq].
  rewrite Hs, scan_unsigned_digit, <- Hs, Hq by done.
  cbn [scan_digits default from_option id]. cbn [digit_value]. 
  replace (0 * q + Z.of_N (N.pos p)) with (Z.pos p) by lia.
  change (digit_value "."%char) with (@None Z). cbn beta iota.
  rewrite Z.min_l, wrap32_small by lia. done.
Qed.

(** X12. The recovery scan recognises the packs the manager names: for a
    root that ends in a slash and an id that fits 32 bits, [_freeListCB]
    on the path [_getPackfileName] gives records this very id; and the
    free-list file, which lies in the same directory, is not taken for a
    pack. *)
Theorem pack_names_are_scanned (m : PackfileManager.state) (r : string) (id : Z)
    (existing : list Z) :
  PackfileManager.rootPath m = r +:+ "/" →
  0 ≤ id < 2 ^ 32 →
  PackfileManager._freeListCB existing (PackfileManager._getPackfileName m id)
  = existing ++ [id]
  ∧ PackfileManager._freeListCB existing (PackfileManager.rootPath m +:+ PFMGR_FREELIST)
    = existing.
Proof.
  intros Hroot Hid. destruct (scan_pack_name id Hid) as [Hslash Hscan].
  unfold PackfileManager._freeListCB, PackfileManager._getPackfileName, StrUtil_Basename.
  rewrite Hroot. split.
  - rewrite after_last_slash_root by done. by rewrite Hscan.
  - rewrite after_last_slash_root by done. done.
Qed.

Lemma pack_names_are_scanned_witness :
  PackfileManager._freeListCB [0]
    (PackfileManager._getPackfileName
       {| PackfileManager.rootPath := "/repo/"; PackfileManager.freeList := [1; 3] |} 1207)
  = [0] ++ [1207]
  ∧ PackfileManager._freeListCB [0]
      (PackfileManager.rootPath
         {| PackfileManager.rootPath := "/repo/"; PackfileManager.freeList := [1; 3] |}
       +:+ PFMGR_FREELIST)
    = [0].
Proof.
  apply (pack_names_are_scanned
           {| PackfileManager.rootPath := "/repo/"; PackfileManager.freeList := [1; 3] |}
           "/repo" 1207 [0]).
  - reflexivity.
  - lia.
Defined.

(** ** The packfile manager: recovery, then allocation *)



(** ** Packfiles: receiving a batch *)

Lemma readExact_app (a rest : bytes) :
  readExact (length a) (a ++ rest) = Some (a, rest).
Proof.
  unfold readExact. destruct (decide _) as [_ | Hn].
  - by rewrite take_app_length, drop_app_length.
  - rewrite length_app in Hn. lia.
Qed.

Lemma readExact_info (i : ObjectInfo) (rest : bytes) :
  readExact INFO_SIZE (ObjectInfo_toString i ++ rest) = Some (ObjectInfo_toString i, rest).
Proof. rewrite <- (ObjectInfo_toString_length i) at 1. apply readExact_app. Qed.

Lemma fromString_toString (i : ObjectInfo) :
  info_ok i → ObjectInfo_fromString (ObjectInfo_toString i) = i.
Proof.
  intros [Hf Hp]. destruct i as [t f ps h]. cbn [flags payload_size] in *.
  unfold ObjectInfo_fromString, ObjectInfo_toString. cbn [type flags payload_size hash].
  rewrite hash_of_read_app.
  rewrite drop_app_length' by (by rewrite hash_data_length).
  rewrite readInt32_writeInt32.
  replace (HASH_SIZE + 4)%nat with (length (hash_data h ++ writeInt32 (type_code t)))
    by (rewrite length_app, hash_data_length, writeInt32_length; unfold HASH_SIZE; lia).
  rewrite (app_assoc (hash_data h)), drop_app_length, readInt32_writeInt32.
  replace (HASH_SIZE + 8)%nat
    with (length ((hash_data h ++ writeInt32 (type_code t)) ++ writeInt32 f))
    by (rewrite !length_app, hash_data_length, !writeInt32_length; unfold HASH_SIZE; lia).
  rewrite (app_assoc _ (writeInt32 f)), drop_app_length.
  rewrite take_ge by (rewrite length_le_split; lia).
  rewrite le_combine_split. rewrite (wrap32_small f) by done.
  rewrite Z.mod_small by (change (8 * Z.of_nat 8) with 64; lia).
  f_equal. by destruct t.
Qed.

(** The first loop of [receive] on the headers of a batch. *)
Lemma receive_headers_batch (infos : list ObjectInfo) :
  ∀ (payloads : list bytes) (rest : bytes) (off : Z) (sizes : list Z) (hdr : bytes)
    (w : Packfile.World),
    length infos = length payloads →
    Forall info_ok infos →
    Forall (λ p, Z.of_nat (length p) < 2 ^ 32) payloads →
    Packfile.receive_headers (length infos) (wire_headers infos payloads ++ rest)
      off sizes hdr w
    = let es := group_entries (Packfile.packid (Packfile.pf w)) off infos payloads in
      ({| Packfile.pf := Packfile.pf w;
          Packfile.idx := index_all (Packfile.idx w) es;
          Packfile.trace :=
            Packfile.trace w ++ map (λ e, Packfile.EvUpdateEntry (hash (info e)) e) es |},
       Some (rest, sizes ++ map (λ p, Z.of_nat (length p)) payloads,
             hdr ++ (Packfile.commit_headers infos payloads off).1)).
Proof.
  induction infos as [| i infos IH]; intros [| p payloads] rest off sizes hdr w Hl Hok Hsz;
    try done.
  - destruct w. cbn. by rewrite !app_nil_r.
  - apply Forall_cons in Hok as [Hi Hok]. apply Forall_cons in Hsz as [Hp Hsz].
    cbn beta in Hp.
    cbn [length Packfile.receive_headers wire_headers].
    rewrite <- !app_assoc. rewrite readExact_info, stream_readInt_writeInt32.
    rewrite (wrap32_small (Z.of_nat (length p))) by lia.
    rewrite fromString_toString by done.
    rewrite IH by (cbn [length] in Hl; (done || lia)).
    cbn [Packfile.commit_headers group_entries].
    destruct (Packfile.commit_headers infos payloads _) as [ss offsets].
    cbn [fst Packfile.updateEntry Packfile.pf Packfile.idx Packfile.trace map
         index_all foldl info hash].
    rewrite ?(wrap32_small (Z.of_nat (length p))) by lia.
    rewrite <- !app_assoc. reflexivity.
Qed.

(** The second loop of [receive] on the stored bytes of a batch. *)
Lemma receive_payloads_batch (payloads : list bytes) :
  ∀ (rest : bytes) (w : Packfile.World),
    Packfile.receive_payloads (map (λ p, Z.of_nat (length p)) payloads)
      (concat payloads ++ rest) w
    = ({| Packfile.pf :=
            {| Packfile.fd := Packfile.fd (Packfile.pf w) ++ concat payloads;
               Packfile.filename := Packfile.filename (Packfile.pf w);
               Packfile.packid := Packfile.packid (Packfile.pf w);
               Packfile.numObjects :=
                 Packfile.numObjects (Packfile.pf w) + Z.of_nat (length payloads);
               Packfile.fileSize :=
                 Packfile.fileSize (Packfile.pf w) + total_length payloads |};
          Packfile.idx := Packfile.idx w;
          Packfile.trace := Packfile.trace w ++ map Packfile.EvWrite payloads |},
       Some rest).
Proof.
  induction payloads as [| p payloads IH]; intros rest w.
  - destruct w as [[] ? ?]. cbn. unfold total_length. cbn.
    by rewrite !app_nil_r, !Z.add_0_r.
  - cbn [map concat Packfile.receive_payloads]. rewrite Nat2Z.id, <- app_assoc.
    rewrite readExact_app, IH. destruct w as [[fd name id nobj fsz] ix tr].
    cbn [Packfile.sys_write Packfile.add_fileSize Packfile.incr_numObjects
         Packfile.pf Packfile.idx Packfile.trace Packfile.fd Packfile.filename
         Packfile.packid Packfile.numObjects Packfile.fileSize length map].
    rewrite total_length_cons, <- !app_assoc. cbn [app].
    do 2 f_equal. f_equal; lia.
Qed.

(** What [receive] does with the stream of a batch. *)
Lemma receive_batch (infos : list ObjectInfo) (payloads : list bytes) (rest : bytes)
    (w : Packfile.World) :
  length infos = length payloads →
  0 < Z.of_nat (length infos) < 2 ^ 32 →
  Forall info_ok infos →
  Forall (λ p, Z.of_nat (length p) < 2 ^ 32) payloads →
  let t := batch infos payloads in
  Packfile.receive (wire_stream infos payloads ++ rest) w
  = ({| Packfile.pf :=
          {| Packfile.fd :=
               Packfile.fd (Packfile.pf w) ++ header_block t w ++ concat payloads;
             Packfile.filename := Packfile.filename (Packfile.pf w);
             Packfile.packid := Packfile.packid (Packfile.pf w);
             Packfile.numObjects :=
               Packfile.numObjects (Packfile.pf w) + Z.of_nat (length infos);
             Packfile.fileSize :=
               Packfile.fileSize (Packfile.pf w) + Z.of_nat (length (header_block t w))
               + total_length payloads |};
        Packfile.idx := index_all (Packfile.idx w) (commit_entries t w);
        Packfile.trace :=
          Packfile.trace w
          ++ map (λ e, Packfile.EvUpdateEntry (hash (info e)) e) (commit_entries t w)
          ++ Packfile.EvWrite (header_block t w) :: map Packfile.EvWrite payloads |},
     Returned true).
Proof.
  intros Hl Hn Hok Hsz t. unfold Packfile.receive, wire_stream.
  rewrite <- !app_assoc, stream_readInt_writeInt32, wrap32_small by lia.
  destruct (decide _) as [? | _]; [lia |]. rewrite Nat2Z.id.
  rewrite receive_headers_batch by done. cbn zeta. cbn [app].
  fold (header_block t w). unfold header_block, commit_entries, t, batch.
  cbn [PfTransaction.infos PfTransaction.payloads].
  set (off := wrap32 (_ + _ + _)).
  set (hb := writeInt32 _ ++ _).
  rewrite receive_payloads_batch.
  destruct w as [[fd name id nobj fsz] ix tr].
  cbn [Packfile.sys_write Packfile.add_fileSize Packfile.pf Packfile.idx Packfile.trace
       Packfile.fd Packfile.filename Packfile.packid Packfile.numObjects
       Packfile.fileSize].
  rewrite <- Hl, <- !app_assoc. cbn [app]. done.
Qed.

(** X14. [receive] stores a batch as [commit] does: on the stream of a
    batch of [n] objects, [0 < n < 2^32], whose infos fit their serialized
    form and whose stored sizes fit 32 bits, [receive] returns [true] and
    leaves the pack (file, counters) and the index exactly as [commit]
    of a transaction holding the same infos and stored bytes leaves them;
    what follows the batch in the stream is not touched. *)
Theorem receive_stores_as_commit (infos : list ObjectInfo) (payloads : list bytes)
    (rest : bytes) (w : Packfile.World) :
  length infos = length payloads →
  0 < Z.of_nat (length infos) < 2 ^ 32 →
  Forall info_ok infos →
  Forall (λ p, Z.of_nat (length p) < 2 ^ 32) payloads →
  ∃ (t' : PfTransaction.state) (wc wr : Packfile.World),
    Packfile.commit (batch infos payloads) w = Some (t', wc)
    ∧ Packfile.receive (wire_stream infos payloads ++ rest) w = (wr, Returned true)
    ∧ Packfile.pf wr = Packfile.pf wc
    ∧ Packfile.idx wr = Packfile.idx wc.
Proof.
  intros Hl Hn Hok Hsz. eexists _, _, _.
  split; [by apply commit_effect |]. split; [by apply receive_batch |].
  cbn [Packfile.pf Packfile.idx batch PfTransaction.infos PfTransaction.payloads]. done.
Qed.

Lemma receive_stores_as_commit_witness :
  ∃ (t' : PfTransaction.state) (wc wr : Packfile.World),
    Packfile.commit (batch [sample_info Byte.x01 5] [hello]) (fresh_world "pack0.pak" 0)
    = Some (t', wc)
    ∧ Packfile.receive (wire_stream [sample_info Byte.x01 5] [hello] ++ [Byte.xff])
        (fresh_world "pack0.pak" 0) = (wr, Returned true)
    ∧ Packfile.pf wr = Packfile.pf wc
    ∧ Packfile.idx wr = Packfile.idx wc.
Proof.
  apply (receive_stores_as_commit [sample_info Byte.x01 5] [hello] [Byte.xff]
           (fresh_world "pack0.pak" 0)).
  - reflexivity.
  - simpl. lia.
  - repeat constructor; simpl; lia.
  - repeat constructor; simpl; lia.
Defined.

(** ** Packfiles: what [purge] keeps *)

Lemma push_infos_fields (l : list ObjectInfo) :
  ∀ t : PfTransaction.state,
    foldl (λ t i, Packfile.push_info i t) t l
    = {| PfTransaction.infos := PfTransaction.infos t ++ l;
         PfTransaction.payloads := PfTransaction.payloads t;
         PfTransaction.hashToIx := PfTransaction.hashToIx t;
         PfTransaction.totalSize := PfTransaction.totalSize t;
         PfTransaction.committed := PfTransaction.committed t |}.
Proof.
  induction l as [| i l IH]; intros t.
  - destruct t. cbn. by rewrite app_nil_r.
  - cbn [foldl]. rewrite IH. unfold Packfile.push_info. cbn. by rewrite <- app_assoc.
Qed.

Lemma push_payloads_fields (l : list bytes) :
  ∀ t : PfTransaction.state,
    foldl (λ t p, Packfile.push_payload p t) t l
    = {| PfTransaction.infos := PfTransaction.infos t;
         PfTransaction.payloads := PfTransaction.payloads t ++ l;
         PfTransaction.hashToIx := PfTransaction.hashToIx t;
         PfTransaction.totalSize := PfTransaction.totalSize t;
         PfTransaction.committed := PfTransaction.committed t |}.
Proof.
  induction l as [| p l IH]; intros t.
  - destruct t. cbn. by rewrite app_nil_r.
  - cbn [foldl]. rewrite IH. unfold Packfile.push_payload. cbn. by rewrite <- app_assoc.
Qed.

Section Purge.

Variable hset : gset ObjectHash.

(** The header loop of [purge] on the headers of a group. *)
Lemma purge_headers_group (objs : list (ObjectInfo * bytes)) :
  ∀ (i : nat) (off : Z) (rest : bytes) (ss : list Z) (skip : gset nat)
    (tr : PfTransaction.state),
    (i + length objs ≤ length ss)%nat →
    Forall (λ o, info_ok o.1 ∧ Z.of_nat (length o.2) < 2 ^ 32) objs →
    ∃ (ss' : list Z) (skip' : gset nat),
      Packfile.purge_headers (length objs) i hset
        ((Packfile.commit_headers objs.*1 objs.*2 off).1 ++ rest) ss skip tr
      = Some (rest, ss', skip', foldl (λ t i, Packfile.push_info i t) tr (kept hset objs).*1)
      ∧ length ss' = length ss
      ∧ (∀ j, (j < i)%nat → ss' !! j = ss !! j)
      ∧ (∀ k o, objs !! k = Some o → ss' !! (i + k)%nat = Some (Z.of_nat (length o.2)))
      ∧ (∀ j, j ∈ skip' ↔ j ∈ skip ∨ ∃ k o, j = (i + k)%nat ∧ objs !! k = Some o
                                              ∧ hash o.1 ∈ hset).
Proof.
  induction objs as [| [inf p] objs IH]; intros i off rest ss skip tr Hlen Hok.
  - exists ss, skip. cbn. repeat split; try done.
    + by left.
    + intros [? | (k & o & _ & Hk & _)]; done.
  - apply Forall_cons in Hok as [[Hinf Hp] Hok]. cbn [fst snd] in Hinf, Hp.
    cbn [length] in Hlen.
    cbn [length fmap list_fmap fst snd Packfile.commit_headers Packfile.purge_headers].
    destruct (Packfile.commit_headers objs.*1 objs.*2 _) as [hs offsets] eqn:Hhs.
    cbn [fst]. rewrite <- !app_assoc.
    rewrite readExact_info, !stream_readInt_writeInt32, fromString_toString by done.
    rewrite (wrap32_small (Z.of_nat (length p))) by lia.
    set (ss1 := <[i := Z.of_nat (length p)]> ss).
    assert (Hlen1 : length ss1 = length ss) by apply length_insert.
    assert (Hrest : ∀ skip1 tr1,
      ∃ ss' skip',
        Packfile.purge_headers (length objs) (S i) hset (hs ++ rest) ss1 skip1 tr1
        = Some (rest, ss', skip', foldl (λ t i, Packfile.push_info i t) tr1 (kept hset objs).*1)
        ∧ length ss' = length ss
        ∧ (∀ j, (j < i)%nat → ss' !! j = ss !! j)
        ∧ (∀ k o, ((inf, p) :: objs) !! k = Some o
                  → ss' !! (i + k)%nat = Some (Z.of_nat (length o.2)))
        ∧ (∀ j, j ∈ skip' ↔ j ∈ skip1 ∨ ∃ k o, j = (S i + k)%nat ∧ objs !! k = Some o
                                                 ∧ hash o.1 ∈ hset)).
    { intros skip1 tr1.
      destruct (IH (S i) (wrap32 (off + Z.of_nat (length p))) rest ss1 skip1 tr1)
        as (ss' & skip' & Hrun & Hl' & Hlow & Hhigh & Hskip); [lia | done |].
      rewrite Hhs in Hrun. cbn [fst] in Hrun.
      exists ss', skip'. split; [done |]. split; [lia |]. split; [| split; [| done]].
      - intros j Hj. rewrite Hlow by lia. unfold ss1. by rewrite list_lookup_insert_ne by lia.
      - intros [| k] o Ho.
        + injection Ho as <-. rewrite Nat.add_0_r, Hlow by lia.
          unfold ss1. by rewrite list_lookup_insert_eq by lia.
        + cbn in Ho. replace (i + S k)%nat with (S i + k)%nat by lia. by apply Hhigh. }
    cbn [hash]. unfold kept. rewrite filter_cons. cbn [fst]. fold (kept hset objs).
    destruct (decide (hash inf ∈ hset)) as [Hin | Hnotin].
    + destruct (decide (hash inf ∉ hset)) as [? | _]; [done |].
      destruct (Hrest ({[i]} ∪ skip) tr) as (ss' & skip' & Hrun & Hl' & Hlow & Hhigh & Hskip).
      exists ss', skip'. split; [done |]. repeat split; try done.
      * intros Hj. apply Hskip in Hj as [Hj | (k & o & -> & Ho & Hh)].
        -- apply elem_of_union in Hj as [Hj | Hj]; [| by left].
           apply elem_of_singleton in Hj as ->. right. exists 0%nat, (inf, p).
           split; [lia | done].
        -- right. exists (S k), o. split; [lia | done].
      * intros [Hj | (k & o & -> & Ho & Hh)]; apply Hskip.
        -- left. apply elem_of_union. by right.
        -- destruct k as [| k].
           ++ left. rewrite Nat.add_0_r. apply elem_of_union. left. by apply elem_of_singleton.
           ++ right. exists k, o. split; [lia | done].
    + destruct (decide (hash inf ∉ hset)) as [_ | ?]; [| done].
      destruct (Hrest skip (Packfile.push_info inf tr))
        as (ss' & skip' & Hrun & Hl' & Hlow & Hhigh & Hskip).
      exists ss', skip'. split; [done |]. repeat split; try done.
      * intros Hj. apply Hskip in Hj as [Hj | (k & o & -> & Ho & Hh)]; [by left |].
        right. exists (S k), o. split; [lia | done].
      * intros [Hj | (k & o & -> & Ho & Hh)]; apply Hskip; [by left |].
        destruct k as [| k].
        -- injection Ho as <-. done.
        -- right. exists k, o. split; [lia | done].
Qed.

(** The payload loop of [purge] on the stored bytes of a group. *)
Lemma purge_payloads_group (objs : list (ObjectInfo * bytes)) :
  ∀ (i : nat) (rest : bytes) (ss : list Z) (skip : gset nat) (payload : bytes)
    (tr : PfTransaction.state),
    (∀ k o, objs !! k = Some o → ss !! (i + k)%nat = Some (Z.of_nat (length o.2))) →
    (∀ k o, objs !! k = Some o → (i + k)%nat ∈ skip ↔ hash o.1 ∈ hset) →
    Packfile.purge_payloads (length objs) i (concat objs.*2 ++ rest) ss skip payload tr
    = (rest, foldl (λ t p, Packfile.push_payload p t) tr (kept hset objs).*2).
Proof.
  induction objs as [| [inf p] objs IH]; intros i rest ss skip payload tr Hss Hskip; [done |].
  cbn [length fmap list_fmap snd concat Packfile.purge_payloads].
  pose proof (Hss 0%nat (inf, p) eq_refl) as H0. rewrite Nat.add_0_r in H0.
  pose proof (Hskip 0%nat (inf, p) eq_refl) as Hs0. rewrite Nat.add_0_r in Hs0.
  cbn [fst snd] in H0, Hs0. rewrite H0. cbn [default from_option id]. rewrite Nat2Z.id.
  rewrite <- app_assoc, take_app_length, drop_app_length.
  rewrite drop_ge, app_nil_r by (rewrite length_resize; lia).
  assert (Hss' : ∀ k o, objs !! k = Some o
                        → ss !! (S i + k)%nat = Some (Z.of_nat (length o.2))).
  { intros k o Ho. replace (S i + k)%nat with (i + S k)%nat by lia. by apply Hss. }
  assert (Hskip' : ∀ k o, objs !! k = Some o → (S i + k)%nat ∈ skip ↔ hash o.1 ∈ hset).
  { intros k o Ho. replace (S i + k)%nat with (i + S k)%nat by lia. by apply Hskip. }
  unfold kept. rewrite filter_cons. cbn [fst]. fold (kept hset objs).
  destruct (decide (i ∈ skip)) as [Hin | Hnotin].
  - destruct (decide (hash inf ∉ hset)) as [Hn | _]; [by apply Hs0 in Hin |].
    by apply IH.
  - destruct (decide (hash inf ∉ hset)) as [_ | Hn].
    + cbn [fmap list_fmap snd foldl]. by apply IH.
    + apply dec_stable in Hn. by apply Hs0 in Hn.
Qed.

(** The scan of [purge] over a file that is a run of groups. *)
Lemma purge_scan_groups (gs : list (list (ObjectInfo * bytes) * Z)) :
  ∀ (fuel : nat) (ss : list Z) (tr : PfTransaction.state),
    (length gs < fuel)%nat → Forall (λ g, group_ok g.1) gs →
    Packfile.purge_scan fuel hset (pack_bytes gs) ss tr
    = Some (Some {| PfTransaction.infos :=
                      PfTransaction.infos tr ++ (kept hset (concat gs.*1)).*1;
                    PfTransaction.payloads :=
                      PfTransaction.payloads tr ++ (kept hset (concat gs.*1)).*2;
                    PfTransaction.hashToIx := PfTransaction.hashToIx tr;
                    PfTransaction.totalSize := PfTransaction.totalSize tr;
                    PfTransaction.committed := PfTransaction.committed tr |}).
Proof.
  induction gs as [| [objs off] gs IH]; intros fuel ss tr Hfuel Hok.
  - destruct fuel as [| fuel]; [cbn in Hfuel; lia |]. destruct tr. cbn.
    by rewrite !app_nil_r.
  - destruct fuel as [| fuel]; [cbn in Hfuel; lia |].
    apply Forall_cons in Hok as [[Hn Hobjs] Hok]. cbn [fst] in Hn, Hobjs.
    cbn [pack_bytes map concat Packfile.purge_scan]. fold (pack_bytes gs).
    unfold group_bytes. cbn [fst snd]. rewrite <- !app_assoc.
    rewrite stream_readInt_writeInt32, wrap32_small, Nat2Z.id by lia.
    destruct (purge_headers_group objs 0 off (concat objs.*2 ++ pack_bytes gs)
                (resize (length objs) 0 ss) ∅ tr)
      as (ss' & skip' & Hrun & Hl' & _ & Hhigh & Hskip);
      [rewrite length_resize; lia | done |].
    rewrite Hrun.
    rewrite (purge_payloads_group objs 0 (pack_bytes gs) ss' skip' []).
    + rewrite IH by (cbn [length] in Hfuel; (lia || done)).
      rewrite push_payloads_fields, push_infos_fields.
      cbn [PfTransaction.infos PfTransaction.payloads PfTransaction.hashToIx
           PfTransaction.totalSize PfTransaction.committed fmap list_fmap fst concat].
      unfold kept. rewrite filter_app, !fmap_app, <- !app_assoc. done.
    + done.
    + intros k o Ho. rewrite Hskip. split.
      * intros [Hin | (k' & o' & Hk & Ho' & Hh)]; [by apply elem_of_empty in Hin |].
        cbn in Hk. subst k'. congruence.
      * intros Hh. right. by exists k, o.
Qed.

End Purge.

(** [purge] on a run of groups is a [commit] of the objects kept onto the
    file [filename.tmp]. *)
Lemma purge_groups (hset : gset ObjectHash) (tmp : bytes) (w : Packfile.World)
    (gs : list (list (ObjectInfo * bytes) * Z)) :
  Packfile.fd (Packfile.pf w) = pack_bytes gs →
  Forall (λ g, group_ok g.1) gs →
  let objs := kept hset (concat gs.*1) in
  Packfile.purge hset tmp w
  = match Packfile.commit (batch objs.*1 objs.*2)
            {| Packfile.pf :=
                 {| Packfile.fd := tmp;
                    Packfile.filename := Packfile.filename (Packfile.pf w);
                    Packfile.packid := Packfile.packid (Packfile.pf w);
                    Packfile.numObjects := Packfile.numObjects (Packfile.pf w);
                    Packfile.fileSize := Packfile.fileSize (Packfile.pf w) |};
               Packfile.idx := Packfile.idx w; Packfile.trace := Packfile.trace w |} with
    | Some (_, w') => Some (w', Returned (bool_decide (objs = [])))
    | None => None
    end.
Proof.
  intros Hfd Hok objs. unfold Packfile.purge. rewrite Hfd.
  rewrite (purge_scan_groups hset gs).
  2: { unfold pack_bytes. clear. induction gs as [| g gs IH]; [cbn; lia |].
       cbn [map concat length]. rewrite length_app. unfold group_bytes at 1.
       rewrite length_app, writeInt32_length. lia. }
  2: done.
  fold objs. cbn [Packfile.begin PfTransaction.new PfTransaction.infos
                  PfTransaction.payloads PfTransaction.hashToIx PfTransaction.totalSize
                  PfTransaction.committed app].
  unfold Packfile.destroy. cbn [PfTransaction.committed].
  rewrite !commit_effect
    by (cbn [batch PfTransaction.infos PfTransaction.payloads]; by rewrite !length_fmap).
  cbn [fmap option_fmap option_map snd batch PfTransaction.payloads PfTransaction.infos].
  do 3 f_equal. apply bool_decide_ext. rewrite length_fmap. by destruct objs.
Qed.

(** X15. [purge] compacts a pack: on a file that is a run of groups as
    [commit] writes them, it ends without an exception and leaves, after
    what the file [filename.tmp] held, one group with exactly the objects
    whose hash is not in [hset], in the order they had, their infos and
    stored bytes intact; these objects are entered in the index again,
    the result is [true] exactly when none is kept, and [fileSize] and
    [numObjects] are those of the old file plus what was written. *)
Theorem purge_compacts (hset : gset ObjectHash) (tmp : bytes) (w : Packfile.World)
    (gs : list (list (ObjectInfo * bytes) * Z)) :
  Packfile.fd (Packfile.pf w) = pack_bytes gs →
  Forall (λ g, group_ok g.1) gs →
  let objs := kept hset (concat gs.*1) in
  let off := wrap32 (Packfile.fileSize (Packfile.pf w) + NUMOBJS_SIZE
                     + wrap64 (Z.of_nat (length objs) * ENTRYSIZE)) in
  ∃ w' : Packfile.World,
    Packfile.purge hset tmp w = Some (w', Returned (bool_decide (objs = [])))
    ∧ Packfile.fd (Packfile.pf w') = tmp ++ group_bytes (objs, off)
    ∧ Packfile.idx w'
      = index_all (Packfile.idx w)
          (group_entries (Packfile.packid (Packfile.pf w)) off objs.*1 objs.*2)
    ∧ Packfile.numObjects (Packfile.pf w')
      = Packfile.numObjects (Packfile.pf w) + Z.of_nat (length objs)
    ∧ Packfile.fileSize (Packfile.pf w')
      = Packfile.fileSize (Packfile.pf w) + Z.of_nat (length (group_bytes (objs, off))).
Proof.
  intros Hfd Hok objs off. rewrite (purge_groups hset tmp w gs Hfd Hok). fold objs.
  rewrite commit_effect
    by (cbn [batch PfTransaction.infos PfTransaction.payloads]; by rewrite !length_fmap).
  eexists. split; [reflexivity |].
  unfold header_block, commit_entries, group_bytes.
  cbn [Packfile.pf Packfile.fd Packfile.filename Packfile.packid Packfile.numObjects
       Packfile.fileSize Packfile.idx Packfile.trace batch PfTransaction.infos
       PfTransaction.payloads fst snd].
  rewrite !length_fmap. fold off. repeat split; try done.
  rewrite !length_app. unfold total_length. lia.
Qed.

Lemma purge_compacts_witness :
  let objs := kept {[ sample_hash Byte.x01 ]}
                (concat [([(sample_info Byte.x01 5, hello);
                           (sample_info Byte.x02 61, replicate 56 Byte.x00 ++ hello)],
                          116)].*1) in
  let off := wrap32 (Packfile.fileSize (Packfile.pf two_object_pack) + NUMOBJS_SIZE
                     + wrap64 (Z.of_nat (length objs) * ENTRYSIZE)) in
  ∃ w' : Packfile.World,
    Packfile.purge {[ sample_hash Byte.x01 ]} [] two_object_pack
    = Some (w', Returned (bool_decide (objs = [])))
    ∧ Packfile.fd (Packfile.pf w') = [] ++ group_bytes (objs, off)
    ∧ Packfile.idx w'
      = index_all (Packfile.idx two_object_pack)
          (group_entries (Packfile.packid (Packfile.pf two_object_pack)) off
             objs.*1 objs.*2)
    ∧ Packfile.numObjects (Packfile.pf w')
      = Packfile.numObjects (Packfile.pf two_object_pack) + Z.of_nat (length objs)
    ∧ Packfile.fileSize (Packfile.pf w')
      = Packfile.fileSize (Packfile.pf two_object_pack)
        + Z.of_nat (length (group_bytes (objs, off))).
Proof.
  apply (purge_compacts {[ sample_hash Byte.x01 ]} [] two_object_pack
           [([(sample_info Byte.x01 5, hello);
              (sample_info Byte.x02 61, replicate 56 Byte.x00 ++ hello)], 116)]).
  - vm_compute. reflexivity.
  - repeat constructor; simpl; lia.
Defined.

(** ** Packfiles: the blocks [transmit] reads *)

Lemma upper_bound_all (k : Z) (B : Packfile.Blocks) :
  Forall (λ kv, kv.1 ≤ k) B → Packfile.upper_bound k B = length B.
Proof.
  induction 1 as [| [a b] B Ha _ IH]; [done |].
  cbn [Packfile.upper_bound length fst] in *.
  destruct (decide (k < a)); [lia |]. by rewrite IH.
Qed.

Lemma blocks_set_end (k v : Z) (B : Packfile.Blocks) :
  Forall (λ kv, kv.1 < k) B → Packfile.blocks_set k v B = B ++ [(k, v)].
Proof.
  induction 1 as [| [a b] B Ha _ IH]; [done |].
  cbn [Packfile.blocks_set fst app] in *.
  destruct (decide (k < a)); [lia |]. destruct (decide (k = a)); [lia |]. by rewrite IH.
Qed.

Lemma blocks_set_last (a b v : Z) (B : Packfile.Blocks) :
  Forall (λ kv, kv.1 < a) B →
  Packfile.blocks_set a v (B ++ [(a, b)]) = B ++ [(a, v)].
Proof.
  induction 1 as [| [a' b'] B Ha _ IH].
  - cbn. destruct (decide (a < a)); [lia |]. by destruct (decide (a = a)).
  - cbn [Packfile.blocks_set fst app] in *.
    destruct (decide (a < a')); [lia |]. destruct (decide (a = a')); [lia |]. by rewrite IH.
Qed.

Lemma blocks_find_none (k : Z) (B : Packfile.Blocks) :
  Forall (λ kv, kv.1 < k) B → Packfile.blocks_find k B = None.
Proof.
  induction 1 as [| [a b] B Ha _ IH]; [done |].
  cbn [Packfile.blocks_find fst] in *. destruct (decide (k = a)); [lia | done].
Qed.

Lemma fdstream_length (file : bytes) (off len : Z) :
  0 ≤ off → 0 ≤ len → off + len ≤ Z.of_nat (length file) →
  Z.of_nat (length (Packfile.fdstream file off len)) = len.
Proof.
  intros Hoff Hlen Hin. unfold Packfile.fdstream. rewrite length_take, length_drop. lia.
Qed.

Lemma fdstream_join (file : bytes) (a b c : Z) :
  0 ≤ a → a ≤ b → b ≤ c →
  Packfile.fdstream file a (c - a)
  = Packfile.fdstream file a (b - a) ++ Packfile.fdstream file b (c - b).
Proof.
  intros Ha Hab Hbc. unfold Packfile.fdstream.
  replace (Z.to_nat (c - a)) with (Z.to_nat (b - a) + Z.to_nat (c - b))%nat by lia.
  rewrite <- take_take_drop. rewrite drop_drop. do 3 f_equal. lia.
Qed.

Lemma blocks_inv_mono (hi hi' : Z) (B : Packfile.Blocks) :
  hi ≤ hi' → blocks_inv hi B → blocks_inv hi' B.
Proof.
  intros Hle [Hs Hr]. split; [done |]. eapply Forall_impl; [exact Hr |].
  intros [a b]. cbn. lia.
Qed.

Lemma blocks_inv_keys (hi : Z) (B : Packfile.Blocks) :
  blocks_inv hi B → Forall (λ kv, kv.1 < hi) B.
Proof. intros [_ Hr]. eapply Forall_impl; [exact Hr |]. intros [a b]. cbn. lia. Qed.

Lemma blocks_inv_snoc (hi k v : Z) (B : Packfile.Blocks) :
  blocks_inv hi B → 0 ≤ k → hi ≤ k → k < v → blocks_inv v (B ++ [(k, v)]).
Proof.
  intros [Hs Hr] H0 Hk Hv. split.
  - apply StronglySorted_app_2; [| done | repeat constructor].
    intros x1 x2 Hx1 Hx2. apply list_elem_of_singleton in Hx2 as ->. cbn.
    rewrite Forall_forall in Hr. specialize (Hr x1 Hx1). cbn in Hr. lia.
  - apply Forall_app. split.
    + eapply Forall_impl; [exact Hr |]. intros [a b]. cbn. lia.
    + apply Forall_singleton. cbn. lia.
Qed.

Lemma blocks_inv_last (hi a b : Z) (B : Packfile.Blocks) :
  blocks_inv hi (B ++ [(a, b)]) → blocks_inv a B ∧ 0 ≤ a ∧ a < b ∧ b ≤ hi.
Proof.
  intros [Hs Hr]. apply StronglySorted_app in Hs as (Hlt & Hs & _).
  apply Forall_app in Hr as [Hr Hab]. rewrite Forall_singleton in Hab. cbn in Hab.
  split; [| lia]. split; [done |]. apply Forall_forall. intros [a' b'] Hin.
  rewrite Forall_forall in Hr. specialize (Hr _ Hin). cbn in Hr.
  specialize (Hlt (a', b') (a, b) Hin). ospecialize (Hlt _); [by left |]. cbn in *. lia.
Qed.

Lemma in_order_bounds (size : Z) (objs : list IndexEntry) :
  ∀ lo : Z,
    0 ≤ lo → in_order lo size objs →
    lo ≤ size
    ∧ Forall (λ e, 0 ≤ offset e ∧ 0 ≤ packed_size e ∧ offset e + packed_size e ≤ size) objs.
Proof.
  induction objs as [| e objs IH]; intros lo H0 Hord; [by split |].
  destruct Hord as (Hlo & Hs & Hord). destruct (IH (offset e + packed_size e)) as [Hle Hall]; [lia | done |].
  split; [lia |]. constructor; [cbn beta; lia | done].
Qed.

(** One object more, at or past the end of the blocks so far. *)
Lemma add_block_in_order (file : bytes) (e : IndexEntry) (hi : Z) (B : Packfile.Blocks) :
  blocks_inv hi B → 0 ≤ hi → hi ≤ offset e → 0 ≤ packed_size e →
  offset e + packed_size e ≤ Z.of_nat (length file) →
  Z.of_nat (length file) < 2 ^ 32 →
  ∃ B' : Packfile.Blocks,
    Packfile.add_block e B = Some B'
    ∧ blocks_inv (offset e + packed_size e) B'
    ∧ block_bytes file B' = block_bytes file B ++ stored file e.
Proof.
  intros Hinv H0 Hhi Hs Hin Hfile. unfold Packfile.add_block.
  rewrite wrap32_small by lia.
  destruct (decide (packed_size e = 0)) as [Hz | Hnz].
  { exists B. split; [done |]. split; [by apply (blocks_inv_mono hi); [lia |] |].
    unfold stored, Packfile.fdstream. rewrite Hz. cbn. by rewrite app_nil_r. }
  assert (Hnew : block_bytes file (B ++ [(offset e, offset e + packed_size e)])
                 = block_bytes file B ++ stored file e).
  { unfold block_bytes. rewrite map_app, concat_app. cbn [map concat fst snd].
    rewrite app_nil_r. unfold stored. do 2 f_equal. lia. }
  destruct B as [| [a b] B _] using rev_ind.
  { cbn [length]. destruct (decide _) as [_ | ?]; [| done].
    eexists. split; [reflexivity |]. split; [| exact Hnew].
    apply (blocks_inv_snoc hi _ _ []); [done | lia | lia | lia]. }
  destruct (decide (length (B ++ [(a, b)]) = 0%nat)) as [Hl | _].
  { rewrite length_app in Hl. cbn in Hl. lia. }
  pose proof (blocks_inv_keys _ _ Hinv) as Hkeys.
  destruct (blocks_inv_last _ _ _ _ Hinv) as (HinvB & Ha & Hab & Hb).
  pose proof (blocks_inv_keys _ _ HinvB) as HkeysB.
  rewrite upper_bound_all.
  2: { eapply Forall_impl; [exact Hkeys |]. intros [a' b']. cbn. lia. }
  rewrite length_app. cbn [length]. rewrite Nat.add_1_r.
  rewrite lookup_app_r, Nat.sub_diag by lia. cbn [lookup list_lookup].
  destruct (decide (b = offset e)) as [Hbe | Hbe].
  - rewrite blocks_set_last by done.
    assert (Hfind : Packfile.blocks_find (offset e + packed_size e)
                      (B ++ [(a, offset e + packed_size e)]) = None).
    { apply blocks_find_none, Forall_app. split.
      - eapply Forall_impl; [exact HkeysB |]. intros [a' b']. cbn. lia.
      - apply Forall_singleton. cbn. lia. }
    cbn [Packfile.join_blocks]. rewrite Hfind.
    eexists. split; [reflexivity |]. split.
    + apply (blocks_inv_snoc a); [done | lia | lia | lia].
    + unfold block_bytes. rewrite !map_app, !concat_app. cbn [map concat fst snd].
      rewrite !app_nil_r, <- app_assoc. f_equal. unfold stored.
      rewrite (fdstream_join file a b) by lia. f_equal. subst b. f_equal. lia.
  - rewrite blocks_set_end.
    2: { eapply Forall_impl; [exact Hkeys |]. intros [a' b']. cbn. lia. }
    assert (Hfind : Packfile.blocks_find (offset e + packed_size e)
                      ((B ++ [(a, b)]) ++ [(offset e, offset e + packed_size e)]) = None).
    { apply blocks_find_none, Forall_app. split.
      - eapply Forall_impl; [exact Hkeys |]. intros [a' b']. cbn. lia.
      - apply Forall_singleton. cbn. lia. }
    cbn [Packfile.join_blocks]. rewrite Hfind.
    eexists. split; [reflexivity |]. split; [| exact Hnew].
    apply (blocks_inv_snoc hi); [done | lia | lia | lia].
Qed.

(** The first loop of [transmit] on objects that lie in order. *)
Lemma find_blocks_in_order (file : bytes) (objs : list IndexEntry) :
  ∀ (hi : Z) (B : Packfile.Blocks),
    blocks_inv hi B → 0 ≤ hi →
    in_order hi (Z.of_nat (length file)) objs →
    Z.of_nat (length file) < 2 ^ 32 →
    ∃ B' : Packfile.Blocks,
      Packfile.find_blocks objs B = Some B'
      ∧ blocks_inv (Z.of_nat (length file)) B'
      ∧ block_bytes file B' = block_bytes file B ++ concat (map (stored file) objs).
Proof.
  induction objs as [| e objs IH]; intros hi B Hinv H0 Hord Hfile.
  - exists B. cbn in *. split; [done |]. split; [| by rewrite app_nil_r].
    by apply (blocks_inv_mono hi).
  - destruct Hord as (Hlo & Hs & Hord).
    assert (Hend : offset e + packed_size e ≤ Z.of_nat (length file)).
    { clear -Hord. revert Hord. generalize (offset e + packed_size e).
      induction objs as [| e' objs IH]; intros lo Hord; [done |].
      destruct Hord as (? & ? & Hord). apply IH in Hord. lia. }
    destruct (add_block_in_order file e hi B) as (B1 & Hadd & Hinv1 & Hbytes1); try done.
    destruct (IH _ B1 Hinv1) as (B' & Hfind & Hinv' & Hbytes'); [lia | done | done |].
    exists B'. cbn [Packfile.find_blocks]. rewrite Hadd. split; [done |]. split; [done |].
    rewrite Hbytes', Hbytes1. cbn [map concat]. by rewrite <- app_assoc.
Qed.

Lemma transmit_blocks_bytes (file : bytes) (B : Packfile.Blocks) :
  blocks_inv (Z.of_nat (length file)) B →
  Packfile.transmit_blocks file B = Returned (block_bytes file B).
Proof.
  intros [_ Hr]. induction Hr as [| [a b] B Hab _ IH]; [done |].
  cbn [fst snd] in Hab. cbn [Packfile.transmit_blocks].
  destruct (decide (b >= a)) as [_ | ?]; [| lia].
  pose proof (fdstream_length file a (b - a)) as Hlen. unfold Packfile.fdstream in Hlen.
  destruct (decide _) as [_ | Hn]; [| by rewrite Hlen in Hn by lia].
  by rewrite IH.
Qed.

Lemma transmit_infos_wire (file : bytes) (objs : list IndexEntry) :
  ∀ lo : Z,
    0 ≤ lo → in_order lo (Z.of_nat (length file)) objs →
    Packfile.transmit_infos objs
    = wire_headers (map info objs) (map (stored file) objs)
    ∧ Forall (λ p, Z.of_nat (length p) < Z.of_nat (length file) + 1)
        (map (stored file) objs).
Proof.
  induction objs as [| e objs IH]; intros lo H0 Hord; [by split |].
  destruct Hord as (Hlo & Hs & Hord).
  assert (Hend : offset e + packed_size e ≤ Z.of_nat (length file)).
  { clear -Hord. revert Hord. generalize (offset e + packed_size e).
    induction objs as [| e' objs IH]; intros lo Hord; [done |].
    destruct Hord as (? & ? & Hord). apply IH in Hord. lia. }
  destruct (IH (offset e + packed_size e)) as [Hw Hl]; [lia | done |].
  cbn [Packfile.transmit_infos map wire_headers]. rewrite Hw.
  assert (Hlen : Z.of_nat (length (stored file e)) = packed_size e)
    by (apply fdstream_length; lia).
  rewrite Hlen. split; [done |]. constructor; [| done]. rewrite Hlen. lia.
Qed.

(** What [transmit] sends for objects whose sorted order is without
    overlap. *)
Lemma transmit_stream (objects : list IndexEntry) (src : Packfile.state) :
  let sorted := merge_sort Packfile.offset_order objects in
  Z.of_nat (length (Packfile.fd src)) < 2 ^ 32 →
  in_order 0 (Z.of_nat (length (Packfile.fd src))) sorted →
  Packfile.transmit objects src
  = Some (Returned (wire_stream (map info sorted) (map (stored (Packfile.fd src)) sorted)))
  ∧ Forall (λ p, Z.of_nat (length p) < 2 ^ 32) (map (stored (Packfile.fd src)) sorted).
Proof.
  intros sorted Hfile Hord. unfold Packfile.transmit. fold sorted.
  destruct (find_blocks_in_order (Packfile.fd src) sorted 0 [])
    as (B & Hfind & Hinv & Hbytes); try done.
  { split; constructor. }
  destruct (transmit_infos_wire (Packfile.fd src) sorted 0) as [Hw Hl]; try done.
  rewrite Hfind, transmit_blocks_bytes, Hbytes, Hw by done.
  split.
  - unfold wire_stream. by rewrite length_map.
  - eapply Forall_impl; [exact Hl |]. intros p. cbn. lia.
Qed.



(** X17. An object sent by [transmit] and stored by [receive] reads back
    the same: under the conditions of X16, when the receiving pack has
    room for the batch below [2^32], its [fileSize] is the size of its
    file, and no two of the objects have the same hash, the index of the
    receiver holds for each object an entry with the same info, in the
    receiving pack, and [getPayload] on it gives what [getPayload] gives
    on the object in the source pack. *)
Theorem transmitted_object_reads_back (tn : Tuneables) (zip : Zip)
    (objects : list IndexEntry) (src : Packfile.state) (w : Packfile.World)
    (rest : bytes) (e : IndexEntry) :
  let sorted := merge_sort Packfile.offset_order objects in
  0 < Z.of_nat (length objects) < 2 ^ 32 →
  Z.of_nat (length (Packfile.fd src)) < 2 ^ 32 →
  in_order 0 (Z.of_nat (length (Packfile.fd src))) sorted →
  Forall (λ e, info_ok (info e)) objects →
  NoDup (map (λ e, hash (info e)) objects) →
  Packfile.fileSize (Packfile.pf w) = Z.of_nat (length (Packfile.fd (Packfile.pf w))) →
  Packfile.fileSize (Packfile.pf w) + NUMOBJS_SIZE
    + ENTRYSIZE * Z.of_nat (length objects)
    + total_length (map (stored (Packfile.fd src)) sorted) < 2 ^ 32 →
  e ∈ objects →
  packfile e = Packfile.packid src →
  ∃ (stream : bytes) (wr : Packfile.World) (e' : IndexEntry),
    Packfile.transmit objects src = Some (Returned stream)
    ∧ Packfile.receive (stream ++ rest) w = (wr, Returned true)
    ∧ Packfile.idx wr !! hash (info e) = Some e'
    ∧ info e' = info e
    ∧ packfile e' = Packfile.packid (Packfile.pf wr)
    ∧ Packfile.getPayload tn zip e' (Packfile.pf wr) = Packfile.getPayload tn zip e src.
Proof.
  intros sorted Hn Hfile Hord Hok Hnd Hwf Hroom He Hid.
  destruct (transmit_stream objects src Hfile Hord) as [Htr Hsz]. fold sorted in Htr, Hsz.
  assert (Hperm : sorted ≡ₚ objects) by apply merge_sort_Permutation.
  set (infos := map info sorted) in *.
  set (payloads := map (stored (Packfile.fd src)) sorted) in *.
  assert (Hl : length infos = length payloads)
    by (unfold infos, payloads; by rewrite !length_map).
  assert (Hlen : length infos = length objects)
    by (unfold infos; by rewrite length_map, Hperm).
  assert (Hn' : 0 < Z.of_nat (length infos) < 2 ^ 32) by (by rewrite Hlen).
  assert (Hok' : Forall info_ok infos).
  { unfold infos. apply Forall_map. by rewrite Hperm. }
  pose proof (receive_batch infos payloads rest w Hl Hn' Hok' Hsz) as Hrecv.
  cbn zeta in Hrecv.
  assert (He' : e ∈ sorted) by (by rewrite Hperm).
  apply list_elem_of_split in He' as (l1 & l2 & Hsplit).
  assert (Hnd' : NoDup (map (λ e, hash (info e)) sorted)) by (by rewrite Hperm).
  rewrite Hsplit, map_app in Hnd'. cbn [map] in Hnd'.
  apply NoDup_app in Hnd' as (_ & _ & Hnd'). apply NoDup_cons in Hnd' as [Hnotin _].
  assert (Hinfos : infos = map info l1 ++ info e :: map info l2).
  { unfold infos. by rewrite Hsplit, map_app. }
  assert (Hpayloads : payloads = map (stored (Packfile.fd src)) l1
                                 ++ stored (Packfile.fd src) e
                                 :: map (stored (Packfile.fd src)) l2).
  { unfold payloads. by rewrite Hsplit, map_app. }
  set (pre := map (stored (Packfile.fd src)) l1) in *.
  set (post := map (stored (Packfile.fd src)) l2) in *.
  set (sp := stored (Packfile.fd src) e) in *.
  set (n := Z.of_nat (length infos)) in *.
  pose proof (total_length_nonneg payloads) as Htl.
  assert (Hoff : wrap32 (Packfile.fileSize (Packfile.pf w) + NUMOBJS_SIZE
                         + wrap64 (n * ENTRYSIZE))
                 = Packfile.fileSize (Packfile.pf w) + NUMOBJS_SIZE + ENTRYSIZE * n).
  { unfold n in *. rewrite Hlen in *. pack_widths.
    rewrite wrap64_small, wrap32_small by lia. lia. }
  set (off := Packfile.fileSize (Packfile.pf w) + NUMOBJS_SIZE + ENTRYSIZE * n) in *.
  set (e' := {| info := info e; offset := off + total_length pre;
                packed_size := Z.of_nat (length sp);
                packfile := Packfile.packid (Packfile.pf w) |}).
  assert (Hentries : ∃ es1 es2, commit_entries (batch infos payloads) w = es1 ++ e' :: es2
                                ∧ Forall (λ e0, hash (info e0) ≠ hash (info e')) es2).
  { unfold commit_entries. cbn [batch PfTransaction.infos PfTransaction.payloads].
    fold n. rewrite Hoff. fold off. rewrite Hinfos, Hpayloads.
    rewrite group_entries_split.
    - eexists _, _. split; [reflexivity |]. apply group_entries_hashes.
      apply Forall_map, Forall_forall. intros e0 Hin0 Heq. apply Hnotin.
      cbn [e' info] in Heq. rewrite <- Heq. apply list_elem_of_fmap. by exists e0.
    - unfold pre. by rewrite !length_map.
    - unfold off, n. pack_widths. lia.
    - rewrite Hpayloads in Hroom. rewrite total_length_app, total_length_cons in Hroom.
      rewrite total_length_app, total_length_cons.
      pose proof (total_length_nonneg post). change (total_length []) with 0.
      unfold off, n in *. rewrite Hlen. pack_widths. lia. }
  destruct Hentries as (es1 & es2 & Hes & Hne).
  eexists _, _, e'. split; [exact Htr |]. split; [exact Hrecv |].
  cbn [Packfile.idx Packfile.pf Packfile.packid]. rewrite Hes.
  split; [exact (index_all_last _ es1 es2 e' Hne) |]. split; [done |]. split; [done |].
  destruct (in_order_bounds _ _ 0 ltac:(lia) Hord) as [_ Hbounds].
  rewrite Forall_forall in Hbounds. specialize (Hbounds e).
  ospecialize (Hbounds _); [rewrite Hsplit; apply elem_of_app; right; by left |].
  assert (Hsp : Z.of_nat (length sp) = packed_size e) by (apply fdstream_length; lia).
  assert (Hread : Packfile.fdstream
            (Packfile.fd (Packfile.pf w) ++ header_block (batch infos payloads) w
             ++ concat payloads) (offset e') (packed_size e') = sp).
  { rewrite Hpayloads at 2. rewrite concat_app. cbn [concat].
    set (hb := header_block _ _).
    replace (Packfile.fd (Packfile.pf w) ++ hb ++ concat pre ++ sp ++ concat post)
      with ((Packfile.fd (Packfile.pf w) ++ hb ++ concat pre) ++ sp ++ concat post)
      by (by rewrite <- !app_assoc).
    replace (offset e')
      with (Z.of_nat (length (Packfile.fd (Packfile.pf w) ++ hb ++ concat pre))).
    - apply fdstream_middle.
    - cbn [e' offset]. unfold hb. rewrite !length_app, !Nat2Z.inj_add, header_block_length by done.
      cbn [batch PfTransaction.infos]. fold n. unfold off, total_length. rewrite Hwf. lia. }
  unfold Packfile.getPayload. cbn [Packfile.packid Packfile.fd Packfile.pf].
  rewrite Hread. cbn [e' packfile info].
  destruct (decide _) as [_ | ?]; [| done]. destruct (decide _) as [_ | ?]; [| done].
  done.
Qed.

Lemma transmitted_object_reads_back_witness :
  let objects :=
    [ {| info := sample_info Byte.x02 61; offset := 121; packed_size := 61; packfile := 0 |};
      {| info := sample_info Byte.x01 5; offset := 116; packed_size := 5; packfile := 0 |} ] in
  let e := {| info := sample_info Byte.x01 5; offset := 116; packed_size := 5;
              packfile := 0 |} in
  ∃ (stream : bytes) (wr : Packfile.World) (e' : IndexEntry),
    Packfile.transmit objects (Packfile.pf two_object_pack) = Some (Returned stream)
    ∧ Packfile.receive (stream ++ []) (fresh_world "pack1.pak" 1) = (wr, Returned true)
    ∧ Packfile.idx wr !! hash (info e) = Some e'
    ∧ info e' = info e
    ∧ packfile e' = Packfile.packid (Packfile.pf wr)
    ∧ Packfile.getPayload (tuneables false 512) tag_zip e' (Packfile.pf wr)
      = Packfile.getPayload (tuneables false 512) tag_zip e (Packfile.pf two_object_pack).
Proof.
  apply (transmitted_object_reads_back (tuneables false 512) tag_zip
           [ {| info := sample_info Byte.x02 61; offset := 121; packed_size := 61;
                packfile := 0 |};
             {| info := sample_info Byte.x01 5; offset := 116; packed_size := 5;
                packfile := 0 |} ]
           (Packfile.pf two_object_pack) (fresh_world "pack1.pak" 1) []
           {| info := sample_info Byte.x01 5; offset := 116; packed_size := 5;
              packfile := 0 |}).
  - simpl. lia.
  - vm_compute. reflexivity.
  - vm_compute. repeat split; discriminate.
  - repeat constructor; simpl; lia.
  - apply (bool_decide_unpack _). vm_compute. exact I.
  - reflexivity.
  - vm_compute. reflexivity.
  - right. left.
  - reflexivity.
Defined.

(** ** Packfiles: a stream that ends early *)

Lemma receive_payloads_short (sizes : list Z) :
  ∀ (cut : bytes) (w : Packfile.World),
    Forall (λ z, 0 ≤ z) sizes →
    Z.of_nat (length cut) < foldr Z.add 0 sizes →
    ∃ w' : Packfile.World,
      Packfile.receive_payloads sizes cut w = (w', None)
      ∧ Packfile.idx w' = Packfile.idx w
      ∧ (length (Packfile.fd (Packfile.pf w'))
         ≤ length (Packfile.fd (Packfile.pf w)) + length cut)%nat.
Proof.
  induction sizes as [| z sizes IH]; intros cut w Hpos Hlt.
  - cbn in Hlt. lia.
  - apply Forall_cons in Hpos as [Hz Hpos]. cbn [foldr] in Hlt.
    cbn [Packfile.receive_payloads]. unfold readExact.
    destruct (decide (Z.to_nat z ≤ length cut)%nat) as [Hfit | Hshort].
    + destruct (IH (drop (Z.to_nat z) cut)
                  (Packfile.incr_numObjects
                     (Packfile.add_fileSize z
                        (Packfile.sys_write (take (Z.to_nat z) cut) w))))
        as (w' & Hrun & Hidx & Hlen); [done | rewrite length_drop; lia |].
      exists w'. split; [done |]. split; [by rewrite Hidx |].
      revert Hlen. cbn [Packfile.incr_numObjects Packfile.add_fileSize Packfile.sys_write
                        Packfile.pf Packfile.fd].
      rewrite length_app, length_take, length_drop. lia.
    + exists w. split; [done |]. split; [done |]. lia.
Qed.

Lemma total_length_sizes (payloads : list bytes) :
  foldr Z.add 0 (map (λ p, Z.of_nat (length p)) payloads) = total_length payloads.
Proof.
  induction payloads as [| p payloads IH]; [done |].
  cbn [map foldr]. rewrite IH, total_length_cons. done.
Qed.

(** X18. [receive] is not undone when the stream ends early: on a stream
    that holds the count and the headers of a batch but fewer bytes than
    the headers announce, [receive] throws, and by then the index has an
    entry for every object of the batch although the file is shorter than
    the batch needs. *)
Theorem receive_cut_short (infos : list ObjectInfo) (payloads : list bytes)
    (cut : bytes) (w : Packfile.World) :
  length infos = length payloads →
  0 < Z.of_nat (length infos) < 2 ^ 32 →
  Forall info_ok infos →
  Forall (λ p, Z.of_nat (length p) < 2 ^ 32) payloads →
  Z.of_nat (length cut) < total_length payloads →
  ∃ w' : Packfile.World,
    Packfile.receive
      (writeInt32 (Z.of_nat (length infos)) ++ wire_headers infos payloads ++ cut) w
    = (w', Thrown)
    ∧ Packfile.idx w'
      = index_all (Packfile.idx w) (commit_entries (batch infos payloads) w)
    ∧ Z.of_nat (length (Packfile.fd (Packfile.pf w')))
      < Z.of_nat (length (Packfile.fd (Packfile.pf w)))
        + NUMOBJS_SIZE + ENTRYSIZE * Z.of_nat (length infos) + total_length payloads.
Proof.
  intros Hl Hn Hok Hsz Hcut. unfold Packfile.receive.
  rewrite stream_readInt_writeInt32, wrap32_small by lia.
  destruct (decide _) as [? | _]; [lia |]. rewrite Nat2Z.id.
  rewrite receive_headers_batch by done. cbn zeta. cbn [app].
  set (hdr := writeInt32 _ ++ _).
  assert (Hhdr : Z.of_nat (length hdr)
                 = NUMOBJS_SIZE + ENTRYSIZE * Z.of_nat (length infos)).
  { unfold hdr. rewrite length_app, writeInt32_length, Nat2Z.inj_add.
    rewrite commit_headers_length by done. reflexivity. }
  match goal with
  | |- context [Packfile.receive_payloads ?s ?c ?w0] =>
      destruct (receive_payloads_short s c w0) as (w' & Hrun & Hidx & Hlen)
  end.
  { apply Forall_map, Forall_forall. intros p _. cbn. lia. }
  { by rewrite total_length_sizes. }
  rewrite Hrun. exists w'. split; [done |]. split.
  - rewrite Hidx. reflexivity.
  - revert Hlen. cbn [Packfile.add_fileSize Packfile.sys_write Packfile.pf Packfile.fd].
    rewrite length_app. lia.
Qed.

Lemma receive_cut_short_witness :
  ∃ w' : Packfile.World,
    Packfile.receive
      (writeInt32 (Z.of_nat (length [sample_info Byte.x01 5]))
       ++ wire_headers [sample_info Byte.x01 5] [hello] ++ [Byte.x68; Byte.x65])
      (fresh_world "pack0.pak" 0)
    = (w', Thrown)
    ∧ Packfile.idx w'
      = index_all (Packfile.idx (fresh_world "pack0.pak" 0))
          (commit_entries (batch [sample_info Byte.x01 5] [hello])
             (fresh_world "pack0.pak" 0))
    ∧ Z.of_nat (length (Packfile.fd (Packfile.pf w')))
      < Z.of_nat (length (Packfile.fd (Packfile.pf (fresh_world "pack0.pak" 0))))
        + NUMOBJS_SIZE + ENTRYSIZE * Z.of_nat (length [sample_info Byte.x01 5])
        + total_length [hello].
Proof.
  apply (receive_cut_short [sample_info Byte.x01 5] [hello] [Byte.x68; Byte.x65]
           (fresh_world "pack0.pak" 0)).
  - reflexivity.
  - simpl. lia.
  - repeat constructor; simpl; lia.
  - repeat constructor; simpl; lia.
  - vm_compute. reflexivity.
Defined.

(** ** Packfiles: commits, then a purge *)

Lemma commit_batches_groups (bs : list (list (ObjectInfo * bytes))) :
  ∀ w : Packfile.World,
    ∃ (w1 : Packfile.World) (gs : list (list (ObjectInfo * bytes) * Z)),
      commit_batches bs w = Some w1
      ∧ gs.*1 = bs
      ∧ Packfile.fd (Packfile.pf w1) = Packfile.fd (Packfile.pf w) ++ pack_bytes gs
      ∧ Packfile.packid (Packfile.pf w1) = Packfile.packid (Packfile.pf w).
Proof.
  induction bs as [| b bs IH]; intros w.
  - exists w, []. cbn. by rewrite app_nil_r.
  - cbn [commit_batches]. rewrite commit_effect
      by (cbn [batch PfTransaction.infos PfTransaction.payloads]; by rewrite !length_fmap).
    match goal with
    | |- context [commit_batches bs ?w0] =>
        destruct (IH w0) as (w1 & gs & Hrun & Hgs & Hfd & Hid)
    end.
    cbn [Packfile.pf Packfile.fd Packfile.packid] in Hfd, Hid.
    exists w1.
    exists ((b, wrap32 (Packfile.fileSize (Packfile.pf w) + NUMOBJS_SIZE
                        + wrap64 (Z.of_nat (length b) * ENTRYSIZE))) :: gs).
    split; [done |]. split; [cbn; by rewrite Hgs |]. split; [| done].
    rewrite Hfd. unfold pack_bytes. cbn [map concat]. unfold group_bytes at 2.
    unfold header_block. cbn [batch PfTransaction.infos PfTransaction.payloads fst snd].
    rewrite !length_fmap, <- !app_assoc. done.
Qed.

(** X19. Commits, then a purge: after a transaction was committed for
    each of the batches [bs] to a pack on an empty file, [purge] keeps, in
    one group, exactly the objects of all the batches, in the order they
    were committed, whose hash is not in [hset]. *)
Theorem commits_then_purge (hset : gset ObjectHash) (tmp : bytes)
    (bs : list (list (ObjectInfo * bytes))) (w : Packfile.World) :
  Packfile.fd (Packfile.pf w) = [] →
  Forall group_ok bs →
  let objs := kept hset (concat bs) in
  ∃ (w1 w2 : Packfile.World),
    commit_batches bs w = Some w1
    ∧ Packfile.purge hset tmp w1 = Some (w2, Returned (bool_decide (objs = [])))
    ∧ Packfile.fd (Packfile.pf w2)
      = tmp ++ group_bytes
                 (objs, wrap32 (Packfile.fileSize (Packfile.pf w1) + NUMOBJS_SIZE
                                + wrap64 (Z.of_nat (length objs) * ENTRYSIZE)))
    ∧ Packfile.idx w2
      = index_all (Packfile.idx w1)
          (group_entries (Packfile.packid (Packfile.pf w))
             (wrap32 (Packfile.fileSize (Packfile.pf w1) + NUMOBJS_SIZE
                      + wrap64 (Z.of_nat (length objs) * ENTRYSIZE)))
             objs.*1 objs.*2).
Proof.
  intros Hempty Hok objs.
  destruct (commit_batches_groups bs w) as (w1 & gs & Hrun & Hgs & Hfd & Hid).
  rewrite Hempty in Hfd. cbn [app] in Hfd.
  assert (Hok' : Forall (λ g, group_ok g.1) gs).
  { rewrite <- Hgs in Hok. rewrite Forall_fmap in Hok. exact Hok. }
  exists w1. eexists. split; [done |].
  rewrite (purge_groups hset tmp w1 gs Hfd Hok'). rewrite Hgs. fold objs.
  rewrite commit_effect
    by (cbn [batch PfTransaction.infos PfTransaction.payloads]; by rewrite !length_fmap).
  split; [reflexivity |].
  unfold header_block, commit_entries, group_bytes.
  cbn [Packfile.pf Packfile.fd Packfile.filename Packfile.packid Packfile.numObjects
       Packfile.fileSize Packfile.idx Packfile.trace batch PfTransaction.infos
       PfTransaction.payloads fst snd].
  rewrite !length_fmap, Hid. done.
Qed.

Lemma commits_then_purge_witness :
  let objs := kept {[ sample_hash Byte.x02 ]}
                (concat [[(sample_info Byte.x01 5, hello)];
                         [(sample_info Byte.x02 1, [Byte.x61]);
                          (sample_info Byte.x03 5, hello)]]) in
  ∃ (w1 w2 : Packfile.World),
    commit_batches [[(sample_info Byte.x01 5, hello)];
                    [(sample_info Byte.x02 1, [Byte.x61]);
                     (sample_info Byte.x03 5, hello)]] (fresh_world "pack0.pak" 0)
    = Some w1
    ∧ Packfile.purge {[ sample_hash Byte.x02 ]} [] w1
      = Some (w2, Returned (bool_decide (objs = [])))
    ∧ Packfile.fd (Packfile.pf w2)
      = [] ++ group_bytes
                (objs, wrap32 (Packfile.fileSize (Packfile.pf w1) + NUMOBJS_SIZE
                               + wrap64 (Z.of_nat (length objs) * ENTRYSIZE)))
    ∧ Packfile.idx w2
      = index_all (Packfile.idx w1)
          (group_entries (Packfile.packid (Packfile.pf (fresh_world "pack0.pak" 0)))
             (wrap32 (Packfile.fileSize (Packfile.pf w1) + NUMOBJS_SIZE
                      + wrap64 (Z.of_nat (length objs) * ENTRYSIZE)))
             objs.*1 objs.*2).
Proof.
  apply (commits_then_purge {[ sample_hash Byte.x02 ]} []
           [[(sample_info Byte.x01 5, hello)];
            [(sample_info Byte.x02 1, [Byte.x61]); (sample_info Byte.x03 5, hello)]]
           (fresh_world "pack0.pak" 0)).
  - reflexivity.
  - repeat constructor; simpl; lia.
Defined.

(** ** Packfiles: the entries of the index lie within the file *)

Lemma group_entries_bounds (id : Z) (infos : list ObjectInfo) :
  ∀ (payloads : list bytes) (off : Z),
    0 ≤ off → off + total_length payloads < 2 ^ 32 →
    Forall (λ e, off ≤ offset e ∧ 0 ≤ packed_size e
                 ∧ offset e + packed_size e ≤ off + total_length payloads)
      (group_entries id off infos payloads).
Proof.
  induction infos as [| i infos IH]; intros [| p payloads] off H0 Hlt; try constructor.
  - rewrite total_length_cons in *. pose proof (total_length_nonneg payloads).
    cbn [offset packed_size]. rewrite wrap32_small by lia. lia.
  - rewrite total_length_cons in *. pose proof (total_length_nonneg payloads).
    rewrite wrap32_small by lia.
    eapply Forall_impl; [apply IH; lia |]. intros e. cbn beta. lia.
Qed.

Lemma index_all_lookup (es : list IndexEntry) :
  ∀ (m : Index) (h : ObjectHash) (e : IndexEntry),
    index_all m es !! h = Some e → m !! h = Some e ∨ e ∈ es.
Proof.
  induction es as [| e0 es IH]; intros m h e Hl; [by left |].
  cbn [index_all foldl] in Hl. fold (index_all (<[hash (info e0) := e0]> m) es) in Hl.
  apply IH in Hl as [Hl | Hin]; [| right; by right].
  destruct (decide (hash (info e0) = h)) as [<- | Hne].
  - rewrite lookup_insert_eq in Hl. injection Hl as <-. right. by left.
  - rewrite lookup_insert_ne in Hl by done. by left.
Qed.

(** X20. An invariant of the pack and its index: when [fileSize] is the
    size of the file and every entry the index has for this pack lies
    within the file, the same holds after a [commit] that leaves the file
    shorter than [2^32] bytes, and [fileSize] has not decreased. *)
Theorem commit_keeps_index_sound (t t' : PfTransaction.state) (w w' : Packfile.World) :
  index_sound w →
  Packfile.commit t w = Some (t', w') →
  Packfile.fileSize (Packfile.pf w') < 2 ^ 32 →
  index_sound w'
  ∧ Packfile.fileSize (Packfile.pf w) ≤ Packfile.fileSize (Packfile.pf w').
Proof.
  intros [Hwf Hsound] Hc Hlt.
  destruct (decide (length (PfTransaction.infos t) = length (PfTransaction.payloads t)))
    as [Hl | Hl].
  2: { unfold Packfile.commit in Hc. by destruct (decide _) in Hc. }
  rewrite (commit_effect t w Hl) in Hc.
  pose proof (header_block_length t w Hl) as Hhb.
  remember (header_block t w) as hb eqn:Hhbdef. clear Hhbdef.
  injection Hc as _ <-.
  cbn [Packfile.pf Packfile.fileSize Packfile.fd Packfile.idx Packfile.packid] in *.
  pose proof (total_length_nonneg (PfTransaction.payloads t)) as Htl.
  set (n := Z.of_nat (length (PfTransaction.infos t))) in *.
  assert (Hn : 0 ≤ n) by (unfold n; lia).
  assert (Hoff : wrap32 (Packfile.fileSize (Packfile.pf w) + NUMOBJS_SIZE
                         + wrap64 (n * ENTRYSIZE))
                 = Packfile.fileSize (Packfile.pf w) + NUMOBJS_SIZE + ENTRYSIZE * n).
  { pack_widths. rewrite wrap64_small, wrap32_small by lia. lia. }
  unfold index_sound.
  cbn [Packfile.pf Packfile.fileSize Packfile.fd Packfile.idx Packfile.packid].
  split; [| lia]. split.
  - rewrite !length_app, !Nat2Z.inj_add, Hwf, Hhb. unfold total_length. lia.
  - intros h e Hlook Hid. apply index_all_lookup in Hlook as [Hold | Hnew].
    + specialize (Hsound h e Hold Hid). lia.
    + unfold commit_entries in Hnew. fold n in Hnew. rewrite Hoff in Hnew.
      pose proof (group_entries_bounds (Packfile.packid (Packfile.pf w))
                    (PfTransaction.infos t) (PfTransaction.payloads t)
                    (Packfile.fileSize (Packfile.pf w) + NUMOBJS_SIZE + ENTRYSIZE * n))
        as Hb.
      rewrite Forall_forall in Hb. ospecialize (Hb _ _ e Hnew); [pack_widths; lia .. |].
      cbn beta in Hb. pack_widths. lia.
Qed.

Lemma commit_keeps_index_sound_witness :
  index_sound two_object_pack
  ∧ Packfile.fileSize (Packfile.pf (fresh_world "pack0.pak" 0))
    ≤ Packfile.fileSize (Packfile.pf two_object_pack).
Proof.
  apply (commit_keeps_index_sound
           (stage (tuneables false 512) tag_zip
              [(sample_info Byte.x01 5, hello);
               (sample_info Byte.x02 61, replicate 56 Byte.x00 ++ hello)]
              Packfile.begin)
           (mark_committed
              (stage (tuneables false 512) tag_zip
                 [(sample_info Byte.x01 5, hello);
                  (sample_info Byte.x02 61, replicate 56 Byte.x00 ++ hello)]
                 Packfile.begin))
           (fresh_world "pack0.pak" 0) two_object_pack).
  - split; [reflexivity |]. intros h e Hl. cbn in Hl. by rewrite lookup_empty in Hl.
  - reflexivity.
  - vm_compute. reflexivity.
Defined.
